(** * voron-mod-hub: the ingestion pipeline of [scripts/parseReadme.ts]

    A shallow embedding of the script that turns the VoronUsers markdown
    table into [public/mods.json]: the row parser, the compatibility
    normalizer, the preview-image resolver with its persisted cache, the
    cleanup of the local image directory and the snapshot writer.

    Conventions.
    - A JavaScript string is a Rocq [string] whose characters are the code
      units U+0000..U+00FF; [trim], [\s] and [toLowerCase] are the
      JavaScript ones on that range (U+00A0 is white space, the Latin-1
      capitals have lower-case forms).
    - [undefined] and [null] are [None].
    - The network, the image transcoder, the URL parser, the collation,
      the clock, the order in which waiting callbacks go on and the
      failures of the file system are the fields of a [World]: the
      environment of a run.
    - The files the script reads and writes, the objects it shares between
      its callbacks and a record of the requests it makes are a
      [RunState].  The image directory is a finite map from the names of
      its entries to their contents; an entry that is a directory is one
      whose [unlink] fails.
    - An [async] function is a function from the state to an [Outcome]:
      resolved with a value, or rejected.  Where callbacks run together,
      under [Promise.all], an [async] function is a [Proc]: code that
      acts on the state between one [await] and the next; a call of the
      platform acts on the state when it is made.
    - The [imageCache] object is [null] or an object with its own
      properties and its prototype.  A cache file that holds an array, a
      string, a number or a boolean is outside the model; so is a number
      that is not an integer inside the file.
    - Paths are POSIX paths. *)

From Stdlib Require Import ZArith Ascii String List Permutation.
From stdpp Require Import gmap strings list.

Local Open Scope stdpp_scope.

(** ** JavaScript string primitives *)

Module Js.

(** [WhiteSpace] and [LineTerminator] of ECMAScript below U+0100: TAB, LF,
    VT, FF, CR, SP and NBSP.  This is the set [String.prototype.trim]
    strips and the regular-expression class [\s] matches. *)
Definition isWhiteSpace (c : ascii) : bool :=
  match N_of_ascii c with
  | 9 | 10 | 11 | 12 | 13 | 32 | 160 => true
  | _ => false
  end%N.

Fixpoint trimStart (s : string) : string :=
  match s with
  | "" => ""
  | String c s' => if isWhiteSpace c then trimStart s' else s
  end.

(** [trimEnd] keeps a character when it is not white space or when
    something that is kept follows it. *)
Fixpoint trimEnd (s : string) : string :=
  match s with
  | "" => ""
  | String c s' =>
      match trimEnd s' with
      | "" => if isWhiteSpace c then "" else String c ""
      | t => String c t
      end
  end.

Definition trim (s : string) : string := trimEnd (trimStart s).

Fixpoint startsWith (s p : string) {struct p} : bool :=
  match p, s with
  | "", _ => true
  | String a p', String b s' => Ascii.eqb a b && startsWith s' p'
  | String _ _, "" => false
  end.

(** [s] is [p], or what follows its first character ends with [p]. *)
Fixpoint endsWith (s p : string) : bool :=
  String.eqb s p
  || match s with
     | "" => false
     | String _ s' => endsWith s' p
     end.

Definition lowerChar (c : ascii) : ascii :=
  let n := N_of_ascii c in
  if ((65 <=? n) && (n <=? 90)
      || (192 <=? n) && (n <=? 222) && negb (n =? 215))%N
  then ascii_of_N (n + 32) else c.

Fixpoint toLowerCase (s : string) : string :=
  match s with
  | "" => ""
  | String c s' => String (lowerChar c) (toLowerCase s')
  end.

(** [chr] put in front of the first piece of a split. *)
Definition consHead (c : ascii) (pieces : list string) : list string :=
  match pieces with
  | [] => [String c ""]
  | p :: ps => String c p :: ps
  end.

(** [s.split(/[...]/)] for a class of single characters: the pieces
    between the separators, empty ones included; never the empty list. *)
Fixpoint splitOn (sep : ascii -> bool) (s : string) : list string :=
  match s with
  | "" => [""]
  | String c s' =>
      if sep c then "" :: splitOn sep s' else consHead c (splitOn sep s')
  end.

(** [s.split(/\r?\n/)]. *)
Fixpoint splitLines (s : string) : list string :=
  match s with
  | "" => [""]
  | String c s' =>
      if Ascii.eqb c "010" then "" :: splitLines s'
      else
        match s' with
        | String c' s'' =>
            if Ascii.eqb c "013" && Ascii.eqb c' "010"
            then "" :: splitLines s''
            else consHead c (splitLines s')
        | "" => consHead c (splitLines s')
        end
  end.

(** The characters before the first one in the class: [split(/[...]/)[0]]
    for a class of single characters. *)
Fixpoint takeUntil (stop : ascii -> bool) (s : string) : string :=
  match s with
  | "" => ""
  | String c s' => if stop c then "" else String c (takeUntil stop s')
  end.

(** [s.slice(n)]. *)
Fixpoint sliceFrom (n : nat) (s : string) : string :=
  match n, s with
  | S k, String _ s' => sliceFrom k s'
  | _, _ => s
  end.

(** Truthiness of a string: [""] is falsy. *)
Definition truthy (s : string) : bool :=
  match s with "" => false | _ => true end.

(** Truthiness of [string | undefined]. *)
Definition truthyOpt (o : option string) : bool :=
  match o with Some s => truthy s | None => false end.

(** [x || undefined]. *)
Definition orUndefined (s : string) : option string :=
  if truthy s then Some s else None.

End Js.

(** ** [src/lib/types.ts] *)

(** [CompatibilityFlag = "✓" | "✗" | "?"]. *)
Inductive CompatibilityFlag : Set :=
| Tick      (* "✓" *)
| Cross     (* "✗" *)
| Question. (* "?" *)

Record Compatibility : Set := mkCompatibility {
  v0 : CompatibilityFlag;
  v1_8 : CompatibilityFlag;
  v2_4 : CompatibilityFlag;
  trident : CompatibilityFlag;
  v0_1 : CompatibilityFlag
}.

(** [keyof Compatibility]. *)
Inductive PrinterKey : Set := K_v0 | K_v0_1 | K_v1_8 | K_v2_4 | K_trident.

Definition getFlag (k : PrinterKey) (c : Compatibility) : CompatibilityFlag :=
  match k with
  | K_v0 => v0 c
  | K_v0_1 => v0_1 c
  | K_v1_8 => v1_8 c
  | K_v2_4 => v2_4 c
  | K_trident => trident c
  end.

(** [compatibility[key] = f]. *)
Definition setFlag (k : PrinterKey) (f : CompatibilityFlag) (c : Compatibility)
  : Compatibility :=
  match k with
  | K_v0 => mkCompatibility f (v1_8 c) (v2_4 c) (trident c) (v0_1 c)
  | K_v0_1 => mkCompatibility (v0 c) (v1_8 c) (v2_4 c) (trident c) f
  | K_v1_8 => mkCompatibility (v0 c) f (v2_4 c) (trident c) (v0_1 c)
  | K_v2_4 => mkCompatibility (v0 c) (v1_8 c) f (trident c) (v0_1 c)
  | K_trident => mkCompatibility (v0 c) (v1_8 c) (v2_4 c) f (v0_1 c)
  end.

(** ** Constants of the script *)

Definition MOD_BASE_URL : string :=
  "https://github.com/VoronDesign/VoronUsers/tree/master/printer_mods".
Definition MOD_BLOB_BASE_URL : string :=
  "https://github.com/VoronDesign/VoronUsers/blob/master/printer_mods".
Definition RAW_BASE_URL : string :=
  "https://raw.githubusercontent.com/VoronDesign/VoronUsers/master/printer_mods".
(** The default of [README_URL]; the override by the environment variable
    [VORON_USERS_README_URL] is left out. *)
Definition README_URL : string :=
  "https://raw.githubusercontent.com/VoronDesign/VoronUsers/master/printer_mods/README.md".
Definition README_FILENAME : string := "README.md".
Definition IMAGE_FETCH_CONCURRENCY : nat := 8.
Definition IMAGE_EXTENSIONS : list string :=
  [".png"; ".jpg"; ".jpeg"; ".gif"; ".webp"; ".bmp"; ".svg"].

(** [Object.entries(PRINTER_SYNONYMS)], in the order of the literal. *)
Definition PRINTER_SYNONYMS : list (PrinterKey * list string) :=
  [ (K_v0, ["V0"; "V0.0"; "V0.1"; "V0.2"; "V0.2r1"]);
    (K_v0_1, ["V0.1"]);
    (K_v1_8, ["V1.8"; "V1"]);
    (K_v2_4, ["V2.4"; "V2.4r2"]);
    (K_trident, ["VT"; "Trident"; "Voron Trident"]) ].

#[global] Instance PrinterKey_eq_dec : EqDecision PrinterKey.
Proof. solve_decision. Defined.

(** [PRINTER_SYNONYMS[key]]. *)
Definition synonymsOf (k : PrinterKey) : list string :=
  match List.find (fun e => bool_decide (fst e = k)) PRINTER_SYNONYMS with
  | Some e => snd e
  | None => []
  end.

Definition DEFAULT_COMPATIBILITY : Compatibility :=
  mkCompatibility Cross Cross Cross Cross Cross.

(** ** Compatibility normalizer *)

(** The class [[,/]]. *)
Definition isCommaOrSlash (c : ascii) : bool :=
  Ascii.eqb c "," || Ascii.eqb c "/".

(** [synonyms.includes(token)]. *)
Definition includes (l : list string) (x : string) : bool :=
  existsb (String.eqb x) l.

(** [cell.split(/[,/]/).map((token) => token.trim()).filter(Boolean)]. *)
Definition compatTokens (cell : string) : list string :=
  List.filter Js.truthy (List.map Js.trim (Js.splitOn isCommaOrSlash cell)).

Definition buildCompatibility (cell : string) : Compatibility :=
  let normalized := compatTokens cell in
  fold_left
    (fun compatibility '(key, synonyms) =>
       if existsb (fun token => includes synonyms token) normalized
       then setFlag key Tick compatibility
       else compatibility)
    PRINTER_SYNONYMS DEFAULT_COMPATIBILITY.

(** ** Row parser *)

(** [text.replace(/\\n/g, " ")]: every backslash followed by [n] becomes a
    space. *)
Fixpoint replaceEscapedNewlines (s : string) : string :=
  match s with
  | "" => ""
  | String c s' =>
      match s' with
      | String c' s'' =>
          if Ascii.eqb c "092" && Ascii.eqb c' "n"
          then String " " (replaceEscapedNewlines s'')
          else String c (replaceEscapedNewlines s')
      | "" => String c ""
      end
  end.

(** [text.replace(/\s+/g, " ")]; [inRun] says that the previous character
    was white space, so that the run it belongs to is already replaced. *)
Fixpoint collapseWhiteSpace (inRun : bool) (s : string) : string :=
  match s with
  | "" => ""
  | String c s' =>
      if Js.isWhiteSpace c
      then if inRun then collapseWhiteSpace true s'
           else String " " (collapseWhiteSpace true s')
      else String c (collapseWhiteSpace false s')
  end.

Definition sanitizeDescription (text : string) : string :=
  Js.trim (collapseWhiteSpace false (replaceEscapedNewlines text)).

(** The run of characters different from [stop] at the head of [s], when
    [stop] follows it, and what comes after that [stop].  This is how a
    greedy class [[^c]*] followed by the literal [c] matches. *)
Fixpoint spanUntil (stop : ascii) (s : string) : option (string * string) :=
  match s with
  | "" => None
  | String c s' =>
      if Ascii.eqb c stop then Some ("", s')
      else match spanUntil stop s' with
           | Some (run, rest) => Some (String c run, rest)
           | None => None
           end
  end.

(** A match of [/\[([^\]]+)\]\(([^)]+)\)/] that starts at the head of [s]:
    the two captures. *)
Definition linkAt (s : string) : option (string * string) :=
  match s with
  | String c s1 =>
      if Ascii.eqb c "[" then
        match spanUntil "]" s1 with
        | Some (text, String c' s3) =>
            if Ascii.eqb c' "(" then
              match spanUntil ")" s3 with
              | Some (target, _) =>
                  if Js.truthy text && Js.truthy target
                  then Some (text, target) else None
              | None => None
              end
            else None
        | _ => None
        end
      else None
  | "" => None
  end.

(** [cell.match(/\[([^\]]+)\]\(([^)]+)\)/)]: the leftmost match. *)
Fixpoint matchLink (cell : string) : option (string * string) :=
  match linkAt cell with
  | Some m => Some m
  | None =>
      match cell with
      | "" => None
      | String _ cell' => matchLink cell'
      end
  end.

(** [rawLink.replace(/^\.\//, "")]. *)
Definition stripDotSlash (s : string) : string :=
  if Js.startsWith s "./" then Js.sliceFrom 2 s else s.

(** [/^https?:\/\//i.test(s)].  Without the [u] flag a character above
    U+007F never matches an ASCII letter, so below U+0100 the test is a
    prefix test on the lower-cased string. *)
Definition isAbsoluteHttp (s : string) : bool :=
  Js.startsWith (Js.toLowerCase s) "http://"
  || Js.startsWith (Js.toLowerCase s) "https://".

(** The object [{ title, link, sourcePath }] as a triple. *)
Definition extractLink (cell : string) : string * string * option string :=
  match matchLink cell with
  | None => (cell, MOD_BASE_URL, None)
  | Some (title, rawLink) =>
      let normalized := stripDotSlash rawLink in
      let isExternal := isAbsoluteHttp normalized in
      let link := if isExternal then normalized
                  else MOD_BASE_URL +:+ "/" +:+ normalized in
      let sourcePath := if isExternal then None else Some normalized in
      (Js.trim title, link, sourcePath)
  end.

(** [type DraftMod = Mod & { sourcePath?: string }], with the [authorSlug]
    and [image] properties the script gives it. *)
Module Draft.
Record t : Set := mk {
  creator : string;
  title : string;
  description : string;
  link : string;
  compatibility : Compatibility;
  lastChanged : option string;
  sourcePath : option string;
  authorSlug : option string;
  image : option string
}.

(** [mod.image = x]. *)
Definition setImage (x : string) (m : t) : t :=
  mk (creator m) (title m) (description m) (link m) (compatibility m)
     (lastChanged m) (sourcePath m) (authorSlug m) (Some x).
End Draft.

Definition isPipe (c : ascii) : bool := Ascii.eqb c "|".
Definition isSlash (c : ascii) : bool := Ascii.eqb c "/".

(** [a.slice(1, -1)]. *)
Definition sliceInner {A} (l : list A) : list A := removelast (tl l).

(** [line.split("|").slice(1, -1).map((cell) => cell.trim())]. *)
Definition rowCells (line : string) : list string :=
  List.map Js.trim (sliceInner (Js.splitOn isPipe line)).

(** The body of the [for] loop of [parseMods] on the remaining lines, with
    the two variables it updates; the result is what [mods.push] adds from
    here on. *)
Fixpoint parseLoop (inTable : bool) (lastCreator : string)
    (lines : list string) : list Draft.t :=
  match lines with
  | [] => []
  | line :: rest =>
      if negb inTable && Js.startsWith (Js.trim line) "| Creator"
      then parseLoop true lastCreator rest
      else if negb inTable then parseLoop inTable lastCreator rest
      else if Js.startsWith (Js.trim line) "| ---"
      then parseLoop inTable lastCreator rest
      else if negb (Js.startsWith (Js.trim line) "|")
      then (if inTable then [] else parseLoop inTable lastCreator rest)
      else
        let cells := rowCells line in
        if List.length cells <? 5 then parseLoop inTable lastCreator rest
        else
          match cells with
          | initialCreator :: titleCell :: description :: compatibilityCell
              :: lastChanged :: _ =>
              let lastCreator' :=
                if Js.truthy initialCreator then initialCreator
                else lastCreator in
              let creator :=
                if Js.truthy initialCreator then initialCreator
                else lastCreator in
              let '(title, link, sourcePath) := extractLink titleCell in
              Draft.mk creator title (sanitizeDescription description) link
                (buildCompatibility compatibilityCell)
                (Js.orUndefined lastChanged) sourcePath
                (sp ← sourcePath; head (Js.splitOn isSlash sp)) None
              :: parseLoop inTable lastCreator' rest
          | _ => parseLoop inTable lastCreator rest
          end
  end.

Definition parseMods (markdown : string) : list Draft.t :=
  parseLoop false "" (Js.splitLines markdown).

(** ** MD5 ([createHash("md5").update(url).digest("hex")])

    RFC 1321 on 32-bit words held in [Z], every addition reduced modulo
    2^32. *)

Module MD5.
Local Open Scope Z_scope.

Definition wrap (x : Z) : Z := x mod 2^32.
Definition add32 (x y : Z) : Z := wrap (x + y).
Definition not32 (x : Z) : Z := Z.lxor x 0xffffffff.
Definition rotl32 (x : Z) (n : Z) : Z :=
  Z.lor (wrap (Z.shiftl x n)) (Z.shiftr x (32 - n)).

Definition K : list Z :=
  [ 0xd76aa478; 0xe8c7b756; 0x242070db; 0xc1bdceee;
    0xf57c0faf; 0x4787c62a; 0xa8304613; 0xfd469501;
    0x698098d8; 0x8b44f7af; 0xffff5bb1; 0x895cd7be;
    0x6b901122; 0xfd987193; 0xa679438e; 0x49b40821;
    0xf61e2562; 0xc040b340; 0x265e5a51; 0xe9b6c7aa;
    0xd62f105d; 0x02441453; 0xd8a1e681; 0xe7d3fbc8;
    0x21e1cde6; 0xc33707d6; 0xf4d50d87; 0x455a14ed;
    0xa9e3e905; 0xfcefa3f8; 0x676f02d9; 0x8d2a4c8a;
    0xfffa3942; 0x8771f681; 0x6d9d6122; 0xfde5380c;
    0xa4beea44; 0x4bdecfa9; 0xf6bb4b60; 0xbebfbc70;
    0x289b7ec6; 0xeaa127fa; 0xd4ef3085; 0x04881d05;
    0xd9d4d039; 0xe6db99e5; 0x1fa27cf8; 0xc4ac5665;
    0xf4292244; 0x432aff97; 0xab9423a7; 0xfc93a039;
    0x655b59c3; 0x8f0ccc92; 0xffeff47d; 0x85845dd1;
    0x6fa87e4f; 0xfe2ce6e0; 0xa3014314; 0x4e0811a1;
    0xf7537e82; 0xbd3af235; 0x2ad7d2bb; 0xeb86d391 ].

Definition S : list Z :=
  [ 7; 12; 17; 22; 7; 12; 17; 22; 7; 12; 17; 22; 7; 12; 17; 22;
    5; 9; 14; 20; 5; 9; 14; 20; 5; 9; 14; 20; 5; 9; 14; 20;
    4; 11; 16; 23; 4; 11; 16; 23; 4; 11; 16; 23; 4; 11; 16; 23;
    6; 10; 15; 21; 6; 10; 15; 21; 6; 10; 15; 21; 6; 10; 15; 21 ].

(** The bytes [update] hashes: the UTF-8 encoding of the code units. *)
Definition utf8 (c : ascii) : list Z :=
  let n := Z.of_N (N_of_ascii c) in
  if n <? 128 then [n]
  else [Z.lor 0xc0 (Z.shiftr n 6); Z.lor 0x80 (Z.land n 0x3f)].

Fixpoint bytesOf (s : string) : list Z :=
  match s with
  | "" => []
  | String c s' => utf8 c ++ bytesOf s'
  end.

(** A number as [n] little-endian bytes. *)
Fixpoint leBytes (n : nat) (x : Z) : list Z :=
  match n with
  | O => []
  | Datatypes.S k => x mod 256 :: leBytes k (x / 256)
  end.

Fixpoint leWord (bs : list Z) : Z :=
  match bs with
  | [] => 0
  | b :: bs' => b + 256 * leWord bs'
  end.

(** The message, the byte 0x80, zeros up to 56 modulo 64, and the length
    in bits on 8 bytes. *)
Definition pad (msg : list Z) : list Z :=
  let len := Z.of_nat (List.length msg) in
  let zeros := Z.to_nat ((55 - len) mod 64) in
  msg ++ [0x80] ++ List.repeat 0 zeros ++ leBytes 8 ((8 * len) mod 2^64).

(** The sixteen words of the block that starts at [bs]. *)
Fixpoint wordsOf (n : nat) (bs : list Z) : list Z :=
  match n with
  | O => []
  | Datatypes.S k => leWord (firstn 4 bs) :: wordsOf k (skipn 4 bs)
  end.

Definition State : Set := (Z * Z * Z * Z)%type.

Definition round (M : list Z) (st : State) (i : nat) : State :=
  let '(a, b, c, d) := st in
  let iz := Z.of_nat i in
  let '(f, g) :=
    if iz <? 16 then (Z.lor (Z.land b c) (Z.land (not32 b) d), iz)
    else if iz <? 32
    then (Z.lor (Z.land d b) (Z.land (not32 d) c), (5 * iz + 1) mod 16)
    else if iz <? 48 then (Z.lxor b (Z.lxor c d), (3 * iz + 5) mod 16)
    else (Z.lxor c (Z.lor b (not32 d)), (7 * iz) mod 16) in
  let f' := add32 (add32 (add32 f a) (nth i K 0)) (nth (Z.to_nat g) M 0) in
  (d, add32 b (rotl32 f' (nth i S 0)), b, c).

Definition block (st : State) (M : list Z) : State :=
  let '(a0, b0, c0, d0) := st in
  let '(a, b, c, d) := fold_left (round M) (seq 0 64) st in
  (add32 a0 a, add32 b0 b, add32 c0 c, add32 d0 d).

Fixpoint blocks (n : nat) (st : State) (bs : list Z) : State :=
  match n with
  | O => st
  | Datatypes.S k => blocks k (block st (wordsOf 16 bs)) (skipn 64 bs)
  end.

Definition init : State := (0x67452301, 0xefcdab89, 0x98badcfe, 0x10325476).

Definition digest (msg : list Z) : State :=
  let padded := pad msg in
  blocks (List.length padded / 64) init padded.

Definition hexDigit (x : Z) : ascii :=
  match x with
  | 0 => "0" | 1 => "1" | 2 => "2" | 3 => "3" | 4 => "4" | 5 => "5"
  | 6 => "6" | 7 => "7" | 8 => "8" | 9 => "9" | 10 => "a" | 11 => "b"
  | 12 => "c" | 13 => "d" | 14 => "e" | _ => "f"
  end%char.

Definition hexByte (b : Z) (tail : string) : string :=
  String (hexDigit (b / 16 mod 16)) (String (hexDigit (b mod 16)) tail).

(** A 32-bit word as the hexadecimal of its four little-endian bytes. *)
Definition hexWord (w : Z) (tail : string) : string :=
  hexByte w (hexByte (w / 2^8) (hexByte (w / 2^16) (hexByte (w / 2^24) tail))).

Definition hex (s : string) : string :=
  let '(a, b, c, d) := digest (bytesOf s) in
  hexWord a (hexWord b (hexWord c (hexWord d ""))).
End MD5.

(** ** The platform and the files *)

(** What [await fetch(url)] resolves to; [text] and [arrayBuffer] are the
    two readings of the body. *)
Record HttpResponse : Set := mkResponse {
  ok : bool;
  text : string;
  arrayBuffer : list Byte.byte
}.

(** How [fs.writeFile] ends on one of the two documents of a run: the
    document is written; the promise rejects and the document is as it
    was; the promise rejects and the document is cut short. *)
Inductive WriteFate : Set := Written | Untouched | Truncated.

Record World : Type := mkWorld {
  (** [fetch(url)]; [None] when the promise rejects (no connection, DNS
      failure, reset). *)
  net : string -> option HttpResponse;
  (** [sharp(buffer).jpeg({ quality: 85 }).toBuffer()]; [None] when it
      rejects. *)
  sharpJpeg : list Byte.byte -> option (list Byte.byte);
  (** [new URL(relative, base).href]; [None] when the constructor throws. *)
  URL_href : string -> string -> option string;
  (** [a.localeCompare(b)]. *)
  localeCompare : string -> string -> Z;
  (** [new Date().toISOString()], read when the requests made so far are
      the given ones, the latest first. *)
  now : list string -> string;
  (** Which of the callbacks that wait goes on, in the batch that begins
      at the i-th mod, at the n-th time one of them does: its rank among
      those that wait, modulo their number. *)
  schedule : nat -> nat -> nat;
  (** [fs.access(path)] for a path, relative to the working directory,
      that is not the one of an entry of the image directory. *)
  accessOther : string -> bool;
  (** [fs.writeFile] of [public/mods.json]. *)
  snapshotWrite : WriteFate;
  (** [fs.mkdir] of [data] and [fs.writeFile] of [data/imageCache.json]. *)
  cacheWrite : WriteFate;
  (** Does [fs.readdir] of the image directory resolve? *)
  readdirOk : bool;
  (** Does [fs.unlink] of the entry of that name resolve? *)
  unlinkOk : string -> bool
}.

(** [type ImageCacheEntry = { image: string | null; lastChanged?: string }]:
    an entry as the script makes it. *)
Module CacheEntry.
Record t : Set := mk {
  image : option string;
  lastChanged : option string
}.
End CacheEntry.

(** JSON documents as the script writes them. *)
#[local] Unset Elimination Schemes.
Inductive Json : Set :=
| JStr (s : string)
| JFlag (f : CompatibilityFlag)
| JArr (l : list Json)
| JObj (fields : list (string * Json)).

(** A value as [JSON.parse] gives it.  A number is held as an integer:
    the script only tests whether it is zero. *)
Inductive Parsed : Set :=
| PNull
| PBool (b : bool)
| PNum (n : Z)
| PStr (s : string)
| PArr (l : list Parsed)
| PObj (members : list (string * Parsed)).
#[local] Set Elimination Schemes.

(** ** The [imageCache] object

    [JSON.parse] of the cache file gives [null] or an object whose own
    properties are the members of the document; [{}] and these objects
    have the prototype [Object.prototype].  The script reads the object
    with [cache[key]] and writes it with [cache[key] = entry]. *)
Module Cache.

(** The object is [null], or has own properties and a prototype:
    [Object.prototype] ([None]) or, once [cache["__proto__"] = entry] has
    been executed on an object without own property of that name, the
    entry assigned. *)
Inductive t : Type :=
| Null
| Object (own : gmap string Parsed) (proto : option CacheEntry.t).

(** What reading a property gives: [undefined], a JSON value, or one of
    the functions and objects of the platform (a method of
    [Object.prototype], that prototype itself). *)
Inductive Found : Set :=
| Undefined
| Value (v : Parsed)
| Builtin.

(** The names of the properties of [Object.prototype]. *)
Definition OBJECT_PROTOTYPE : list string :=
  [ "constructor"; "__defineGetter__"; "__defineSetter__"; "hasOwnProperty";
    "__lookupGetter__"; "__lookupSetter__"; "isPrototypeOf";
    "propertyIsEnumerable"; "toString"; "valueOf"; "__proto__";
    "toLocaleString" ].

Definition imageValue (e : CacheEntry.t) : Parsed :=
  match CacheEntry.image e with
  | Some s => PStr s
  | None => PNull
  end.

(** [{ image: finalImage ?? null, lastChanged: mod.lastChanged }] as a
    JSON value: a property whose value is [undefined] reads as an absent
    one and is left out by [JSON.stringify]. *)
Definition entry (e : CacheEntry.t) : Parsed :=
  PObj (("image", imageValue e)
        :: match CacheEntry.lastChanged e with
           | Some token => [("lastChanged", PStr token)]
           | None => []
           end).

(** The member of that name of an object of the document; of two members
    of one name [JSON.parse] keeps the later. *)
Fixpoint member (name : string) (members : list (string * Parsed))
  : option Parsed :=
  match members with
  | [] => None
  | (k, v) :: rest =>
      match member name rest with
      | Some later => Some later
      | None => if String.eqb k name then Some v else None
      end
  end.

Definition inherited (proto : option CacheEntry.t) (key : string) : Found :=
  if String.eqb key "__proto__" then
    match proto with
    | Some e => Value (entry e)
    | None => Builtin
    end
  else
    let fromObject :=
      if existsb (String.eqb key) OBJECT_PROTOTYPE then Builtin else Undefined in
    match proto with
    | Some e =>
        if String.eqb key "image" then Value (imageValue e)
        else if String.eqb key "lastChanged" then
          match CacheEntry.lastChanged e with
          | Some token => Value (PStr token)
          | None => Undefined
          end
        else fromObject
    | None => fromObject
    end.

(** [cache[key]]; [None] is the [TypeError] of a property read on
    [null]. *)
Definition get (c : t) (key : string) : option Found :=
  match c with
  | Null => None
  | Object own proto =>
      Some match own !! key with
           | Some v => Value v
           | None => inherited proto key
           end
  end.

(** [cache[key] = entry]; [None] is the [TypeError] on [null].  The
    property is set on the object itself, but for [__proto__] when the
    object has no own property of that name: the setter of
    [Object.prototype] then makes the entry the prototype. *)
Definition set (c : t) (key : string) (e : CacheEntry.t) : option t :=
  match c with
  | Null => None
  | Object own proto =>
      Some (if String.eqb key "__proto__"
               && negb (bool_decide (is_Some (own !! key)))
            then Object own (Some e)
            else Object (<[key := entry e]> own) proto)
  end.

(** [!!x]. *)
Definition truthy (x : Found) : bool :=
  match x with
  | Undefined => false
  | Builtin => true
  | Value PNull => false
  | Value (PBool b) => b
  | Value (PNum n) => negb (n =? 0)%Z
  | Value (PStr s) => Js.truthy s
  | Value (PArr _) => true
  | Value (PObj _) => true
  end.

(** [x.name] for [name] one of [lastChanged] and [image], on a value that
    is not [null] or [undefined]: an own property of an object of the
    document; arrays, strings, numbers, booleans and the functions and
    objects of the platform have no property of these names. *)
Definition property (name : string) (x : Found) : Found :=
  match x with
  | Value (PObj members) =>
      match member name members with
      | Some v => Value v
      | None => Undefined
      end
  | _ => Undefined
  end.

(** [x === token] for [token] a string or [undefined]. *)
Definition sameToken (x : Found) (token : option string) : bool :=
  match x, token with
  | Undefined, None => true
  | Value (PStr s), Some t => String.eqb s t
  | _, _ => false
  end.

End Cache.

(** What [data/imageCache.json] holds when [JSON.parse] accepts it: [null]
    or an object. *)
Module CacheFile.
Inductive t : Type :=
| Null
| Object (own : gmap string Parsed).
End CacheFile.

(** The state of a run.  [files] is the directory [public/mod-images], an
    entry being known by its name in it; [modsJson] is [public/mods.json]
    and [imageCacheFile] is [data/imageCache.json], [None] when the file
    is not there, cannot be read or is not JSON; [cache] is the
    [imageCache] object; [requests] records the URLs given to [fetch], the
    latest first. *)
Record RunState : Type := mkState {
  files : gmap string (list Byte.byte);
  modsJson : option Json;
  imageCacheFile : option CacheFile.t;
  cache : Cache.t;
  usedLocalImages : gset string;
  cacheHits : nat;
  downloads : nat;
  gifConversions : nat;
  requests : list string
}.

Definition setFiles f (st : RunState) : RunState :=
  mkState f (modsJson st) (imageCacheFile st) (cache st) (usedLocalImages st)
    (cacheHits st) (downloads st) (gifConversions st) (requests st).
Definition setModsJson j (st : RunState) : RunState :=
  mkState (files st) j (imageCacheFile st) (cache st) (usedLocalImages st)
    (cacheHits st) (downloads st) (gifConversions st) (requests st).
Definition setImageCacheFile c (st : RunState) : RunState :=
  mkState (files st) (modsJson st) c (cache st) (usedLocalImages st)
    (cacheHits st) (downloads st) (gifConversions st) (requests st).
Definition setCache c (st : RunState) : RunState :=
  mkState (files st) (modsJson st) (imageCacheFile st) c (usedLocalImages st)
    (cacheHits st) (downloads st) (gifConversions st) (requests st).
Definition setUsed u (st : RunState) : RunState :=
  mkState (files st) (modsJson st) (imageCacheFile st) (cache st) u
    (cacheHits st) (downloads st) (gifConversions st) (requests st).
Definition setStats h d g (st : RunState) : RunState :=
  mkState (files st) (modsJson st) (imageCacheFile st) (cache st)
    (usedLocalImages st) h d g (requests st).
Definition logRequest url (st : RunState) : RunState :=
  mkState (files st) (modsJson st) (imageCacheFile st) (cache st)
    (usedLocalImages st) (cacheHits st) (downloads st) (gifConversions st)
    (url :: requests st).

(** ** Asynchronous code: state and rejection

    An [async] function is a state transformer that either resolves with a
    value or rejects; the state reached is kept in both cases. *)

Inductive Outcome (A : Type) : Type :=
| Resolved (a : A) (st : RunState)
| Thrown (st : RunState).
Arguments Resolved {A} a st.
Arguments Thrown {A} st.

Definition Async (A : Type) : Type := RunState -> Outcome A.

#[global] Instance Async_ret : MRet Async := fun A a st => Resolved a st.
#[global] Instance Async_bind : MBind Async := fun A B f m st =>
  match m st with
  | Resolved a st' => f a st'
  | Thrown st' => Thrown st'
  end.

Definition throw {A} : Async A := fun st => Thrown st.

(** [try { body } catch { handler }]. *)
Definition tryCatch {A} (body handler : Async A) : Async A := fun st =>
  match body st with
  | Resolved a st' => Resolved a st'
  | Thrown st' => handler st'
  end.

Definition get : Async RunState := fun st => Resolved st st.
Definition modify (f : RunState -> RunState) : Async unit :=
  fun st => Resolved tt (f st).

(** The state an outcome leaves. *)
Definition stateOf {A} (o : Outcome A) : RunState :=
  match o with
  | Resolved _ st => st
  | Thrown st => st
  end.

(** ** Platform calls *)

Definition fetch (w : World) (url : string) : Async HttpResponse :=
  _ ← modify (logRequest url);
  match net w url with
  | Some response => mret response
  | None => throw
  end.

(** [fs.access] succeeds exactly on the files that exist. *)
Definition fileExists (name : string) : Async bool :=
  st ← get; mret (bool_decide (is_Some (files st !! name))).

Definition writeFile (name : string) (data : list Byte.byte) : Async unit :=
  modify (fun st => setFiles (<[name := data]> (files st)) st).

(** [fs.mkdir(MOD_IMAGE_DIR, { recursive: true })]: the directory is there. *)
Definition ensureImageDir : Async unit := mret tt.

Definition downloadBuffer (w : World) (url : string)
  : Async (option (list Byte.byte)) :=
  response ← fetch w url;
  if negb (ok response) then mret None
  else mret (Some (arrayBuffer response)).

Definition fetchReadme (w : World) : Async string :=
  response ← fetch w README_URL;
  if negb (ok response) then throw
  else mret (text response).


(** ** Image resolver *)

(** [url.trim().split(/\s+/)[0]]. *)
Definition stripTitle (url : string) : string :=
  Js.takeUntil Js.isWhiteSpace (Js.trim url).

(** The class [[?#]]. *)
Definition isQueryOrHash (c : ascii) : bool :=
  Ascii.eqb c "?" || Ascii.eqb c "#".

Definition isValidImage (url : string) : bool :=
  let target := Js.takeUntil isQueryOrHash (Js.toLowerCase url) in
  existsb (fun ext => Js.endsWith target ext) IMAGE_EXTENSIONS.

(** [new URL(relative, base).href]; a [TypeError] is a rejection. *)
Definition newURL (w : World) (relative base : string) : Async string :=
  match URL_href w relative base with
  | Some href => mret href
  | None => throw
  end.

Definition resolveImageUrl (w : World) (url relativePath : string)
  : Async (option string) :=
  let cleaned := stripTitle url in
  if negb (isValidImage cleaned) then mret None
  else if isAbsoluteHttp cleaned then mret (Some cleaned)
  else if Js.startsWith cleaned "//" then mret (Some ("https:" +:+ cleaned))
  else
    let relative :=
      if Js.startsWith cleaned "./" then Js.sliceFrom 2 cleaned else cleaned in
    href ← newURL w relative (RAW_BASE_URL +:+ "/" +:+ relativePath +:+ "/");
    mret (Some href).

(** [s.matchAll(re)] for a pattern that never matches the empty string:
    [matchAt] gives the capture and the length of a match at the head of
    its argument; after a match the scan resumes behind it ([skip] counts
    the characters of the match still to pass). *)
Fixpoint scanAll (matchAt : string -> option (string * nat)) (skip : nat)
    (s : string) : list string :=
  match s with
  | "" => []
  | String _ s' =>
      match skip with
      | S k => scanAll matchAt k s'
      | O =>
          match matchAt s with
          | Some (capture, len) => capture :: scanAll matchAt (len - 1) s'
          | None => scanAll matchAt 0 s'
          end
      end
  end.

(** A match of [/!\[[^\]]*\]\(([^)]+)\)/] at the head of [s]. *)
Definition markdownImageAt (s : string) : option (string * nat) :=
  if Js.startsWith s "![" then
    match spanUntil "]" (Js.sliceFrom 2 s) with
    | Some (alt, String c s3) =>
        if Ascii.eqb c "(" then
          match spanUntil ")" s3 with
          | Some (target, _) =>
              if Js.truthy target
              then Some (target, 5 + String.length alt + String.length target)
              else None
          | None => None
          end
        else None
    | _ => None
    end
  else None.

(** The class of the double and the single quote, [q] below. *)
Definition isQuote (c : ascii) : bool :=
  Ascii.eqb c "034" || Ascii.eqb c "039".

(** The run of characters outside the class at the head of [s], when a
    character of the class follows it, and what comes after that one. *)
Fixpoint spanUntilClass (stop : ascii -> bool) (s : string)
  : option (string * string) :=
  match s with
  | "" => None
  | String c s' =>
      if stop c then Some ("", s')
      else match spanUntilClass stop s' with
           | Some (run, rest) => Some (String c run, rest)
           | None => None
           end
  end.

(** A match of [/src=q([^q]+)q[^>]*>/i] at the head of [s]. *)
Definition srcAttributeAt (s : string) : option (string * nat) :=
  if Js.startsWith (Js.toLowerCase s) "src=" then
    match Js.sliceFrom 4 s with
    | String q s1 =>
        if isQuote q then
          match spanUntilClass isQuote s1 with
          | Some (target, s2) =>
              match spanUntil ">" s2 with
              | Some (tail, _) =>
                  if Js.truthy target
                  then Some (target,
                             7 + String.length target + String.length tail)
                  else None
              | None => None
              end
          | None => None
          end
        else None
    | "" => None
    end
  else None.

(** [[^>]*] followed by the rest of the pattern: the longest run that lets
    the rest match is tried first. *)
Fixpoint afterImgTag (s : string) : option (string * nat) :=
  match s with
  | "" => None
  | String c s' =>
      let longer :=
        if Ascii.eqb c ">" then None
        else match afterImgTag s' with
             | Some (capture, len) => Some (capture, S len)
             | None => None
             end in
      match longer with
      | Some m => Some m
      | None => srcAttributeAt s
      end
  end.

(** A match of [/<img[^>]*src=q([^q]+)q[^>]*>/i] at the head of [s]. *)
Definition htmlImageAt (s : string) : option (string * nat) :=
  if Js.startsWith (Js.toLowerCase s) "<img" then
    match afterImgTag (Js.sliceFrom 4 s) with
    | Some (capture, len) => Some (capture, 4 + len)
    | None => None
    end
  else None.

(** One of the two [for] loops of [extractFirstImage]. *)
Fixpoint firstCandidate (w : World) (relativePath : string)
    (targets : list string) : Async (option string) :=
  match targets with
  | [] => mret None
  | target :: rest =>
      candidate ← resolveImageUrl w target relativePath;
      if Js.truthyOpt candidate then mret candidate
      else firstCandidate w relativePath rest
  end.

Definition extractFirstImage (w : World) (markdown relativePath : string)
  : Async (option string) :=
  found ← firstCandidate w relativePath (scanAll markdownImageAt 0 markdown);
  match found with
  | Some candidate => mret (Some candidate)
  | None => firstCandidate w relativePath (scanAll htmlImageAt 0 markdown)
  end.

Definition readmeUrlOf (relativePath : string) : string :=
  RAW_BASE_URL +:+ "/" +:+ relativePath +:+ "/" +:+ README_FILENAME.

Definition fetchPreviewImage (w : World) (relativePath : string)
  : Async (option string) :=
  tryCatch
    (response ← fetch w (readmeUrlOf relativePath);
     if negb (ok response) then mret None
     else extractFirstImage w (text response) relativePath)
    (mret None).

Definition localImagePrefix : string := "/mod-images/".

Definition maybeMaterializeImage (w : World) (url : string) : Async string :=
  let normalized := Js.takeUntil isQueryOrHash (Js.toLowerCase url) in
  if negb (Js.endsWith normalized ".gif") then mret url
  else
    _ ← ensureImageDir;
    let filename := MD5.hex url +:+ ".jpg" in
    present ← fileExists filename;
    if negb present then
      buffer ← downloadBuffer w url;
      match buffer with
      | None => mret url
      | Some buffer =>
          tryCatch
            (match sharpJpeg w buffer with
             | Some frame =>
                 _ ← writeFile filename frame;
                 mret (localImagePrefix +:+ filename)
             | None => throw
             end)
            (mret url)
      end
    else mret (localImagePrefix +:+ filename).

Definition isLocalImage (image : option string) : bool :=
  Js.truthyOpt image && Js.startsWith (default "" image) localImagePrefix.

(** [path.join(process.cwd(), "public", image.replace(/^\//, ""))] on a
    POSIX platform.  [path.join] normalizes what it joins: an empty
    segment and [.] are dropped, [..] removes the segment before it, and a
    slash at the end is kept.  The working directory is normalized
    already, so the path is known by the number of segments it climbs
    above the working directory and the segments below. *)
Fixpoint normalizeSegments (segments : list string) (ups : nat)
    (below : list string) : nat * list string :=
  match segments with
  | [] => (ups, rev below)
  | segment :: rest =>
      if String.eqb segment "" || String.eqb segment "."
      then normalizeSegments rest ups below
      else if String.eqb segment ".."
      then match below with
           | [] => normalizeSegments rest (S ups) []
           | _ :: below' => normalizeSegments rest ups below'
           end
      else normalizeSegments rest ups (segment :: below)
  end.

(** [s.replace(/^\//, "")]. *)
Definition dropLeadingSlash (s : string) : string :=
  if Js.startsWith s "/" then Js.sliceFrom 1 s else s.

(** A path the script tests with [fs.access]: the entry of that name of
    the image directory, or another path, written from the working
    directory. *)
Inductive LocalPath : Set :=
| ImageEntry (name : string)
| OtherPath (path : string).

Fixpoint joinSegments (segments : list string) : string :=
  match segments with
  | [] => ""
  | [segment] => segment
  | segment :: rest => segment +:+ "/" +:+ joinSegments rest
  end.

Definition getLocalImagePath (image : string) : LocalPath :=
  let joined := "public/" +:+ dropLeadingSlash image in
  let '(ups, below) := normalizeSegments (Js.splitOn isSlash joined) 0 [] in
  let slash := Js.endsWith joined "/" in
  match ups, below, slash with
  | 0, [ "public"; "mod-images"; name ], false => ImageEntry name
  | _, _, _ =>
      OtherPath (joinSegments (repeat ".." ups ++ below)
                 +:+ (if slash then "/" else ""))
  end.

(** [fs.access(path)]: does it resolve?  An entry of the image directory
    is there when the directory has it. *)
Definition access (w : World) (target : LocalPath) : Async bool :=
  match target with
  | ImageEntry name => fileExists name
  | OtherPath path => mret (accessOther w path)
  end.

(** [sharp(buffer).jpeg({ quality: 85 }).toBuffer()]. *)
Definition sharp (w : World) (buffer : list Byte.byte)
  : Async (list Byte.byte) :=
  match sharpJpeg w buffer with
  | Some frame => mret frame
  | None => throw
  end.

(** ** Callbacks that run together

    [Promise.all(batch.map(async (mod) => ...))] calls the callbacks one
    after the other; each runs until its first [await] and goes on later,
    from [await] to [await], while the others do the same.  A [Proc] is an
    [async] function seen that way: it has finished with a value, it has
    thrown, it acts on the state and goes on at once, or it waits. *)
Inductive Proc (A : Type) : Type :=
| Done (a : A)
| Failed
| Act (effect : RunState -> RunState) (next : RunState -> Proc A)
| Await (rest : Proc A).
Arguments Done {A} a.
Arguments Failed {A}.
Arguments Act {A} effect next.
Arguments Await {A} rest.

Fixpoint bindProc {A B} (k : A -> Proc B) (p : Proc A) : Proc B :=
  match p with
  | Done a => k a
  | Failed => Failed
  | Act effect next => Act effect (fun st => bindProc k (next st))
  | Await rest => Await (bindProc k rest)
  end.

#[global] Instance Proc_ret : MRet Proc := fun A a => Done a.
#[global] Instance Proc_bind : MBind Proc := fun A B k p => bindProc k p.

(** [try { body } catch { handler }]. *)
Fixpoint tryCatchProc {A} (body handler : Proc A) : Proc A :=
  match body with
  | Done a => Done a
  | Failed => handler
  | Act effect next => Act effect (fun st => tryCatchProc (next st) handler)
  | Await rest => Await (tryCatchProc rest handler)
  end.

(** A call of the platform, or code without [await]: what it does to the
    state is done when it is called. *)
Definition call {A} (m : Async A) : Proc A :=
  Act (fun st => stateOf (m st))
      (fun st => match m st with
                 | Resolved a _ => Done a
                 | Thrown _ => Failed
                 end).

(** [await p]: the function waits once more when [p] has settled, and
    then has the value of [p] or throws what [p] has thrown. *)
Fixpoint await {A} (p : Proc A) : Proc A :=
  match p with
  | Done a => Await (Done a)
  | Failed => Await Failed
  | Act effect next => Act effect (fun st => await (next st))
  | Await rest => Await (await rest)
  end.

(** The function run with nothing else going on while it waits. *)
Fixpoint alone {A} (p : Proc A) (st : RunState) : Outcome A :=
  match p with
  | Done a => Resolved a st
  | Failed => Thrown st
  | Act effect next => alone (next st) (effect st)
  | Await rest => alone rest st
  end.

(** A callback of a batch: it has settled, with a value or by throwing,
    or it waits and has the rest to do. *)
Inductive Task (A : Type) : Type :=
| Settled (result : option A)
| Waiting (rest : Proc A).
Arguments Settled {A} result.
Arguments Waiting {A} rest.

(** The function goes on until it waits or settles. *)
Fixpoint advance {A} (p : Proc A) (st : RunState) : RunState * Task A :=
  match p with
  | Done a => (st, Settled (Some a))
  | Failed => (st, Settled None)
  | Act effect next => advance (next st) (effect st)
  | Await rest => (st, Waiting rest)
  end.

(** [batch.map(callback)]: every callback is called, in the order of the
    batch, and runs until it waits or settles. *)
Fixpoint startAll {A} (procs : list (Proc A)) (st : RunState)
  : list (Task A) * RunState :=
  match procs with
  | [] => ([], st)
  | p :: procs' =>
      let '(st1, task) := advance p st in
      let '(tasks, st2) := startAll procs' st1 in
      (task :: tasks, st2)
  end.

Definition isWaiting {A} (task : Task A) : bool :=
  match task with
  | Waiting _ => true
  | Settled _ => false
  end.

(** The places of the callbacks that wait, from the place [i] on. *)
Fixpoint waitingFrom {A} (i : nat) (tasks : list (Task A)) : list nat :=
  match tasks with
  | [] => []
  | task :: tasks' =>
      (if isWaiting task then [i] else []) ++ waitingFrom (S i) tasks'
  end.

(** The event loop: as long as a callback waits, one of those that wait
    goes on, the one [choose] names; [n] counts the times one has gone
    on, [fuel] bounds them. *)
Fixpoint drain {A} (choose : nat -> nat) (fuel n : nat)
    (tasks : list (Task A)) (st : RunState) : list (Task A) * RunState :=
  match fuel with
  | 0 => (tasks, st)
  | S fuel' =>
      let waiting := waitingFrom 0 tasks in
      match waiting !! (choose n `mod` List.length waiting) with
      | Some i =>
          match tasks !! i with
          | Some (Waiting rest) =>
              let '(st', task) := advance rest st in
              drain choose fuel' (S n) (<[i := task]> tasks) st'
          | _ => (tasks, st)
          end
      | None => (tasks, st)
      end
  end.

(** The values of the callbacks when all have finished with one. *)
Fixpoint fulfilled {A} (tasks : list (Task A)) : option (list A) :=
  match tasks with
  | [] => Some []
  | Settled (Some a) :: tasks' => cons a <$> fulfilled tasks'
  | _ :: _ => None
  end.

(** The [async] functions of the script as the callbacks run them. *)
Module Callback.

Definition ensureImageDir : Proc unit := await (call ensureImageDir).

Definition fileExists (w : World) (filePath : LocalPath) : Proc bool :=
  await (call (access w filePath)).

Definition downloadBuffer (w : World) (url : string)
  : Proc (option (list Byte.byte)) :=
  response ← await (call (fetch w url));
  if negb (ok response) then mret None
  else
    buffer ← await (mret (arrayBuffer response));
    mret (Some buffer).

Definition fetchPreviewImage (w : World) (relativePath : string)
  : Proc (option string) :=
  tryCatchProc
    (response ← await (call (fetch w (readmeUrlOf relativePath)));
     if negb (ok response) then mret None
     else
       markdown ← await (mret (text response));
       call (extractFirstImage w markdown relativePath))
    (mret None).

Definition maybeMaterializeImage (w : World) (url : string) : Proc string :=
  let normalized := Js.takeUntil isQueryOrHash (Js.toLowerCase url) in
  if negb (Js.endsWith normalized ".gif") then mret url
  else
    _ ← await ensureImageDir;
    let filename := MD5.hex url +:+ ".jpg" in
    present ← await (fileExists w (ImageEntry filename));
    if negb present then
      buffer ← await (downloadBuffer w url);
      match buffer with
      | None => mret url
      | Some buffer =>
          tryCatchProc
            (frame ← await (call (sharp w buffer));
             _ ← await (call (writeFile filename frame));
             mret (localImagePrefix +:+ filename))
            (mret url)
      end
    else mret (localImagePrefix +:+ filename).

End Callback.

(** ** Image cache *)

(** [cache[key]]. *)
Definition readCache (key : string) : Proc Cache.Found :=
  Act (fun st => st)
      (fun st => match Cache.get (cache st) key with
                 | Some found => Done found
                 | None => Failed
                 end).

(** [cache[key] = entry]. *)
Definition writeCache (key : string) (entry : CacheEntry.t) : Proc unit :=
  Act (fun st => match Cache.set (cache st) key entry with
                 | Some c => setCache c st
                 | None => st
                 end)
      (fun st => match Cache.set (cache st) key entry with
                 | Some _ => Done tt
                 | None => Failed
                 end).

Definition update (f : RunState -> RunState) : Proc unit :=
  Act f (fun _ => Done tt).

(** The part of the callback of [addPreviewImages] that follows a cache
    miss: fetch the README, materialize the image, record the outcome. *)
Definition resolveFresh (w : World) (sourcePath : string) (mod_ : Draft.t)
  : Proc Draft.t :=
  image ← await (Callback.fetchPreviewImage w sourcePath);
  if negb (Js.truthyOpt image) then
    _ ← writeCache sourcePath (CacheEntry.mk None (Draft.lastChanged mod_));
    mret mod_
  else
    let image := default "" image in
    _ ← update (fun st =>
           setStats (cacheHits st) (S (downloads st)) (gifConversions st) st);
    finalImage ← await (Callback.maybeMaterializeImage w image);
    _ ← writeCache sourcePath
          (CacheEntry.mk (Some finalImage) (Draft.lastChanged mod_));
    if Js.truthy finalImage then
      if isLocalImage (Some finalImage) then
        _ ← update (fun st =>
               setStats (cacheHits st) (downloads st) (S (gifConversions st))
                 (setUsed ({[finalImage]} ∪ usedLocalImages st) st));
        mret (Draft.setImage finalImage mod_)
      else mret (Draft.setImage finalImage mod_)
    else mret mod_.

(** [mod.image = cacheEntry.image], [usedLocalImages.add] for a local
    image, [cacheHits += 1]. *)
Definition reuse (image : string) (mod_ : Draft.t) : Proc Draft.t :=
  _ ← update (fun st =>
         setStats (S (cacheHits st)) (downloads st) (gifConversions st)
           (if isLocalImage (Some image)
            then setUsed ({[image]} ∪ usedLocalImages st) st
            else st));
  mret (Draft.setImage image mod_).

(** The callback [async (mod) => { ... }] of [addPreviewImages].  A
    [cacheEntry.image] that is truthy and not a string has no method
    [startsWith]: [isLocalImage] throws. *)
Definition resolveMod (w : World) (mod_ : Draft.t) : Proc Draft.t :=
  match Draft.sourcePath mod_ with
  | None => mret mod_
  | Some sourcePath =>
      if negb (Js.truthy sourcePath) then mret mod_
      else
        cacheEntry ← readCache sourcePath;
        if Cache.truthy cacheEntry
           && Cache.sameToken (Cache.property "lastChanged" cacheEntry)
                (Draft.lastChanged mod_)
        then
          if Cache.truthy (Cache.property "image" cacheEntry) then
            match Cache.property "image" cacheEntry with
            | Cache.Value (PStr image) =>
                if negb (isLocalImage (Some image)) then reuse image mod_
                else
                  present ← await (Callback.fileExists w
                                     (getLocalImagePath image));
                  if (present : bool) then reuse image mod_
                  else resolveFresh w sourcePath mod_
            | _ => Failed
            end
          else mret mod_
        else resolveFresh w sourcePath mod_
  end.

(** The most a callback waits: twice for the file of a cached image,
    three times for the README, ten times for the image. *)
Definition CALLBACK_AWAITS : nat := 15.

(** [await Promise.all(batch.map(async (mod) => ...))] for the batch that
    begins at the [i]-th mod.  All the callbacks run to their end, also
    when one of them has thrown; the promise is then fulfilled if none
    has thrown and rejected otherwise. *)
Definition runBatch (w : World) (i : nat) (batch : list Draft.t)
  : Async (list Draft.t) := fun st =>
  let '(tasks, st1) := startAll (List.map (resolveMod w) batch) st in
  let '(tasks', st2) :=
    drain (schedule w i) (CALLBACK_AWAITS * List.length batch) 0 tasks st1 in
  match fulfilled tasks' with
  | Some drafts => Resolved drafts st2
  | None => Thrown st2
  end.

(** The loop [for (let i = 0; i < mods.length; i += IMAGE_FETCH_CONCURRENCY)]
    over [mods.slice(i, i + IMAGE_FETCH_CONCURRENCY)]; [fuel] bounds the
    number of batches. *)
Fixpoint batchLoop (w : World) (fuel : nat) (i : nat) (mods : list Draft.t)
  : Async (list Draft.t) :=
  match fuel with
  | S fuel' =>
      if i <? List.length mods then
        finished ← runBatch w i (firstn IMAGE_FETCH_CONCURRENCY (skipn i mods));
        rest ← batchLoop w fuel' (i + IMAGE_FETCH_CONCURRENCY) mods;
        mret (finished ++ rest)
      else mret []
  | 0 => mret []
  end.

(** The mods come back with their [image] set; the set of used local
    images and the statistics are in the state. *)
Definition addPreviewImages (w : World) (mods : list Draft.t)
  : Async (list Draft.t) :=
  _ ← ensureImageDir;
  _ ← modify (fun st => setStats 0 0 0 (setUsed ∅ st));
  batchLoop w (List.length mods) 0 mods.

(** [fs.readdir] lists the entries of the image directory and [fs.unlink]
    is called for every entry whose path is not among the used ones; the
    entry is removed when that call resolves.  A rejection of [readdir] or
    of an [unlink] is caught and reported. *)
Definition cleanupUnusedLocalImages (w : World) (usedImages : gset string)
  : Async unit :=
  if readdirOk w then
    modify (fun st =>
      setFiles
        (filter (fun entry => localImagePrefix +:+ fst entry ∈ usedImages
                              \/ unlinkOk w (fst entry) = false)
           (files st)) st)
  else mret tt.

(** ** Snapshot writer *)

(** The value of a property of an object of the script. *)
Inductive JsValue : Set :=
| VUndefined
| VStr (s : string)
| VCompat (c : Compatibility).

Definition ofOption (o : option string) : JsValue :=
  match o with Some s => VStr s | None => VUndefined end.

(** The properties of a draft in the order they were created: those of the
    literal given to [mods.push], then [image] when it was assigned. *)
Definition draftObject (d : Draft.t) : list (string * JsValue) :=
  [ ("creator", VStr (Draft.creator d));
    ("title", VStr (Draft.title d));
    ("description", VStr (Draft.description d));
    ("link", VStr (Draft.link d));
    ("compatibility", VCompat (Draft.compatibility d));
    ("lastChanged", ofOption (Draft.lastChanged d));
    ("sourcePath", ofOption (Draft.sourcePath d));
    ("authorSlug", ofOption (Draft.authorSlug d)) ]
  ++ match Draft.image d with
     | Some image => [("image", VStr image)]
     | None => []
     end.

(** The callback of [drafts.map] in [main]:
    [const { sourcePath, ...rest } = draft] and
    [{ ...rest, repoPath, readmeUrl }]. *)
Definition toMod (draft : Draft.t) : list (string * JsValue) :=
  let sourcePath := Draft.sourcePath draft in
  let rest :=
    List.filter (fun p => negb (String.eqb (fst p) "sourcePath"))
      (draftObject draft) in
  let repoPath :=
    if Js.truthyOpt sourcePath
    then VStr ("printer_mods/" +:+ default "" sourcePath) else VUndefined in
  let readmeUrl :=
    if Js.truthyOpt sourcePath
    then VStr (MOD_BLOB_BASE_URL +:+ "/" +:+ default "" sourcePath +:+ "/"
               +:+ README_FILENAME)
    else VUndefined in
  rest ++ [("repoPath", repoPath); ("readmeUrl", readmeUrl)].

Definition jsonOfCompatibility (c : Compatibility) : Json :=
  JObj [ ("v0", JFlag (v0 c)); ("v0_1", JFlag (v0_1 c));
         ("v1_8", JFlag (v1_8 c)); ("v2_4", JFlag (v2_4 c));
         ("trident", JFlag (trident c)) ].

(** [JSON.stringify] of an object: a property whose value is [undefined]
    is left out. *)
Fixpoint stringifyObject (o : list (string * JsValue)) : list (string * Json) :=
  match o with
  | [] => []
  | (k, VUndefined) :: o' => stringifyObject o'
  | (k, VStr s) :: o' => (k, JStr s) :: stringifyObject o'
  | (k, VCompat c) :: o' => (k, jsonOfCompatibility c) :: stringifyObject o'
  end.

(** [JSON.stringify(payload)] for [payload = { mods, lastUpdated }]. *)
Definition stringifyPayload (mods : list (list (string * JsValue)))
    (lastUpdated : string) : Json :=
  JObj [ ("mods", JArr (List.map (fun m => JObj (stringifyObject m)) mods));
         ("lastUpdated", JStr lastUpdated) ].

(** [drafts.sort((a, b) => a.title.localeCompare(b.title))]: the sort is
    stable; [insertByTitle] puts a draft in front of the first draft that
    does not come before it. *)
Fixpoint insertByTitle (w : World) (d : Draft.t) (sorted : list Draft.t)
  : list Draft.t :=
  match sorted with
  | [] => [d]
  | e :: sorted' =>
      if (localeCompare w (Draft.title d) (Draft.title e) <=? 0)%Z
      then d :: sorted
      else e :: insertByTitle w d sorted'
  end.

Definition sortByTitle (w : World) (drafts : list Draft.t) : list Draft.t :=
  List.fold_right (insertByTitle w) [] drafts.

(** [JSON.parse] of the cache file, or [{}]. *)
Definition loadImageCache : Async unit :=
  modify (fun st =>
    setCache
      match imageCacheFile st with
      | None => Cache.Object ∅ None
      | Some CacheFile.Null => Cache.Null
      | Some (CacheFile.Object own) => Cache.Object own None
      end st).

(** [JSON.stringify(cache)]: the own properties of the object. *)
Definition stringifyCache (c : Cache.t) : CacheFile.t :=
  match c with
  | Cache.Null => CacheFile.Null
  | Cache.Object own _ => CacheFile.Object own
  end.

(** [fs.writeFile] of one of the two documents. *)
Definition writeDocument {D} (fate : WriteFate)
    (store : option D -> RunState -> RunState) (document : D) : Async unit :=
  match fate with
  | Written => modify (store (Some document))
  | Untouched => throw
  | Truncated => _ ← modify (store None); throw
  end.

Definition saveImageCache (w : World) : Async unit :=
  st ← get;
  writeDocument (cacheWrite w) setImageCacheFile (stringifyCache (cache st)).

Definition main (w : World) : Async unit :=
  markdown ← fetchReadme w;
  let drafts := sortByTitle w (parseMods markdown) in
  _ ← loadImageCache;
  drafts ← addPreviewImages w drafts;
  st ← get;
  let usedLocalImages := usedLocalImages st in
  let mods := List.map toMod drafts in
  let payload := stringifyPayload mods (now w (requests st)) in
  _ ← writeDocument (snapshotWrite w) setModsJson payload;
  _ ← saveImageCache w;
  cleanupUnusedLocalImages w usedLocalImages.

(** What is on disk before a run, nothing being in memory yet. *)
Definition onDisk (images : gmap string (list Byte.byte)) (snapshot : option Json)
    (cacheFile : option CacheFile.t) : RunState :=
  mkState images snapshot cacheFile (Cache.Object ∅ None) ∅ 0 0 0 [].

(** [main().catch(...)]: the exit code of the process and the final state. *)
Definition run (w : World) (st : RunState) : Z * RunState :=
  match main w st with
  | Resolved _ st' => (0%Z, st')
  | Thrown st' => (1%Z, st')
  end.
(** ** What the specification says, in its own terms *)

(** Every character of [s] satisfies [P]. *)
Fixpoint allChars (P : ascii -> bool) (s : string) : bool :=
  match s with
  | "" => true
  | String c s' => P c && allChars P s'
  end.

(** [pieces] put back together, [seps] being the characters between them. *)
Fixpoint join (pieces : list string) (seps : list ascii) : string :=
  match pieces, seps with
  | p :: ps, c :: cs => p +:+ String c (join ps cs)
  | p :: _, [] => p
  | [], _ => ""
  end.

(** Is one of [synonyms] among the tokens of [cell]? *)
Definition hasSynonym (cell : string) (synonyms : list string) : bool :=
  existsb (fun token => includes synonyms token) (compatTokens cell).

(** [cell] holds a markdown link, text between brackets and target between
    parentheses, behind [before]: the text is not empty and has no closing
    bracket, the target is not empty and has no closing parenthesis. *)
Definition LinkAt (cell before text target after : string) : Prop :=
  cell = before +:+ "[" +:+ text +:+ "](" +:+ target +:+ ")" +:+ after
  /\ text <> ""
  /\ allChars (fun c => negb (Ascii.eqb c "]")) text = true
  /\ target <> ""
  /\ allChars (fun c => negb (Ascii.eqb c ")")) target = true.

(** The link of [cell] that starts first. *)
Definition FirstLink (cell before text target after : string) : Prop :=
  LinkAt cell before text target after
  /\ forall b t r a,
       LinkAt cell b t r a -> String.length before <= String.length b.

(** The kinds of line the row parser tells apart. *)
Definition isHeaderLine (line : string) : bool :=
  Js.startsWith (Js.trim line) "| Creator".
Definition isSeparatorLine (line : string) : bool :=
  Js.startsWith (Js.trim line) "| ---".
Definition isPipeLine (line : string) : bool :=
  Js.startsWith (Js.trim line) "|".
(** Empty, or white space only. *)
Definition isBlankLine (line : string) : bool :=
  allChars Js.isWhiteSpace line.

(** The cells of a table line before they are trimmed. *)
Definition rawCells (line : string) : list string :=
  sliceInner (Js.splitOn isPipe line).

(** The trimmed text of the creator cell of a table line. *)
Definition creatorCell (line : string) : string := nth 0 (rowCells line) "".

(** The parsed table rows: the lines of the table that give a record, in
    order.  [inTable] says whether the header line was seen. *)
Fixpoint dataLines (inTable : bool) (lines : list string) : list string :=
  match lines with
  | [] => []
  | line :: rest =>
      if inTable then
        if isSeparatorLine line then dataLines true rest
        else if negb (isPipeLine line) then []
        else if List.length (rawCells line) <? 5 then dataLines true rest
        else line :: dataLines true rest
      else dataLines (isHeaderLine line) rest
  end.

(** The record of one parsed row, [lastCreator] being the creator carried
    so far. *)
Definition recordOf (lastCreator : string) (line : string) : Draft.t :=
  let cell i := nth i (rowCells line) "" in
  let '(title, link, sourcePath) := extractLink (cell 1) in
  Draft.mk (if Js.truthy (cell 0) then cell 0 else lastCreator)
    title (sanitizeDescription (cell 2)) link (buildCompatibility (cell 3))
    (Js.orUndefined (cell 4)) sourcePath
    (sp ← sourcePath; head (Js.splitOn isSlash sp)) None.

Fixpoint recordsFrom (lastCreator : string) (rows : list string)
  : list Draft.t :=
  match rows with
  | [] => []
  | row :: rows' =>
      let d := recordOf lastCreator row in
      d :: recordsFrom (Draft.creator d) rows'
  end.

(** C3 as the specification words it: the table runs from the header line
    to the first line, or the end of the input, that is neither empty nor
    pipe-prefixed, so that an empty or white-space line in between is
    passed over and the rows after it are parsed. *)
Definition TableEndsAtNonEmptyNonPipeLine : Prop :=
  forall before header body rest,
    Forall (fun l => isHeaderLine l = false) before ->
    isHeaderLine header = true ->
    Forall (fun l => isPipeLine l = true \/ isBlankLine l = true) body ->
    (rest = [] \/ exists l rest',
        rest = l :: rest' /\ isPipeLine l = false /\ isBlankLine l = false) ->
    parseLoop false "" (before ++ header :: body ++ rest)
    = parseLoop true "" (List.filter (fun l => negb (isBlankLine l)) body).

(** ** Shapes of image references *)

Definition isAsciiLetter (c : ascii) : bool :=
  let n := N_of_ascii (Js.lowerChar c) in ((97 <=? n) && (n <=? 122))%N.

Definition isSchemeChar (c : ascii) : bool :=
  let n := N_of_ascii c in
  isAsciiLetter c
  || ((48 <=? n) && (n <=? 57) || (n =? 43) || (n =? 45) || (n =? 46))%N.

(** Does [s] begin with a URL scheme, a letter followed by letters, digits,
    [+], [-] and [.] up to a colon?  [first] says that no character of the
    scheme was read yet. *)
Fixpoint schemeAhead (first : bool) (s : string) : bool :=
  match s with
  | "" => false
  | String c s' =>
      if Ascii.eqb c ":" then negb first
      else (if first then isAsciiLetter c else isSchemeChar c)
           && schemeAhead false s'
  end.

(** An absolute URL: it names its scheme. *)
Definition startsWithScheme (s : string) : bool := schemeAhead true s.

Definition isLowerHex (c : ascii) : bool :=
  let n := N_of_ascii c in
  ((48 <=? n) && (n <=? 57) || (97 <=? n) && (n <=? 102))%N.

(** [/mod-images/<32 lower-case hexadecimal digits>.jpg]. *)
Definition IsHashedLocalPath (image : string) : Prop :=
  exists h,
    image = localImagePrefix +:+ h +:+ ".jpg"
    /\ String.length h = 32
    /\ allChars isLowerHex h = true.

(** Is the extension of [url] gif, query and fragment apart and whatever
    the case of the letters? *)
Definition isGif (url : string) : bool :=
  Js.endsWith (Js.takeUntil isQueryOrHash (Js.toLowerCase url)) ".gif".

(** ** A callback among the others *)

(** [Reaches meanwhile p st o]: the function [p], called in the state
    [st], ends with the outcome [o] when, each time it waits, what else
    goes on changes the state by [meanwhile]. *)
Inductive Reaches {A} (meanwhile : RunState -> RunState -> Prop)
  : Proc A -> RunState -> Outcome A -> Prop :=
| Reaches_done a st : Reaches meanwhile (Done a) st (Resolved a st)
| Reaches_failed st : Reaches meanwhile Failed st (Thrown st)
| Reaches_act effect next st o :
    Reaches meanwhile (next st) (effect st) o ->
    Reaches meanwhile (Act effect next) st o
| Reaches_wait rest st st' o :
    meanwhile st st' ->
    Reaches meanwhile rest st' o ->
    Reaches meanwhile (Await rest) st o.

(** While the callback waits, no request is made and the cache is not
    written. *)
Definition Calm (st st' : RunState) : Prop :=
  requests st' = requests st /\ cache st' = cache st.

(** While the callback waits, no request is made, the cache is not
    written and the image directory does not change: what [fs.access]
    finds does not depend on the moment it looks. *)
Definition Undisturbed (st st' : RunState) : Prop :=
  Calm st st' /\ files st' = files st.

(** While the callback waits, anything may happen. *)
Definition Anything (st st' : RunState) : Prop := True.

(** Every act of the function changes the state by [step], and a value
    it ends with satisfies [post]. *)
Inductive Always {A} (step : RunState -> RunState -> Prop) (post : A -> Prop)
  : Proc A -> Prop :=
| Always_done a : post a -> Always step post (Done a)
| Always_failed : Always step post Failed
| Always_act effect next :
    (forall st, step st (effect st)) ->
    (forall st, Always step post (next st)) ->
    Always step post (Act effect next)
| Always_wait rest : Always step post rest -> Always step post (Await rest).

(** The function waits [n] times at most. *)
Inductive Within {A} : nat -> Proc A -> Prop :=
| Within_done n a : Within n (Done a)
| Within_failed n : Within n Failed
| Within_act n effect next :
    (forall st, Within n (next st)) -> Within n (Act effect next)
| Within_wait n rest : Within n rest -> Within (S n) (Await rest).

(** The outcome with another state. *)
Definition withState {A} (o : Outcome A) (st : RunState) : Outcome A :=
  match o with
  | Resolved a _ => Resolved a st
  | Thrown _ => Thrown st
  end.

(** ** The reuse rule *)

(** What the callback read under the source path can be reused for the
    draft: it is truthy, its [lastChanged] is the change token of the
    draft, and its [image] is falsy, or a string that is no local path,
    or a local path that [fs.access] finds. *)
Definition Reusable (w : World) (found : Cache.Found) (mod_ : Draft.t)
    (st : RunState) : Prop :=
  Cache.truthy found = true
  /\ Cache.sameToken (Cache.property "lastChanged" found)
       (Draft.lastChanged mod_) = true
  /\ (Cache.truthy (Cache.property "image" found) = false
      \/ exists image,
           Cache.property "image" found = Cache.Value (PStr image)
           /\ (isLocalImage (Some image) = true ->
               access w (getLocalImagePath image) st = Resolved true st)).

(** What the callback read has the change token of the draft and an
    [image] that is truthy and not a string. *)
Definition Damaged (found : Cache.Found) (mod_ : Draft.t) : Prop :=
  Cache.truthy found = true
  /\ Cache.sameToken (Cache.property "lastChanged" found)
       (Draft.lastChanged mod_) = true
  /\ Cache.truthy (Cache.property "image" found) = true
  /\ forall image, Cache.property "image" found <> Cache.Value (PStr image).

(** The draft with an image, when there is one and it is not empty. *)
Definition withImage (image : option string) (mod_ : Draft.t) : Draft.t :=
  match image with
  | Some image => if Js.truthy image then Draft.setImage image mod_ else mod_
  | None => mod_
  end.

(** The image of what the callback read, when it is a string. *)
Definition imageOf (found : Cache.Found) : option string :=
  match Cache.property "image" found with
  | Cache.Value (PStr image) => Some image
  | _ => None
  end.

(** C1 as the claim words it, for an entry of the shape the script
    stores: a draft with a source path whose entry records another change
    token is resolved again; the README is requested and the entry is
    overwritten with the change token of the draft. *)
Definition StaleEntriesAreResolvedAgain : Prop :=
  forall w mod_ sourcePath e st mod' st',
    Draft.sourcePath mod_ = Some sourcePath ->
    Cache.get (cache st) sourcePath = Some (Cache.Value (Cache.entry e)) ->
    CacheEntry.lastChanged e <> Draft.lastChanged mod_ ->
    alone (resolveMod w mod_) st = Resolved mod' st' ->
    readmeUrlOf sourcePath ∈ requests st'
    /\ exists outcome,
         Cache.get (cache st') sourcePath
         = Some (Cache.Value
                   (Cache.entry
                      (CacheEntry.mk outcome (Draft.lastChanged mod_)))).

(** ** The images of a run *)

(** A reference the resolver produces for a mod: what [resolveImageUrl]
    resolves with for some target found in the README. *)
Definition ResolvedReference (w : World) (relativePath image : string) : Prop :=
  exists url, forall st,
    resolveImageUrl w url relativePath st = Resolved (Some image) st.

(** What a cache miss records for a mod: nothing, a reference of its
    README, or the hashed local path of a reference that is a GIF. *)
Definition FreshOutcome (w : World) (relativePath : string)
    (outcome : option string) : Prop :=
  match outcome with
  | None => True
  | Some image =>
      ResolvedReference w relativePath image
      \/ exists url,
           ResolvedReference w relativePath url
           /\ isGif url = true
           /\ image = localImagePrefix +:+ MD5.hex url +:+ ".jpg"
  end.

(** C10 as the claim words it: an image that a cache miss gives to a draft
    is an absolute http(s) URL or a hashed local path. *)
Definition FreshImagesAreHttpOrLocal : Prop :=
  forall w sourcePath mod_ st mod' st' image,
    alone (resolveFresh w sourcePath mod_) st = Resolved mod' st' ->
    Draft.image mod_ = None ->
    Draft.image mod' = Some image ->
    isAbsoluteHttp image = true \/ IsHashedLocalPath image.

(** The callback adds a path to the set of used local images only as its
    last act, and then ends with a draft that has the path as image. *)
Inductive Linked : Proc Draft.t -> Prop :=
| Linked_done d : Linked (Done d)
| Linked_failed : Linked Failed
| Linked_act effect next :
    (forall st, usedLocalImages (effect st) = usedLocalImages st) ->
    (forall st, Linked (next st)) ->
    Linked (Act effect next)
| Linked_add effect next image :
    (forall st,
        usedLocalImages (effect st) = {[image]} ∪ usedLocalImages st) ->
    (forall st, exists d, next st = Done d /\ Draft.image d = Some image) ->
    Linked (Act effect next)
| Linked_wait rest : Linked rest -> Linked (Await rest).

(** ** The persisted snapshot *)

(** A property of a JSON object that is there when its value is. *)
Definition optionalField (key : string) (value : option string)
  : list (string * Json) :=
  match value with
  | Some s => [(key, JStr s)]
  | None => []
  end.

(** The draft with the image a run gave it, if it gave it one. *)
Definition SameButImage (before after : Draft.t) : Prop :=
  after = before \/ exists image, after = Draft.setImage image before.

(** The fields of a persisted mod as the specification lists them. *)
Definition specifiedModFields : list string :=
  [ "creator"; "title"; "description"; "link"; "compatibility";
    "lastChanged"; "image"; "repoPath"; "readmeUrl" ].

(** C9 as the claim words it: no field outside that list is written. *)
Definition PersistedFieldsAsSpecified : Prop :=
  forall markdown d key,
    d ∈ parseMods markdown ->
    key ∈ List.map fst (stringifyObject (toMod d)) ->
    key ∈ specifiedModFields.

(** ** The callbacks of a batch *)

(** The two documents on disk are as they were. *)
Definition Kept (st st' : RunState) : Prop :=
  modsJson st' = modsJson st /\ imageCacheFile st' = imageCacheFile st.

(** So are the documents and the set of used local images. *)
Definition Bystander (st st' : RunState) : Prop :=
  usedLocalImages st' = usedLocalImages st /\ Kept st st'.

(** The callback of the draft [m]. *)
Definition GoodProc (m : Draft.t) (p : Proc Draft.t) : Prop :=
  Linked p /\ Always Kept (SameButImage m) p.

Definition GoodTask (m : Draft.t) (task : Task Draft.t) : Prop :=
  match task with
  | Waiting rest => GoodProc m rest
  | Settled (Some d) => SameButImage m d
  | Settled None => True
  end.

(** The path is the image of a draft that a callback has ended with. *)
Definition ImageOfSettled (tasks : list (Task Draft.t)) (image : string)
  : Prop :=
  exists d, Settled (Some d) ∈ tasks /\ Draft.image d = Some image.

(** The callbacks of [batch], some of them called already, in a run of
    the batch that began in the state [st0]. *)
Definition PoolInv (batch : list Draft.t) (st0 : RunState)
    (tasks : list (Task Draft.t)) (st : RunState) : Prop :=
  Kept st0 st
  /\ Forall2 GoodTask (take (List.length tasks) batch) tasks
  /\ forall image,
       image ∈ usedLocalImages st ->
       image ∈ usedLocalImages st0 \/ ImageOfSettled tasks image.

(** The callback [p], as far as it has come, has run as [Reaches] says,
    the other callbacks doing what they do while it waited. *)
Definition Traced (p : Proc Draft.t) (task : Task Draft.t) : Prop :=
  match task with
  | Waiting rest =>
      forall st o,
        Reaches Anything rest st o -> exists st0, Reaches Anything p st0 o
  | Settled (Some d) =>
      exists st0 st', Reaches Anything p st0 (Resolved d st')
  | Settled None => exists st0 st', Reaches Anything p st0 (Thrown st')
  end.

(** The callbacks that wait go on [cost] times at most, all together. *)
Inductive Costs {A} : list (Task A) -> nat -> Prop :=
| Costs_nil : Costs [] 0
| Costs_settled result tasks cost :
    Costs tasks cost -> Costs (Settled result :: tasks) cost
| Costs_waiting rest tasks n cost :
    Within n rest -> Costs tasks cost ->
    Costs (Waiting rest :: tasks) (S n + cost).

(** The mod of the snapshot has the local image of that file name. *)
Definition ShowsFile (file : string) (mod_ : Json) : Prop :=
  exists fields,
    mod_ = JObj fields
    /\ ("image", JStr (localImagePrefix +:+ file)) ∈ fields.

(** The mods of the snapshot. *)
Definition modsOf (snapshot : option Json) : list Json :=
  match snapshot with
  | Some (JObj (("mods", JArr mods) :: _)) => mods
  | _ => []
  end.

(** C8 as the claim words it: after a run that completes, every file of
    the image directory is the image of a mod of the snapshot. *)
Definition RemainingFilesAreReferenced : Prop :=
  forall w st st' file,
    main w st = Resolved tt st' ->
    is_Some (files st' !! file) ->
    exists mod_, mod_ ∈ modsOf (modsJson st') /\ ShowsFile file mod_.
(** ** Sample inputs *)

Module Sample.

Definition LF : string := String "010" "".

Definition headerLine : string :=
  "| Creator | Mod title | Description | Printer compatibility | Last Changed |".
Definition separatorLine : string := "| --- | --- | --- | --- | --- |".
Definition coolRow : string :=
  "| Alice | [Cool Mod](./alice/cool-mod) | A nice mod. | V2.4, Trident | 2024-01-01 |".
Definition anotherRow : string :=
  "|  | [Another](./alice/another) | Second mod | V0.1 | 2024-02-02 |".
Definition bracketRow : string :=
  "| Bob | [Bracket](https://example.com/bracket) | Elsewhere | V1.8 |  |".

(** A title, the head of the upstream table and three rows, the second
    with an empty creator cell and the third with an external link and no
    change token. *)
Definition table : string :=
  "# Printer mods" +:+ LF +:+ headerLine +:+ LF +:+ separatorLine +:+ LF
  +:+ coolRow +:+ LF +:+ anotherRow +:+ LF +:+ bracketRow +:+ LF.

(** The table with an empty line between its first two rows. *)
Definition gappedTable : string :=
  headerLine +:+ LF +:+ coolRow +:+ LF +:+ LF +:+ anotherRow.

(** The URL parser on the references it is given in the samples, which
    are [demo.gif], [shot.png] and [ftp://example.com/plate.png]: a
    reference that carries its own scheme, a lower-case host and a plain
    path is its own [href]; a plain file name is appended to a base that
    ends in [/].  On other references the parser of the platform does
    more: it removes dot segments and encodes characters. *)
Definition href (relative base : string) : option string :=
  if startsWithScheme relative then Some relative
  else Some (base +:+ relative).

Definition coolReadme : string :=
  "# Cool Mod" +:+ LF +:+ "![demo](./demo.gif)" +:+ LF.
Definition anotherReadme : string :=
  "# Another" +:+ LF +:+ "<img src='shot.png' width='300'>" +:+ LF.

(** A README whose only image is on an FTP server. *)
Definition plateReadme : string :=
  "# Plate" +:+ LF +:+ "![plate](ftp://example.com/plate.png)" +:+ LF.

Definition gifUrl : string := RAW_BASE_URL +:+ "/alice/cool-mod/demo.gif".
Definition pngUrl : string := RAW_BASE_URL +:+ "/alice/another/shot.png".

Definition gifBytes : list Byte.byte := [Byte.x47; Byte.x49; Byte.x46].
Definition jpegBytes : list Byte.byte := [Byte.xff; Byte.xd8; Byte.xff].

Definition page (body : string) : option HttpResponse :=
  Some (mkResponse true body []).
Definition notFound : option HttpResponse :=
  Some (mkResponse false "404: Not Found" []).

(** [gif] is what [fetch] does for the GIF of Cool Mod. *)
Definition network (gif : option HttpResponse) (url : string)
  : option HttpResponse :=
  if String.eqb url README_URL then page table
  else if String.eqb url (readmeUrlOf "alice/cool-mod") then page coolReadme
  else if String.eqb url (readmeUrlOf "alice/another") then page anotherReadme
  else if String.eqb url (readmeUrlOf "carol/plate") then page plateReadme
  else if String.eqb url gifUrl then gif
  else notFound.

Definition byteOrder (a b : string) : Z :=
  match String.compare a b with Lt => -1 | Eq => 0 | Gt => 1 end%Z.

(** A world with that network and that transcoder: of the callbacks
    that wait the first goes on, nothing is outside the image directory,
    and the file system does what it is asked. *)
Definition worldOf (network : string -> option HttpResponse)
    (transcoder : list Byte.byte -> option (list Byte.byte)) : World :=
  mkWorld network transcoder href byteOrder
    (fun _ => "2024-03-01T00:00:00.000Z") (fun _ _ => 0) (fun _ => false)
    Written Written true (fun _ => true).

Definition world (gif : option HttpResponse) : World :=
  worldOf (network gif) (fun _ => Some jpegBytes).

(** Nothing answers: every [fetch] rejects. *)
Definition offline : World := worldOf (fun _ => None) (fun _ => None).

(** Everything answers. *)
Definition online : World :=
  world (Some (mkResponse true "" gifBytes)).

(** The connection to the host of the GIF fails: [fetch] rejects. *)
Definition gifUnreachable : World := world None.

(** An empty image directory, no snapshot, no cache file. *)
Definition freshDisk : RunState := onDisk ∅ None None.

(** The drafts of the rows of [table]. *)
Definition coolDraft : Draft.t := recordOf "" coolRow.
Definition anotherDraft : Draft.t := recordOf "Alice" anotherRow.
Definition plateDraft : Draft.t :=
  recordOf "" "| Carol | [Plate](./carol/plate) | A plate | V0 | 2024-01-05 |".

(** The cache entry of Another after a run. *)
Definition anotherEntry : CacheEntry.t :=
  CacheEntry.mk (Some pngUrl) (Some "2024-02-02").

(** A state whose cache has the entry [e] under [key]. *)
Definition withEntry (key : string) (e : CacheEntry.t) : RunState :=
  setCache (Cache.Object {[key := Cache.entry e]} None) freshDisk.

(** A row whose link is the folder of the mods itself: its source path
    is empty. *)
Definition rootRow : string :=
  "| Dana | [Root](./) | The folder itself | V0 | 2024-05-05 |".
Definition rootDraft : Draft.t := recordOf "" rootRow.
Definition rootTable : string :=
  headerLine +:+ LF +:+ separatorLine +:+ LF +:+ rootRow +:+ LF.

(** An entry with an older change token and no image. *)
Definition staleEntry : CacheEntry.t := CacheEntry.mk None (Some "2023-01-01").

(** The table is [rootTable]; nothing else is found. *)
Definition rootWorld : World :=
  worldOf (fun url => if String.eqb url README_URL then page rootTable
                      else notFound)
    (fun _ => None).

(** The cache file has the stale entry under the empty source path. *)
Definition rootDisk : RunState :=
  onDisk ∅ None (Some (CacheFile.Object {[ "" := Cache.entry staleEntry ]})).

(** The image directory has an entry that nothing refers to; it is a
    folder, which [unlink] refuses to remove. *)
Definition orphanDisk : RunState :=
  onDisk {[ "old" := [] ]} None None.

Definition folderInside : World :=
  mkWorld (network (Some (mkResponse true "" gifBytes)))
    (fun _ => Some jpegBytes) href byteOrder
    (fun _ => "2024-03-01T00:00:00.000Z") (fun _ _ => 0) (fun _ => false)
    Written Written true (fun name => negb (String.eqb name "old")).

End Sample.


(** * More of the code *)

From Stdlib Require Import Sorted.
From Stdlib Require OrderedTypeEx.

(** ** Predicates used below *)

(** A character that is not the path separator. *)
Definition notSlash (c : ascii) : bool := negb (Ascii.eqb c "/").

(** The flag of a cell that lists the printers of two cells. *)
Definition eitherTick (a b : CompatibilityFlag) : CompatibilityFlag :=
  match a, b with
  | Cross, Cross => Cross
  | _, _ => Tick
  end.

(** White space in [s] is single spaces only, none at the head when
    [afterSpace] is set. *)
Fixpoint singleSpaced (afterSpace : bool) (s : string) : bool :=
  match s with
  | "" => true
  | String c s' =>
      if Js.isWhiteSpace c
      then Ascii.eqb c " " && negb afterSpace && singleSpaced true s'
      else singleSpaced false s'
  end.

(** No backslash of [s] is followed by [n]. *)
Fixpoint noEscapedNewline (s : string) : bool :=
  match s with
  | "" => true
  | String c s' =>
      negb (Ascii.eqb c "092" && Js.startsWith s' "n") && noEscapedNewline s'
  end.

(** A character that is neither [?] nor [#]. *)
Definition notQueryOrHash (c : ascii) : bool := negb (isQueryOrHash c).

(** A character other than [stop]; a character that is no quote. *)
Definition notChar (stop c : ascii) : bool := negb (Ascii.eqb c stop).

Definition notQuote (c : ascii) : bool := negb (isQuote c).

(** A character that starts neither a markdown image nor an HTML tag. *)
Definition plainChar (c : ascii) : bool := notChar "!" c && notChar "<" c.

(** ** The order of the snapshot *)

(** [a.title.localeCompare(b.title) <= 0]: [a] may stand before [b]. *)
Definition titleOrder (w : World) (a b : string) : Prop :=
  (localeCompare w a b <= 0)%Z.

(** A consistent comparison function of ECMAScript, which
    [Array.prototype.sort] asks for; with another one the order of the
    result is left to the implementation.  Of [a < b], [a = b] and
    [a > b] by the comparator, the sign of its result tells which one
    holds; equality is reflexive, symmetric and transitive, and the two
    strict orders are transitive. *)
Definition ConsistentComparator (w : World) : Prop :=
  (forall a, localeCompare w a a = 0)%Z
  /\ (forall a b, localeCompare w a b = 0 -> localeCompare w b a = 0)%Z
  /\ (forall a b c,
         localeCompare w a b = 0 -> localeCompare w b c = 0 ->
         localeCompare w a c = 0)%Z
  /\ (forall a b c,
         localeCompare w a b < 0 -> localeCompare w b c < 0 ->
         localeCompare w a c < 0)%Z
  /\ (forall a b c,
         localeCompare w a b > 0 -> localeCompare w b c > 0 ->
         localeCompare w a c > 0)%Z.

(** The value of a field of a mod of the snapshot. *)
Definition fieldOf (key : string) (mod_ : Json) : option Json :=
  match mod_ with
  | JObj fields =>
      snd <$> List.find (fun field => String.eqb (fst field) key) fields
  | _ => None
  end.

Definition titleOf (mod_ : Json) : option string :=
  match fieldOf "title" mod_ with
  | Some (JStr title) => Some title
  | _ => None
  end.

(** The titles of the mods of the snapshot that have one, in the order of
    the snapshot. *)
Definition titlesOf (snapshot : option Json) : list string :=
  omap titleOf (modsOf snapshot).

(** ** The requests of a run *)

(** [mod.sourcePath] when the callback of [addPreviewImages] goes on with
    it: set and not empty. *)
Definition sourceOf (m : Draft.t) : option string :=
  match Draft.sourcePath m with
  | Some sp => if Js.truthy sp then Some sp else None
  | None => None
  end.

Definition sources (mods : list Draft.t) : list string := omap sourceOf mods.

(** ** The first version of the script

    [scripts/parseReadme.ts] as it was before the preview images: the same
    table parser, with its own [extractLink]; [sanitizeDescription],
    [buildCompatibility] and the constants are the ones above. *)

Module V1.

(** [interface Mod] of that version. *)
Record Mod : Set := mkMod {
  creator : string;
  title : string;
  description : string;
  link : string;
  compatibility : Compatibility;
  lastChanged : option string
}.

(** The object [{ title, link }] as a pair. *)
Definition extractLink (cell : string) : string * string :=
  match matchLink cell with
  | None => (cell, MOD_BASE_URL)
  | Some (title, rawLink) =>
      let link := if Js.startsWith rawLink "http" then rawLink
                  else MOD_BASE_URL +:+ "/" +:+ rawLink in
      (Js.trim title, link)
  end.

Fixpoint parseLoop (inTable : bool) (lastCreator : string)
    (lines : list string) : list Mod :=
  match lines with
  | [] => []
  | line :: rest =>
      if negb inTable && Js.startsWith (Js.trim line) "| Creator"
      then parseLoop true lastCreator rest
      else if negb inTable then parseLoop inTable lastCreator rest
      else if Js.startsWith (Js.trim line) "| ---"
      then parseLoop inTable lastCreator rest
      else if negb (Js.startsWith (Js.trim line) "|")
      then (if inTable then [] else parseLoop inTable lastCreator rest)
      else
        let cells := rowCells line in
        if List.length cells <? 5 then parseLoop inTable lastCreator rest
        else
          match cells with
          | initialCreator :: titleCell :: description :: compatibilityCell
              :: lastChanged :: _ =>
              let lastCreator' :=
                if Js.truthy initialCreator then initialCreator
                else lastCreator in
              let creator :=
                if Js.truthy initialCreator then initialCreator
                else lastCreator in
              let '(title, link) := extractLink titleCell in
              mkMod creator title (sanitizeDescription description) link
                (buildCompatibility compatibilityCell)
                (Js.orUndefined lastChanged)
              :: parseLoop inTable lastCreator' rest
          | _ => parseLoop inTable lastCreator rest
          end
  end.

Definition parseMods (markdown : string) : list Mod :=
  parseLoop false "" (Js.splitLines markdown).

End V1.

(** The mod of the first version with the link of a draft: the draft
    without the properties that came later. *)
Definition asV1 (d : Draft.t) : V1.Mod :=
  V1.mkMod (Draft.creator d) (Draft.title d) (Draft.description d)
    (Draft.link d) (Draft.compatibility d) (Draft.lastChanged d).

(** The two versions on the same title cell. *)
Definition SameRow (old : V1.Mod) (new : Draft.t) : Prop :=
  exists titleCell,
    old = V1.mkMod (Draft.creator new) (fst (V1.extractLink titleCell))
            (Draft.description new) (snd (V1.extractLink titleCell))
            (Draft.compatibility new) (Draft.lastChanged new)
    /\ Draft.title new = fst (fst (extractLink titleCell))
    /\ Draft.link new = snd (fst (extractLink titleCell)).

(** ** The catalogue page ([src/pages/index.tsx])

    The state of the page is the search text, the selected printers, the
    sort option and the number of mods shown; a mod of the snapshot is
    read through the fields of its draft.  The value of a query parameter
    is modelled as the page gives it to [URLSearchParams] and gets it
    back. *)

Module Page.

Definition PAGE_SIZE : nat := 24.

Definition PRINTER_KEYS : list PrinterKey :=
  [K_v0; K_v0_1; K_v1_8; K_v2_4; K_trident].

(** The property name that a [PrinterKey] is. *)
Definition keyName (k : PrinterKey) : string :=
  match k with
  | K_v0 => "v0"
  | K_v0_1 => "v0_1"
  | K_v1_8 => "v1_8"
  | K_v2_4 => "v2_4"
  | K_trident => "trident"
  end.

(** [PRINTER_KEYS.includes(value)], with the key that [value] is. *)
Definition keyOfName (value : string) : option PrinterKey :=
  List.find (fun k => String.eqb (keyName k) value) PRINTER_KEYS.

Definition isComma (c : ascii) : bool := Ascii.eqb c ",".

(** [parsedPrinters]; [None] is a parameter that is not there. *)
Definition parsePrinters (printersParam : option string) : list PrinterKey :=
  match printersParam with
  | Some param =>
      if Js.truthy param
      then omap keyOfName (List.map Js.trim (Js.splitOn isComma param))
      else []
  | None => []
  end.

(** [l.join(sep)]. *)
Fixpoint joinWith (sep : string) (l : list string) : string :=
  match l with
  | [] => ""
  | [x] => x
  | x :: l' => x +:+ sep +:+ joinWith sep l'
  end.

(** The value the page sets for [printers], if it sets one. *)
Definition printersParamOf (selectedPrinters : list PrinterKey) : option string :=
  match selectedPrinters with
  | [] => None
  | _ => Some (joinWith "," (List.map keyName selectedPrinters))
  end.

(** [handleTogglePrinter], the new selection. *)
Definition togglePrinter (printer : PrinterKey) (prev : list PrinterKey)
  : list PrinterKey :=
  if existsb (fun item => bool_decide (item = printer)) prev
  then List.filter (fun item => negb (bool_decide (item = printer))) prev
  else prev ++ [printer].

(** [hay.includes(needle)]. *)
Fixpoint stringIncludes (hay needle : string) : bool :=
  Js.startsWith hay needle
  || match hay with
     | "" => false
     | String _ hay' => stringIncludes hay' needle
     end.

Definition matchesSearch (normalizedSearch : string) (m : Draft.t) : bool :=
  if negb (Js.truthy normalizedSearch) then true
  else stringIncludes
         (Js.toLowerCase
            (joinWith " " [Draft.title m; Draft.description m; Draft.creator m]))
         normalizedSearch.

Definition isTick (f : CompatibilityFlag) : bool :=
  match f with Tick => true | _ => false end.

Definition matchesPrinters (selectedPrinters : list PrinterKey) (m : Draft.t)
  : bool :=
  forallb (fun printer => isTick (getFlag printer (Draft.compatibility m)))
    selectedPrinters.

Inductive SortOption : Set := ByTitle | ByCreator | ByRecent.

(** [sorters[sortBy]].  [getTime s] is [new Date(s).getTime()], [None]
    when it is [NaN]; a comparator that returns [NaN] is taken by [sort]
    to return 0. *)
Definition sorters (w : World) (getTime : string -> option Z)
    (sortBy : SortOption) (a b : Draft.t) : Z :=
  match sortBy with
  | ByTitle => localeCompare w (Draft.title a) (Draft.title b)
  | ByCreator => localeCompare w (Draft.creator a) (Draft.creator b)
  | ByRecent =>
      let time (m : Draft.t) :=
        match Draft.lastChanged m with
        | Some s => if Js.truthy s then getTime s else Some 0%Z
        | None => Some 0%Z
        end in
      match time b, time a with
      | Some bTime, Some aTime => (bTime - aTime)%Z
      | _, _ => 0%Z
      end
  end.

(** [l.sort(cmp)]: the sort is stable. *)
Fixpoint insertBy {A} (cmp : A -> A -> Z) (x : A) (sorted : list A) : list A :=
  match sorted with
  | [] => [x]
  | y :: sorted' =>
      if (cmp x y <=? 0)%Z then x :: sorted else y :: insertBy cmp x sorted'
  end.

Definition sortWith {A} (cmp : A -> A -> Z) (l : list A) : list A :=
  List.fold_right (insertBy cmp) [] l.

Definition filteredMods (cmp : Draft.t -> Draft.t -> Z) (mods : list Draft.t)
    (search : string) (selectedPrinters : list PrinterKey) : list Draft.t :=
  let normalizedSearch := Js.toLowerCase (Js.trim search) in
  let scoped :=
    List.filter (matchesPrinters selectedPrinters)
      (List.filter (matchesSearch normalizedSearch) mods) in
  sortWith cmp scoped.

Definition visibleMods (filtered : list Draft.t) (visibleCount : nat)
  : list Draft.t :=
  firstn visibleCount filtered.

Definition hasMore (filtered : list Draft.t) (visibleCount : nat) : bool :=
  visibleCount <? List.length filtered.

(** The new count that [loadMore] sets. *)
Definition loadMore (filtered : list Draft.t) (count : nat) : nat :=
  Nat.min (count + PAGE_SIZE) (List.length filtered).

End Page.

(** ** What a run asks of the network *)

(** A request for the README of one of the mods, or for a GIF. *)
Definition AllowedRequest (sourcePaths : list string) (url : string) : Prop :=
  (exists sp, sp ∈ sourcePaths /\ url = readmeUrlOf sp) \/ isGif url = true.

(** The rows of the table that [fetchReadme] resolves with, if it does. *)
Definition fetchedRows (w : World) : list Draft.t :=
  match net w README_URL with
  | Some response => if ok response then parseMods (text response) else []
  | None => []
  end.

(** The requests [later] were made after those of [st], at most two for
    each of the source paths, each for a README of one of them or for a
    GIF. *)
Definition Asked (sourcePaths : list string) (st st' : RunState) : Prop :=
  exists later,
    requests st' = later ++ requests st
    /\ List.length later <= 2 * List.length sourcePaths
    /\ Forall (AllowedRequest sourcePaths) later.

(** The function makes [n] requests at most, each of them allowed. *)
Inductive Requests {A} (allowed : string -> Prop) : nat -> Proc A -> Prop :=
| Requests_done n a : Requests allowed n (Done a)
| Requests_failed n : Requests allowed n Failed
| Requests_quiet n effect next :
    (forall st, requests (effect st) = requests st) ->
    (forall st, Requests allowed n (next st)) ->
    Requests allowed n (Act effect next)
| Requests_ask n effect next url :
    allowed url ->
    (forall st, requests (effect st) = url :: requests st) ->
    (forall st, Requests allowed n (next st)) ->
    Requests allowed (S n) (Act effect next)
| Requests_wait n rest :
    Requests allowed n rest -> Requests allowed n (Await rest).

(** The callbacks that wait make [owed] requests at most, all together,
    each of them allowed. *)
Inductive Owes {A} (allowed : string -> Prop) : list (Task A) -> nat -> Prop :=
| Owes_nil : Owes allowed [] 0
| Owes_settled result tasks owed :
    Owes allowed tasks owed -> Owes allowed (Settled result :: tasks) owed
| Owes_waiting rest tasks n owed :
    Requests allowed n rest -> Owes allowed tasks owed ->
    Owes allowed (Waiting rest :: tasks) (n + owed).

(** The callbacks of [batch], some of them called already, in a run of
    the batch that began in the state [st0]: what they have asked and
    what they may still ask. *)
Definition AskInv (batch : list Draft.t) (st0 : RunState)
    (tasks : list (Task Draft.t)) (st : RunState) : Prop :=
  exists later owed,
    requests st = later ++ requests st0
    /\ Forall (AllowedRequest (sources batch)) later
    /\ Owes (AllowedRequest (sources batch)) tasks owed
    /\ List.length later + owed
       + 2 * List.length (sources (drop (List.length tasks) batch))
       <= 2 * List.length (sources batch).

(** ** Line endings *)

(** The text with every line feed written as carriage return and line
    feed. *)
Fixpoint crlf (s : string) : string :=
  match s with
  | "" => ""
  | String c s' =>
      if Ascii.eqb c "010" then String "013" (String "010" (crlf s'))
      else String c (crlf s')
  end.

(** A character that is not white space. *)
Definition notWhiteSpace (c : ascii) : bool := negb (Js.isWhiteSpace c).

(** * Facts *)

(** ** Strings *)

Lemma app_cons (c : ascii) (s t : string) :
  String c s +:+ t = String c (s +:+ t).
Proof. reflexivity. Qed.

Lemma app_empty_l (s : string) : "" +:+ s = s.
Proof. reflexivity. Qed.

Lemma app_empty_r (s : string) : s +:+ "" = s.
Proof.
  induction s as [|c s IH]; [reflexivity|]. by rewrite app_cons, IH.
Qed.

Lemma app_assoc_str (s t u : string) : (s +:+ t) +:+ u = s +:+ t +:+ u.
Proof.
  induction s as [|c s IH]; [reflexivity|]. by rewrite !app_cons, IH.
Qed.

Lemma length_app_str (s t : string) :
  String.length (s +:+ t) = String.length s + String.length t.
Proof.
  induction s as [|c s IH]; [reflexivity|]. rewrite app_cons. cbn.
  by rewrite IH.
Qed.

Lemma truthy_iff (s : string) : Js.truthy s = true <-> s <> "".
Proof. destruct s; cbn; split; congruence. Qed.

Lemma truthy_false_iff (s : string) : Js.truthy s = false <-> s = "".
Proof. destruct s; cbn; split; congruence. Qed.

Lemma startsWith_iff (s p : string) :
  Js.startsWith s p = true <-> exists rest, s = p +:+ rest.
Proof.
  revert s. induction p as [|a p IH]; intros s.
  - cbn. split; [|done]. intros _. exists s. reflexivity.
  - destruct s as [|b s]; cbn [Js.startsWith].
    + split; [done|]. by intros (rest & H).
    + rewrite andb_true_iff, IH. split.
      * intros [->%Ascii.eqb_eq (rest & ->)]. by exists rest.
      * intros (rest & H). rewrite app_cons in H. injection H as -> ->.
        rewrite Ascii.eqb_refl. eauto.
Qed.

Lemma endsWith_iff (s p : string) :
  Js.endsWith s p = true <-> exists front, s = front +:+ p.
Proof.
  induction s as [|c s IH].
  - cbn [Js.endsWith]. rewrite orb_false_r, String.eqb_eq. split.
    + intros <-. by exists "".
    + intros ([|] & H); [done|]. by rewrite app_cons in H.
  - cbn [Js.endsWith]. rewrite orb_true_iff, String.eqb_eq, IH. split.
    + intros [<-|(front & ->)]; [by exists ""|]. by exists (String c front).
    + intros ([|c' front] & H); [by left|]. right.
      rewrite app_cons in H. injection H as -> ->. by exists front.
Qed.

Lemma sliceFrom_app (p rest : string) :
  Js.sliceFrom (String.length p) (p +:+ rest) = rest.
Proof. induction p as [|c p IH]; [by destruct rest|]. exact IH. Qed.

Lemma includes_iff (l : list string) (x : string) :
  includes l x = true <-> x ∈ l.
Proof.
  unfold includes. rewrite existsb_exists, list_elem_of_In. split.
  - intros (y & Hy & Heq). apply String.eqb_eq in Heq. by subst.
  - intros Hx. exists x. split; [done|]. apply String.eqb_refl.
Qed.

(** ** Splitting *)

Lemma splitOn_nonempty sep s : Js.splitOn sep s <> [].
Proof.
  destruct s as [|c s]; cbn; [done|].
  destruct (sep c); [done|]. by destruct (Js.splitOn sep s).
Qed.

(** The pieces of a split hold no separator, there is one more piece than
    separators, and pieces and separators together are the string. *)
Lemma splitOn_join sep s :
  exists seps,
    Forall (fun c => sep c = true) seps
    /\ List.length (Js.splitOn sep s) = S (List.length seps)
    /\ join (Js.splitOn sep s) seps = s
    /\ Forall (fun p => allChars (fun c => negb (sep c)) p = true)
         (Js.splitOn sep s).
Proof.
  induction s as [|c s (seps & Hs & Hl & Hj & Hp)].
  - exists []. cbn. repeat split; auto.
  - cbn [Js.splitOn]. destruct (sep c) eqn:Hc.
    + exists (c :: seps). split; [by constructor|]. split; [cbn; by rewrite Hl|].
      split; [|by constructor].
      change (join ("" :: Js.splitOn sep s) (c :: seps))
        with ("" +:+ String c (join (Js.splitOn sep s) seps)).
      by rewrite Hj.
    + exists seps. destruct (Js.splitOn sep s) as [|p ps] eqn:E; [done|].
      cbn [Js.consHead]. split; [done|]. split; [exact Hl|]. split.
      * destruct seps; cbn [join] in *; [by rewrite Hj|].
        by rewrite app_cons, Hj.
      * inversion Hp; subst. constructor; [|done]. cbn. by rewrite Hc.
Qed.

(** ** Compatibility normalizer *)

Lemma compatTokens_iff cell tok :
  tok ∈ compatTokens cell
  <-> tok <> "" /\ exists piece,
        piece ∈ Js.splitOn isCommaOrSlash cell /\ tok = Js.trim piece.
Proof.
  unfold compatTokens.
  rewrite list_elem_of_In, filter_In, <- list_elem_of_In, truthy_iff.
  rewrite list_elem_of_In, in_map_iff. split.
  - intros [(p & <- & Hp) Hne]. split; [done|]. exists p.
    by rewrite list_elem_of_In.
  - intros [Hne (p & Hp & ->)]. split; [|done]. exists p.
    by rewrite <- list_elem_of_In.
Qed.

Lemma hasSynonym_iff cell synonyms :
  hasSynonym cell synonyms = true
  <-> exists tok, tok ∈ compatTokens cell /\ tok ∈ synonyms.
Proof.
  unfold hasSynonym. rewrite existsb_exists.
  split; intros (t & Ht & Hs); exists t.
  - by rewrite list_elem_of_In, <- includes_iff.
  - by rewrite <- list_elem_of_In, includes_iff.
Qed.

Lemma buildCompatibility_flag cell key :
  getFlag key (buildCompatibility cell)
  = if hasSynonym cell (synonymsOf key) then Tick else Cross.
Proof.
  unfold hasSynonym.
  match goal with
  | |- context [synonymsOf ?k] =>
      let v := eval vm_compute in (synonymsOf k) in
      change (synonymsOf k) with v
  end.
  cbv [buildCompatibility PRINTER_SYNONYMS fold_left]. cbv beta iota.
  destruct key;
    repeat match goal with
    | |- context [existsb ?f ?l] => destruct (existsb f l)
    end; reflexivity.
Qed.

Example synonyms_by_family :
  synonymsOf K_v0 = ["V0"; "V0.0"; "V0.1"; "V0.2"; "V0.2r1"]
  /\ synonymsOf K_v0_1 = ["V0.1"]
  /\ synonymsOf K_v1_8 = ["V1.8"; "V1"]
  /\ synonymsOf K_v2_4 = ["V2.4"; "V2.4r2"]
  /\ synonymsOf K_trident = ["VT"; "Trident"; "Voron Trident"].
Proof. repeat split. Qed.

Example compatibility_is_case_sensitive :
  buildCompatibility "v2.4, trident , V1 /VT"
  = mkCompatibility Cross Tick Cross Tick Cross.
Proof. reflexivity. Qed.

(** C4: the cell is cut at commas and slashes, the pieces are trimmed and
    the empty ones dropped; a family is marked "✓" exactly when one of its
    synonyms is among these tokens, and "✗" otherwise; "?" is never
    produced; a token "V0.1" marks both [v0] and [v0_1]. *)
Theorem buildCompatibility_spec (cell : string) :
  (exists seps,
      Forall (fun c => c = ","%char \/ c = "/"%char) seps
      /\ join (Js.splitOn isCommaOrSlash cell) seps = cell
      /\ List.length (Js.splitOn isCommaOrSlash cell) = S (List.length seps)
      /\ Forall (fun p => allChars (fun c => negb (isCommaOrSlash c)) p = true)
           (Js.splitOn isCommaOrSlash cell))
  /\ (forall tok,
        tok ∈ compatTokens cell
        <-> tok <> "" /\ exists piece,
              piece ∈ Js.splitOn isCommaOrSlash cell /\ tok = Js.trim piece)
  /\ (forall key,
        (getFlag key (buildCompatibility cell) = Tick
         <-> exists tok, tok ∈ compatTokens cell /\ tok ∈ synonymsOf key)
        /\ (getFlag key (buildCompatibility cell) = Cross
            <-> ~ exists tok, tok ∈ compatTokens cell /\ tok ∈ synonymsOf key)
        /\ getFlag key (buildCompatibility cell) <> Question)
  /\ ("V0.1" ∈ compatTokens cell
      -> v0 (buildCompatibility cell) = Tick
         /\ v0_1 (buildCompatibility cell) = Tick).
Proof.
  split; [|split; [|split]].
  - destruct (splitOn_join isCommaOrSlash cell) as (seps & Hs & Hl & Hj & Hp).
    exists seps. repeat split; auto.
    eapply Forall_impl; [exact Hs|]. cbn. intros c Hc.
    unfold isCommaOrSlash in Hc. apply orb_true_iff in Hc.
    destruct Hc as [Hc|Hc]; apply Ascii.eqb_eq in Hc; auto.
  - apply compatTokens_iff.
  - intros key. rewrite buildCompatibility_flag, <- hasSynonym_iff.
    destruct (hasSynonym cell (synonymsOf key)); repeat split; congruence.
  - intros HV.
    assert (Hk : forall key, "V0.1" ∈ synonymsOf key ->
                             getFlag key (buildCompatibility cell) = Tick).
    { intros key Hin. rewrite buildCompatibility_flag.
      assert (hasSynonym cell (synonymsOf key) = true) as ->; [|done].
      apply hasSynonym_iff. eauto. }
    split; [apply (Hk K_v0)|apply (Hk K_v0_1)]; cbn; set_solver.
Qed.

(** A cell with the token "V0.1". *)
Lemma buildCompatibility_spec_witness :
  "V0.1" ∈ compatTokens "V0.1 / V2.4"
  /\ v0 (buildCompatibility "V0.1 / V2.4") = Tick
  /\ v0_1 (buildCompatibility "V0.1 / V2.4") = Tick.
Proof.
  assert (H : "V0.1" ∈ compatTokens "V0.1 / V2.4") by (vm_compute; set_solver).
  split; [exact H|].
  exact (proj2 (proj2 (proj2 (buildCompatibility_spec "V0.1 / V2.4"))) H).
Defined.

(** ** Trimming *)

Lemma trimStart_spec s :
  exists l,
    s = l +:+ Js.trimStart s
    /\ allChars Js.isWhiteSpace l = true
    /\ (Js.trimStart s = ""
        \/ exists c t, Js.trimStart s = String c t /\ Js.isWhiteSpace c = false).
Proof.
  induction s as [|c s (l & Hl & Hw & Hs)].
  - exists "". auto.
  - cbn [Js.trimStart]. destruct (Js.isWhiteSpace c) eqn:Hc.
    + exists (String c l). rewrite app_cons, <- Hl. cbn. rewrite Hc, Hw. auto.
    + exists "". repeat split; eauto.
Qed.

Lemma trimEnd_spec s :
  exists r,
    s = Js.trimEnd s +:+ r
    /\ allChars Js.isWhiteSpace r = true
    /\ (Js.trimEnd s = ""
        \/ exists t c, Js.trimEnd s = t +:+ String c ""
                       /\ Js.isWhiteSpace c = false).
Proof.
  induction s as [|c s (r & Hr & Hw & Hs)].
  - exists "". auto.
  - cbn [Js.trimEnd]. destruct (Js.trimEnd s) as [|a t] eqn:E.
    + rewrite app_empty_l in Hr. subst r.
      destruct (Js.isWhiteSpace c) eqn:Hc.
      * exists (String c s). cbn. rewrite Hc, Hw. auto.
      * exists s. repeat split; auto. right. by exists "", c.
    + exists r. rewrite app_cons, <- Hr. repeat split; auto. right.
      destruct Hs as [Hs|(t' & c' & Hs & Hc')]; [done|].
      exists (String c t'), c'. by rewrite app_cons, <- Hs.
Qed.

Lemma trimEnd_head c s :
  Js.isWhiteSpace c = false ->
  exists t, Js.trimEnd (String c s) = String c t.
Proof.
  intros Hc. cbn [Js.trimEnd]. destruct (Js.trimEnd s); rewrite ?Hc; eauto.
Qed.

(** [trim] removes white space at both ends and nothing else. *)
Lemma trim_spec s :
  exists l r,
    s = l +:+ Js.trim s +:+ r
    /\ allChars Js.isWhiteSpace l = true
    /\ allChars Js.isWhiteSpace r = true
    /\ (Js.trim s = ""
        \/ exists c t, Js.trim s = String c t /\ Js.isWhiteSpace c = false)
    /\ (Js.trim s = ""
        \/ exists t c, Js.trim s = t +:+ String c ""
                       /\ Js.isWhiteSpace c = false).
Proof.
  unfold Js.trim.
  destruct (trimStart_spec s) as (l & Hl & Hlw & Hs).
  destruct (trimEnd_spec (Js.trimStart s)) as (r & Hr & Hrw & He).
  exists l, r. rewrite <- Hr, <- Hl. repeat split; auto.
  destruct Hs as [->|(c & t & -> & Hc)]; [by left|]. right.
  destruct (trimEnd_head c t Hc) as (t' & ->). eauto.
Qed.

Lemma trim_empty s : Js.trim s = "" <-> allChars Js.isWhiteSpace s = true.
Proof.
  split.
  - intros H. destruct (trim_spec s) as (l & r & Hs & Hl & Hr & _).
    rewrite H, app_empty_l in Hs. subst s. clear H.
    induction l as [|c l IH]; [done|]. rewrite app_cons. cbn in *.
    apply andb_true_iff in Hl as [-> Hl]. auto.
  - unfold Js.trim. induction s as [|c s IH]; [done|]. cbn.
    intros [Hc Hs]%andb_true_iff. rewrite Hc. auto.
Qed.

(** ** The link of a title cell *)

Lemma spanUntil_Some stop s run rest :
  spanUntil stop s = Some (run, rest)
  <-> s = run +:+ String stop rest
      /\ allChars (fun c => negb (Ascii.eqb c stop)) run = true.
Proof.
  revert run. induction s as [|c s IH]; intros run.
  - cbn. split; [done|]. intros [H _]. by destruct run.
  - cbn [spanUntil]. destruct (Ascii.eqb_spec c stop) as [->|Hne].
    + split.
      * intros [= <- <-]. auto.
      * intros [H Hall]. destruct run as [|a run].
        -- rewrite app_empty_l in H. by injection H as ->.
        -- rewrite app_cons in H. injection H as <- _. cbn in Hall.
           by rewrite Ascii.eqb_refl in Hall.
    + split.
      * destruct (spanUntil stop s) as [[run' rest']|]; [|done].
        intros [= <- ->]. destruct (proj1 (IH run') eq_refl) as [-> Hall].
        split; [done|].
        cbn. rewrite Hall. by destruct (Ascii.eqb_spec c stop).
      * intros [H Hall]. destruct run as [|a run].
        -- rewrite app_empty_l in H. by injection H as ->.
        -- rewrite app_cons in H. injection H as <- ->. cbn in Hall.
           apply andb_true_iff in Hall as [_ Hall].
           by rewrite (proj2 (IH run) (conj eq_refl Hall)).
Qed.

Lemma linkAt_Some s text target :
  linkAt s = Some (text, target) <-> exists after, LinkAt s "" text target after.
Proof.
  unfold linkAt, LinkAt. split.
  - destruct s as [|c s1]; [done|].
    destruct (Ascii.eqb_spec c "[") as [->|]; [|done].
    destruct (spanUntil "]" s1) as [[t [|c' s3]]|] eqn:E1; [done| |done].
    destruct (Ascii.eqb_spec c' "(") as [->|]; [|done].
    destruct (spanUntil ")" s3) as [[r a]|] eqn:E2; [|done].
    destruct (Js.truthy t) eqn:Ht; [|done].
    destruct (Js.truthy r) eqn:Hr; [|done].
    intros [= <- <-]. exists a.
    apply spanUntil_Some in E1 as [-> H1]. apply spanUntil_Some in E2 as [-> H2].
    apply truthy_iff in Ht, Hr. repeat split; auto.
  - intros (after & -> & Ht & H1 & Hr & H2).
    rewrite app_empty_l.
    change ("[" +:+ text +:+ "](" +:+ target +:+ ")" +:+ after)
      with (String "[" (text +:+ String "]" (String "(" (target +:+ String ")" after)))).
    cbn [Ascii.eqb Bool.eqb].
    rewrite (proj2 (spanUntil_Some "]" _ text _) (conj eq_refl H1)).
    cbn [Ascii.eqb Bool.eqb].
    rewrite (proj2 (spanUntil_Some ")" _ target _) (conj eq_refl H2)).
    apply truthy_iff in Ht, Hr. by rewrite Ht, Hr.
Qed.

Lemma LinkAt_cons c cell before text target after :
  LinkAt cell before text target after
  <-> LinkAt (String c cell) (String c before) text target after.
Proof.
  unfold LinkAt. rewrite app_cons. split.
  - intros (-> & H). tauto.
  - intros (H & H'). injection H as ->. tauto.
Qed.

(** [matchLink] finds the first link of the cell. *)
Lemma matchLink_Some cell text target :
  matchLink cell = Some (text, target)
  <-> exists before after, FirstLink cell before text target after.
Proof.
  split.
  - induction cell as [|c cell IH].
    + cbn. done.
    + cbn [matchLink]. destruct (linkAt (String c cell)) as [[t r]|] eqn:E.
      * intros [= -> ->]. apply linkAt_Some in E as (after & H).
        exists "", after. split; [done|]. intros. cbn. lia.
      * intros H. destruct (IH H) as (before & after & HL & Hmin).
        exists (String c before), after. split; [by apply LinkAt_cons|].
        intros [|c' b] t r a Hb.
        -- assert (linkAt (String c cell) = Some (t, r)) as E'
             by (apply linkAt_Some; eauto). congruence.
        -- assert (c' = c) as ->.
           { destruct Hb as (Hb & _). rewrite app_cons in Hb. congruence. }
           apply LinkAt_cons in Hb. apply Hmin in Hb. cbn. lia.
  - intros (before & after & HL & Hmin). revert cell HL Hmin.
    induction before as [|c before IH]; intros cell HL Hmin.
    + destruct cell as [|c cell].
      * destruct HL as (HL & _). done.
      * cbn [matchLink].
        by rewrite (proj2 (linkAt_Some _ text target) (ex_intro _ after HL)).
    + destruct cell as [|c' cell].
      { destruct HL as (HL & _). done. }
      assert (c' = c) as ->.
      { destruct HL as (HL & _). rewrite app_cons in HL. congruence. }
      cbn [matchLink].
      destruct (linkAt (String c cell)) as [[t r]|] eqn:E.
      { apply linkAt_Some in E as (a & E). apply Hmin in E. cbn in E. lia. }
      apply IH; [by apply LinkAt_cons in HL|].
      intros b t r a Hb. apply (LinkAt_cons c) in Hb. apply Hmin in Hb.
      cbn in Hb. lia.
Qed.

Lemma matchLink_None cell :
  matchLink cell = None
  <-> forall before text target after, ~ LinkAt cell before text target after.
Proof.
  split.
  - induction cell as [|c cell IH]; intros H before text target after HL.
    + destruct HL as (HL & Ht & _). destruct before; [|done].
      rewrite app_empty_l in HL. done.
    + cbn [matchLink] in H.
      destruct (linkAt (String c cell)) as [m|] eqn:E; [done|].
      destruct before as [|c' before].
      * assert (linkAt (String c cell) = Some (text, target))
          by (apply linkAt_Some; eauto). congruence.
      * assert (c' = c) as ->.
        { destruct HL as (HL & _). rewrite app_cons in HL. congruence. }
        apply LinkAt_cons in HL. by apply (IH H) in HL.
  - intros H. destruct (matchLink cell) as [[t r]|] eqn:E; [|done].
    apply matchLink_Some in E as (b & a & HL & _). by apply H in HL.
Qed.

Lemma stripDotSlash_spec target :
  (target = "./" +:+ stripDotSlash target)
  \/ (Js.startsWith target "./" = false /\ stripDotSlash target = target).
Proof.
  unfold stripDotSlash. destruct (Js.startsWith target "./") eqn:E; [|auto].
  left. apply startsWith_iff in E as (rest & ->).
  reflexivity.
Qed.

(** C6: when the title cell holds a markdown link, the trimmed text of the
    first one is the title and its target, without a leading "./", decides
    the rest: an absolute http(s) URL is the link itself and there is no
    sourcePath; anything else is appended to the mod base URL and kept as
    sourcePath.  When the cell holds no link, the cell is the title, the
    link is the catalog root and there is no sourcePath. *)
Theorem extractLink_spec (cell : string) :
  (exists before text target after stripped,
      FirstLink cell before text target after
      /\ (target = "./" +:+ stripped
          \/ (Js.startsWith target "./" = false /\ stripped = target))
      /\ extractLink cell
         = (Js.trim text,
            if isAbsoluteHttp stripped then stripped
            else MOD_BASE_URL +:+ "/" +:+ stripped,
            if isAbsoluteHttp stripped then None else Some stripped))
  \/ ((forall before text target after,
          ~ LinkAt cell before text target after)
      /\ extractLink cell = (cell, MOD_BASE_URL, None)).
Proof.
  unfold extractLink. destruct (matchLink cell) as [[text target]|] eqn:E.
  - left. apply matchLink_Some in E as (before & after & HF).
    exists before, text, target, after, (stripDotSlash target).
    split; [done|]. split; [|done].
    destruct (stripDotSlash_spec target) as [H|[H1 H2]]; auto.
  - right. split; [|done]. by apply matchLink_None.
Qed.

(** ** Row parser *)

Lemma startsWith_app s p q :
  Js.startsWith s (p +:+ q) = true -> Js.startsWith s p = true.
Proof.
  rewrite !startsWith_iff. intros (rest & ->). exists (q +:+ rest).
  by rewrite app_assoc_str.
Qed.

Lemma separator_is_pipe line :
  isSeparatorLine line = true -> isPipeLine line = true.
Proof. apply (startsWith_app _ "|" " ---"). Qed.

Lemma blank_not_pipe line :
  isBlankLine line = true -> isPipeLine line = false.
Proof.
  unfold isBlankLine, isPipeLine. intros H. apply trim_empty in H.
  by rewrite H.
Qed.

Lemma length_rowCells line :
  List.length (rowCells line) = List.length (rawCells line).
Proof. unfold rowCells, rawCells. apply length_map. Qed.

(** One turn of the loop inside the table. *)
Lemma parseLoop_in_table lastCreator line rest :
  parseLoop true lastCreator (line :: rest)
  = if isSeparatorLine line then parseLoop true lastCreator rest
    else if negb (isPipeLine line) then []
    else if List.length (rawCells line) <? 5
    then parseLoop true lastCreator rest
    else recordOf lastCreator line
           :: parseLoop true (Draft.creator (recordOf lastCreator line)) rest.
Proof.
  cbn [parseLoop negb andb]. fold (isSeparatorLine line) (isPipeLine line).
  destruct (isSeparatorLine line); [done|].
  destruct (isPipeLine line); [|done]. cbn [negb].
  rewrite length_rowCells. unfold recordOf.
  destruct (List.length (rawCells line) <? 5) eqn:E; [done|].
  rewrite <- length_rowCells in E. apply Nat.ltb_ge in E.
  destruct (rowCells line) as [|c0 [|c1 [|c2 [|c3 [|c4 cells]]]]];
    cbn in E; try lia.
  cbn [nth]. by destruct (extractLink c1) as [[title link] sourcePath].
Qed.

Lemma parseLoop_outside lastCreator line rest :
  parseLoop false lastCreator (line :: rest)
  = parseLoop (isHeaderLine line) lastCreator rest.
Proof.
  cbn [parseLoop negb andb]. fold (isHeaderLine line).
  by destruct (isHeaderLine line).
Qed.

(** The loop builds the records of the parsed rows, carrying the creator
    from one to the next. *)
Lemma parseLoop_recordsFrom lines inTable lastCreator :
  parseLoop inTable lastCreator lines
  = recordsFrom lastCreator (dataLines inTable lines).
Proof.
  revert inTable lastCreator.
  induction lines as [|line rest IH]; intros inTable lastCreator; [done|].
  destruct inTable.
  - rewrite parseLoop_in_table. cbn [dataLines].
    destruct (isSeparatorLine line); [apply IH|].
    destruct (isPipeLine line); [|done]. cbn [negb].
    destruct (List.length (rawCells line) <? 5); [apply IH|].
    cbn [recordsFrom]. by rewrite IH.
  - rewrite parseLoop_outside. cbn [dataLines]. apply IH.
Qed.

Lemma dataLines_before before lines :
  Forall (fun l => isHeaderLine l = false) before ->
  dataLines false (before ++ lines) = dataLines false lines.
Proof.
  induction 1 as [|l before Hl _ IH]; [done|].
  cbn [app dataLines]. by rewrite Hl.
Qed.

Lemma dataLines_body body rest :
  Forall (fun l => isPipeLine l = true) body ->
  (rest = [] \/ exists l rest', rest = l :: rest' /\ isPipeLine l = false) ->
  dataLines true (body ++ rest) = dataLines true body.
Proof.
  intros Hbody Hrest. induction Hbody as [|l body Hl _ IH].
  - destruct Hrest as [->|(l & rest' & -> & Hl)]; [done|].
    cbn [app dataLines]. rewrite Hl.
    destruct (isSeparatorLine l) eqn:E; [|done].
    apply separator_is_pipe in E. congruence.
  - cbn [app dataLines]. rewrite Hl, IH. done.
Qed.

(** C3, amended: the table starts behind the first line whose trimmed text
    begins with "| Creator" and ends in front of the first line after it
    whose trimmed text does not begin with "|" (or at the end of the
    input); an empty or white-space line is such a line. *)
Theorem table_body_bounds (markdown : string)
    (before : list string) (header : string) (body rest : list string) :
  Js.splitLines markdown = before ++ header :: body ++ rest ->
  Forall (fun l => isHeaderLine l = false) before ->
  isHeaderLine header = true ->
  Forall (fun l => isPipeLine l = true) body ->
  (rest = [] \/ exists l rest', rest = l :: rest' /\ isPipeLine l = false) ->
  parseMods markdown = parseLoop true "" body
  /\ dataLines false (Js.splitLines markdown) = dataLines true body
  /\ forall l, isBlankLine l = true -> isPipeLine l = false.
Proof.
  intros Hlines Hbefore Hheader Hbody Hrest.
  assert (H : dataLines false (Js.splitLines markdown) = dataLines true body).
  { rewrite Hlines, dataLines_before by done. cbn [dataLines].
    rewrite Hheader. by apply dataLines_body. }
  split; [|split; [done|apply blank_not_pipe]].
  unfold parseMods. by rewrite !parseLoop_recordsFrom, H.
Qed.

Lemma no_header_no_rows markdown :
  Forall (fun l => isHeaderLine l = false) (Js.splitLines markdown) ->
  parseMods markdown = [].
Proof.
  intros H. unfold parseMods. rewrite parseLoop_recordsFrom.
  rewrite <- (app_nil_r (Js.splitLines markdown)).
  by rewrite dataLines_before.
Qed.

(** The sample table: a title line in front, the body of four lines, and
    the empty piece behind the last line feed. *)
Lemma table_body_bounds_witness :
  parseMods Sample.table
  = parseLoop true ""
      [ Sample.separatorLine; Sample.coolRow; Sample.anotherRow;
        Sample.bracketRow ]
  /\ dataLines false (Js.splitLines Sample.table)
     = dataLines true
         [ Sample.separatorLine; Sample.coolRow; Sample.anotherRow;
           Sample.bracketRow ]
  /\ forall l, isBlankLine l = true -> isPipeLine l = false.
Proof.
  apply (table_body_bounds Sample.table ["# Printer mods"] Sample.headerLine
           _ [""]).
  - reflexivity.
  - repeat constructor.
  - reflexivity.
  - repeat constructor.
  - right. exists "", []. split; reflexivity.
Defined.

(** C3 as worded fails: the empty line between the two rows ends the
    table, and the row behind it gives no record. *)
Lemma blank_line_ends_table :
  Js.splitLines Sample.gappedTable
  = [Sample.headerLine; Sample.coolRow; ""; Sample.anotherRow]
  /\ List.map Draft.title (parseMods Sample.gappedTable) = ["Cool Mod"]
  /\ ~ TableEndsAtNonEmptyNonPipeLine.
Proof.
  split; [reflexivity|]. split; [reflexivity|]. intros H.
  specialize (H [] Sample.headerLine [Sample.coolRow; ""; Sample.anotherRow] []).
  assert (E : parseLoop false ""
                ([] ++ Sample.headerLine
                    :: [Sample.coolRow; ""; Sample.anotherRow] ++ [])
              = parseLoop true ""
                  (List.filter (fun l => negb (isBlankLine l))
                     [Sample.coolRow; ""; Sample.anotherRow])).
  { apply H; [constructor|reflexivity| |by left].
    repeat constructor; (by left) || (by right). }
  apply (f_equal (@List.length _)) in E. vm_compute in E. discriminate.
Qed.

(** ** Carrying the creator forward *)

Lemma creator_recordOf lastCreator line :
  Draft.creator (recordOf lastCreator line)
  = if Js.truthy (creatorCell line) then creatorCell line else lastCreator.
Proof.
  unfold recordOf, creatorCell.
  by destruct (extractLink (nth 1 (rowCells line) "")) as [[? ?] ?].
Qed.

Lemma length_recordsFrom lastCreator rows :
  List.length (recordsFrom lastCreator rows) = List.length rows.
Proof.
  revert lastCreator. induction rows as [|r rows IH]; intros lc; [done|].
  cbn. by rewrite IH.
Qed.

Lemma recordsFrom_creator rows : forall lastCreator i row d,
  rows !! i = Some row ->
  recordsFrom lastCreator rows !! i = Some d ->
  (creatorCell row <> "" -> Draft.creator d = creatorCell row)
  /\ (creatorCell row = "" ->
      (exists j prev,
          j < i /\ rows !! j = Some prev /\ creatorCell prev <> ""
          /\ (forall k r, j < k < i -> rows !! k = Some r -> creatorCell r = "")
          /\ Draft.creator d = creatorCell prev)
      \/ ((forall k r, k < i -> rows !! k = Some r -> creatorCell r = "")
          /\ Draft.creator d = lastCreator)).
Proof.
  induction rows as [|r0 rows IH]; intros lc i row d Hrow Hd; [done|].
  destruct i as [|i].
  - cbn in Hrow, Hd. injection Hrow as ->. injection Hd as <-.
    rewrite creator_recordOf. split.
    + intros Hne. apply truthy_iff in Hne. by rewrite Hne.
    + intros He. right. split; [intros; lia|].
      apply truthy_false_iff in He. by rewrite He.
  - cbn [recordsFrom] in Hd. cbn in Hrow, Hd.
    destruct (IH _ _ _ _ Hrow Hd) as [Hne He]. split; [done|].
    intros Hempty. destruct (He Hempty) as
      [(j & prev & Hj & Hprev & Hpne & Hbetween & Hc)|[Hall Hc]].
    + left. exists (S j), prev.
      split; [lia|]. split; [done|]. split; [done|]. split; [|done].
      intros [|k] r Hk Hr; [lia|]. cbn in Hr. apply (Hbetween k); [lia|done].
    + rewrite creator_recordOf in Hc.
      destruct (Js.truthy (creatorCell r0)) eqn:E.
      * left. exists 0, r0. apply truthy_iff in E.
        split; [lia|]. split; [done|]. split; [done|]. split; [|done].
        intros [|k] r Hk Hr; [lia|]. cbn in Hr. apply (Hall k); [lia|done].
      * right. split; [|done]. apply truthy_false_iff in E.
        intros [|k] r Hk Hr; cbn in Hr; [congruence|].
        apply (Hall k); [lia|done].
Qed.

Lemma dataLines_cells lines inTable row :
  row ∈ dataLines inTable lines -> 5 <= List.length (rawCells row).
Proof.
  revert inTable.
  induction lines as [|l lines IH]; intros inTable; cbn [dataLines].
  - by intros ?%elem_of_nil.
  - destruct inTable; [|apply IH].
    destruct (isSeparatorLine l); [apply IH|].
    destruct (negb (isPipeLine l)); [by intros ?%elem_of_nil|].
    destruct (List.length (rawCells l) <? 5) eqn:E; [apply IH|].
    intros [->|H]%elem_of_cons; [|by apply IH in H].
    by apply Nat.ltb_ge in E.
Qed.

Lemma creatorCell_trim row :
  1 <= List.length (rawCells row) ->
  exists raw, rawCells row !! 0 = Some raw /\ creatorCell row = Js.trim raw.
Proof.
  unfold creatorCell, rowCells. fold (rawCells row).
  destruct (rawCells row) as [|raw cells]; cbn; [lia|]. eauto.
Qed.

(** C5: the records come one per parsed row, in order.  A row whose
    creator cell is not empty gives a record with the trimmed text of that
    cell as creator; a row whose creator cell is empty gives a record with
    the creator of the nearest row before it whose creator cell is not
    empty, and the empty string when there is none: the carried creator is
    empty when the parser starts and is never reset. *)
Theorem creator_carry_forward (markdown : string) :
  let rows := dataLines false (Js.splitLines markdown) in
  let mods := parseMods markdown in
  List.length mods = List.length rows
  /\ forall i row d,
       rows !! i = Some row -> mods !! i = Some d ->
       (exists raw, rawCells row !! 0 = Some raw /\ creatorCell row = Js.trim raw)
       /\ (creatorCell row <> "" -> Draft.creator d = creatorCell row)
       /\ (creatorCell row = "" ->
           (exists j prev,
               j < i /\ rows !! j = Some prev /\ creatorCell prev <> ""
               /\ (forall k r, j < k < i ->
                               rows !! k = Some r -> creatorCell r = "")
               /\ Draft.creator d = creatorCell prev)
           \/ ((forall k r, k < i -> rows !! k = Some r -> creatorCell r = "")
               /\ Draft.creator d = "")).
Proof.
  cbn zeta. unfold parseMods. rewrite parseLoop_recordsFrom.
  split; [apply length_recordsFrom|]. intros i row d Hrow Hd. split.
  - apply creatorCell_trim.
    assert (5 <= List.length (rawCells row)); [|lia].
    eapply dataLines_cells, list_elem_of_lookup_2, Hrow.
  - by apply (recordsFrom_creator _ "" i).
Qed.

(** The second row of the sample table has an empty creator cell. *)
Lemma creator_carry_forward_witness :
  exists d,
    parseMods Sample.table !! 1 = Some d
    /\ creatorCell Sample.anotherRow = ""
    /\ Draft.creator d = "Alice".
Proof.
  destruct (creator_carry_forward Sample.table) as [_ H].
  destruct (parseMods Sample.table !! 1) as [d|] eqn:E; [|discriminate E].
  exists d. split; [done|]. split; [reflexivity|].
  destruct (H 1 Sample.anotherRow d eq_refl E) as (_ & _ & Hempty).
  destruct (Hempty eq_refl) as [(j & prev & Hj & Hprev & _ & _ & ->)|[Hall _]].
  - assert (j = 0) as -> by lia. cbv in Hprev. injection Hprev as <-.
    reflexivity.
  - specialize (Hall 0 Sample.coolRow (Nat.lt_0_succ 0) eq_refl).
    discriminate Hall.
Defined.
(** ** Functions that wait *)

Ltac async :=
  unfold mbind, mret, Async_bind, Async_ret, modify, get, throw, tryCatch.

Lemma bind_done {A B} (a : A) (k : A -> Proc B) : (Done a ≫= k) = k a.
Proof. reflexivity. Qed.

Lemma bind_act {A B} effect (next : RunState -> Proc A) (k : A -> Proc B) :
  (Act effect next ≫= k) = Act effect (fun st => next st ≫= k).
Proof. reflexivity. Qed.

Lemma bind_wait {A B} (rest : Proc A) (k : A -> Proc B) :
  (Await rest ≫= k) = Await (rest ≫= k).
Proof. reflexivity. Qed.

Lemma bind_failed {A B} (k : A -> Proc B) : (Failed ≫= k) = Failed.
Proof. reflexivity. Qed.

Lemma stateOf_withState {A} (o : Outcome A) st : stateOf (withState o st) = st.
Proof. by destruct o. Qed.

Section Reaches.
Context (I : RunState -> RunState -> Prop).

Lemma Reaches_done_iff {A} (a : A) st o :
  Reaches I (Done a) st o <-> o = Resolved a st.
Proof. split; [by inversion 1|intros ->; constructor]. Qed.

Lemma Reaches_failed_iff {A} st (o : Outcome A) :
  Reaches I Failed st o <-> o = Thrown st.
Proof. split; [by inversion 1|intros ->; constructor]. Qed.

Lemma Reaches_act_iff {A} effect (next : RunState -> Proc A) st o :
  Reaches I (Act effect next) st o <-> Reaches I (next st) (effect st) o.
Proof. split; [by inversion 1|by constructor]. Qed.

Lemma Reaches_wait_iff {A} (rest : Proc A) st o :
  Reaches I (Await rest) st o <-> exists st', I st st' /\ Reaches I rest st' o.
Proof.
  split; [inversion 1; eauto|intros (st' & ? & ?); by econstructor].
Qed.

Lemma Reaches_bind {A B} (p : Proc A) (k : A -> Proc B) st o :
  Reaches I (p ≫= k) st o
  <-> (exists a st1, Reaches I p st (Resolved a st1) /\ Reaches I (k a) st1 o)
      \/ (exists st1, Reaches I p st (Thrown st1) /\ o = Thrown st1).
Proof.
  revert st. induction p as [a| |effect next IH|rest IH]; intros st.
  - rewrite bind_done. split.
    + intros H. left. exists a, st. split; [constructor|done].
    + intros [(a' & st1 & [= -> ->]%Reaches_done_iff & H)
             |(st1 & [=]%Reaches_done_iff & _)]. done.
  - rewrite bind_failed, Reaches_failed_iff. split.
    + intros ->. right. exists st. split; [constructor|done].
    + intros [(a' & st1 & [=]%Reaches_failed_iff & _)
             |(st1 & [= ->]%Reaches_failed_iff & ->)]. done.
  - rewrite bind_act, Reaches_act_iff, IH.
    by setoid_rewrite Reaches_act_iff.
  - rewrite bind_wait, Reaches_wait_iff. setoid_rewrite IH.
    setoid_rewrite Reaches_wait_iff. split.
    + intros (st' & HI & [(a & st1 & H1 & H2)|(st1 & H1 & ->)]);
        [left|right]; eauto 10.
    + intros [(a & st1 & (st' & HI & H1) & H2)|(st1 & (st' & HI & H1) & ->)];
        exists st'; (split; [done|]); [left|right]; eauto.
Qed.

Lemma Reaches_await {A} (p : Proc A) st o :
  Reaches I (await p) st o
  <-> exists o1 st',
        Reaches I p st o1 /\ I (stateOf o1) st' /\ o = withState o1 st'.
Proof.
  revert st. induction p as [a| |effect next IH|rest IH]; intros st;
    cbn [await].
  - rewrite Reaches_wait_iff. setoid_rewrite Reaches_done_iff. split.
    + intros (st' & HI & ->). by exists (Resolved a st), st'.
    + intros (o1 & st' & -> & HI & ->). by exists st'.
  - rewrite Reaches_wait_iff. setoid_rewrite Reaches_failed_iff. split.
    + intros (st' & HI & ->). by exists (Thrown st), st'.
    + intros (o1 & st' & -> & HI & ->). by exists st'.
  - rewrite Reaches_act_iff, IH. by setoid_rewrite Reaches_act_iff.
  - rewrite Reaches_wait_iff. setoid_rewrite IH.
    setoid_rewrite Reaches_wait_iff. split.
    + intros (st1 & HI & o1 & st' & H1 & H2 & ->). eauto 10.
    + intros (o1 & st' & (st1 & HI & H1) & H2 & ->). eauto 10.
Qed.

Lemma Reaches_call {A} (m : Async A) st o :
  Reaches I (call m) st o <-> o = m st.
Proof.
  unfold call. rewrite Reaches_act_iff.
  destruct (m st) as [a st'|st']; cbn [stateOf];
    [apply Reaches_done_iff|apply Reaches_failed_iff].
Qed.

Lemma Reaches_tryCatch {A} (body handler : Proc A) st o :
  Reaches I (tryCatchProc body handler) st o
  <-> (exists a st1, Reaches I body st (Resolved a st1) /\ o = Resolved a st1)
      \/ (exists st1, Reaches I body st (Thrown st1) /\ Reaches I handler st1 o).
Proof.
  revert st. induction body as [a| |effect next IH|rest IH]; intros st;
    cbn [tryCatchProc].
  - rewrite Reaches_done_iff. split.
    + intros ->. left. exists a, st. split; [constructor|done].
    + intros [(a' & st1 & [= -> ->]%Reaches_done_iff & ->)
             |(st1 & [=]%Reaches_done_iff & _)]. done.
  - split.
    + intros H. right. exists st. split; [constructor|done].
    + intros [(a' & st1 & [=]%Reaches_failed_iff & _)
             |(st1 & [= ->]%Reaches_failed_iff & H)]. done.
  - rewrite Reaches_act_iff, IH. by setoid_rewrite Reaches_act_iff.
  - rewrite Reaches_wait_iff. setoid_rewrite IH.
    setoid_rewrite Reaches_wait_iff. split.
    + intros (st' & HI & [(a & st1 & H1 & ->)|(st1 & H1 & H2)]);
        [left|right]; eauto 10.
    + intros [(a & st1 & (st' & HI & H1) & ->)|(st1 & (st' & HI & H1) & H2)];
        exists st'; (split; [done|]); [left|right]; eauto.
Qed.

(** Run alone, the function ends as it does when nothing happens while it
    waits. *)
Lemma alone_Reaches {A} (p : Proc A) st :
  (forall st0, I st0 st0) -> Reaches I p st (alone p st).
Proof.
  intros Hrefl. revert st.
  induction p as [a| |effect next IH|rest IH]; intros st; cbn [alone].
  - constructor.
  - constructor.
  - constructor. apply IH.
  - econstructor; [apply Hrefl|apply IH].
Qed.

End Reaches.

(** The less the others do, the fewer the ways the function ends. *)
Lemma Reaches_mono {A} (I I' : RunState -> RunState -> Prop) (p : Proc A) st o :
  (forall st1 st2, I st1 st2 -> I' st1 st2) ->
  Reaches I p st o -> Reaches I' p st o.
Proof. intros HI. induction 1; econstructor; eauto. Qed.

(** What holds of the acts of a function holds of the function. *)

Lemma Always_impl {A} (R R' : RunState -> RunState -> Prop)
    (post post' : A -> Prop) p :
  (forall st st', R st st' -> R' st st') ->
  (forall a, post a -> post' a) ->
  Always R post p -> Always R' post' p.
Proof. intros HR Hp. induction 1; constructor; auto. Qed.

Lemma Always_bind {A B} R (postA : A -> Prop) (post : B -> Prop) p
    (k : A -> Proc B) :
  Always R postA p ->
  (forall a, postA a -> Always R post (k a)) ->
  Always R post (p ≫= k).
Proof.
  intros Hp Hk. induction Hp as [a Ha| |effect next He Hn IH|rest Hr IH].
  - rewrite bind_done. auto.
  - constructor.
  - rewrite bind_act. constructor; auto.
  - rewrite bind_wait. by constructor.
Qed.

Lemma Always_await {A} R (post : A -> Prop) p :
  Always R post p -> Always R post (await p).
Proof. induction 1; cbn [await]; repeat constructor; auto. Qed.

Lemma Always_tryCatch {A} R (post : A -> Prop) body handler :
  Always R post body -> Always R post handler ->
  Always R post (tryCatchProc body handler).
Proof. intros Hb Hh. induction Hb; cbn [tryCatchProc]; try constructor; auto. Qed.

Lemma Always_call {A} R (post : A -> Prop) (m : Async A) :
  (forall st, R st (stateOf (m st))) ->
  (forall st a st', m st = Resolved a st' -> post a) ->
  Always R post (call m).
Proof.
  intros HR Hp. constructor; [done|]. intros st.
  destruct (m st) as [a st'|st'] eqn:E; constructor. eauto.
Qed.

Lemma Always_ret {A} R (post : A -> Prop) a :
  post a -> Always R post (mret a).
Proof. by constructor. Qed.

Lemma Always_update R (f : RunState -> RunState) :
  (forall st, R st (f st)) -> Always R (fun _ => True) (update f).
Proof. intros H. constructor; [done|]. by constructor. Qed.

Section Preorder.
Context (T : RunState -> RunState -> Prop).
Context (T_refl : forall st, T st st).
Context (T_trans : forall st1 st2 st3, T st1 st2 -> T st2 st3 -> T st1 st3).

Lemma Always_advance {A} (R : RunState -> RunState -> Prop)
    (post : A -> Prop) p st st' task :
  (forall st st', R st st' -> T st st') ->
  Always R post p ->
  advance p st = (st', task) ->
  T st st'
  /\ match task with
     | Waiting rest => Always R post rest
     | Settled (Some a) => post a
     | Settled None => True
     end.
Proof.
  intros HR Hp. revert st.
  induction Hp as [a Ha| |effect next He Hn IH|rest Hr IH]; intros st;
    cbn [advance].
  - intros [= <- <-]. auto.
  - intros [= <- <-]. auto.
  - intros H. apply IH in H as [H1 H2]. split; [|done].
    eapply T_trans; [apply HR|]; eauto.
  - intros [= <- <-]. auto.
Qed.

End Preorder.

(** How often a function waits. *)

Lemma Within_mono {A} n m (p : Proc A) : n <= m -> Within n p -> Within m p.
Proof.
  intros Hle H. revert m Hle.
  induction H as [n a|n|n effect next Hn IH|n rest Hr IH]; intros m Hle.
  - constructor.
  - constructor.
  - constructor. auto.
  - destruct m as [|m]; [lia|]. constructor. apply IH. lia.
Qed.

Lemma Within_bind {A B} n m (p : Proc A) (k : A -> Proc B) :
  Within n p -> (forall a, Within m (k a)) -> Within (n + m) (p ≫= k).
Proof.
  intros Hp Hk. induction Hp as [n a|n|n effect next Hn IH|n rest Hr IH].
  - rewrite bind_done. apply (Within_mono m); [lia|done].
  - constructor.
  - rewrite bind_act. constructor. auto.
  - rewrite bind_wait. cbn [Nat.add]. by constructor.
Qed.

Lemma Within_await {A} n (p : Proc A) : Within n p -> Within (S n) (await p).
Proof.
  induction 1 as [n a|n|n effect next Hn IH|n rest Hr IH]; cbn [await].
  - repeat constructor.
  - repeat constructor.
  - constructor. auto.
  - by constructor.
Qed.

Lemma Within_call {A} (m : Async A) : Within 0 (call m).
Proof. constructor. intros st. destruct (m st); constructor. Qed.

Lemma Within_tryCatch {A} n m (body handler : Proc A) :
  Within n body -> Within m handler ->
  Within (n + m) (tryCatchProc body handler).
Proof.
  intros Hb Hh.
  induction Hb as [n a|n|n effect next Hn IH|n rest Hr IH];
    cbn [tryCatchProc].
  - constructor.
  - apply (Within_mono m); [lia|done].
  - constructor. auto.
  - cbn [Nat.add]. by constructor.
Qed.

Lemma Within_advance {A} n (p : Proc A) st st' rest :
  Within n p -> advance p st = (st', Waiting rest) ->
  exists m, n = S m /\ Within m rest.
Proof.
  intros Hp. revert st.
  induction Hp as [n a|n|n effect next Hn IH|n q Hr IH]; intros st;
    cbn [advance]; try done.
  - apply IH.
  - intros [= <- <-]. eauto.
Qed.

(** ** MD5 digests *)

Lemma hexDigit_lower x : isLowerHex (MD5.hexDigit x) = true.
Proof.
  unfold MD5.hexDigit.
  repeat match goal with
         | |- context [match ?x with _ => _ end] => destruct x
         end; reflexivity.
Qed.

Lemma md5_hex_format s :
  String.length (MD5.hex s) = 32 /\ allChars isLowerHex (MD5.hex s) = true.
Proof.
  unfold MD5.hex. destruct (MD5.digest (MD5.bytesOf s)) as [[[a b] c] d].
  unfold MD5.hexWord, MD5.hexByte. split; [reflexivity|].
  cbn [allChars]. by rewrite !hexDigit_lower.
Qed.

Lemma hashed_local_path url :
  IsHashedLocalPath (localImagePrefix +:+ MD5.hex url +:+ ".jpg").
Proof.
  exists (MD5.hex url). split; [done|]. apply md5_hex_format.
Qed.

(** ** Materializing an image *)

(** [maybeMaterializeImage] case by case. *)
Lemma maybeMaterializeImage_cases w url st :
  let filename := MD5.hex url +:+ ".jpg" in
  let st1 := logRequest url st in
  maybeMaterializeImage w url st
  = if negb (isGif url) then Resolved url st
    else if bool_decide (is_Some (files st !! filename))
    then Resolved (localImagePrefix +:+ filename) st
    else match net w url with
         | None => Thrown st1
         | Some response =>
             if negb (ok response) then Resolved url st1
             else match sharpJpeg w (arrayBuffer response) with
                  | None => Resolved url st1
                  | Some frame =>
                      Resolved (localImagePrefix +:+ filename)
                        (setFiles (<[filename := frame]> (files st1)) st1)
                  end
         end.
Proof.
  cbn zeta. unfold maybeMaterializeImage. fold (isGif url).
  destruct (isGif url); [|done]. cbn [negb].
  unfold ensureImageDir, fileExists, downloadBuffer, fetch, writeFile. async.
  destruct (bool_decide (is_Some (files st !! (MD5.hex url +:+ ".jpg"))));
    [done|]. cbn [negb].
  destruct (net w url) as [response|]; [|done].
  destruct (ok response); [|done]. cbn [negb].
  by destruct (sharpJpeg w (arrayBuffer response)).
Qed.

(** C7 at the input on which the code departs from it: a GIF that is not
    in the image directory yet and whose download is rejected by the
    network.  [maybeMaterializeImage] rejects; it does not give the URL
    back. *)
Theorem maybeMaterializeImage_rejects_on_network_error :
  isGif Sample.gifUrl = true
  /\ net Sample.gifUnreachable Sample.gifUrl = None
  /\ maybeMaterializeImage Sample.gifUnreachable Sample.gifUrl Sample.freshDisk
     = Thrown (logRequest Sample.gifUrl Sample.freshDisk)
  /\ forall w url st,
       isGif url = true ->
       files st !! (MD5.hex url +:+ ".jpg") = None ->
       net w url = None ->
       maybeMaterializeImage w url st = Thrown (logRequest url st).
Proof.
  split; [reflexivity|]. split; [reflexivity|]. split; [reflexivity|].
  intros w url st Hgif Hfile Hnet. rewrite maybeMaterializeImage_cases.
  rewrite Hgif, Hfile, Hnet. cbn [negb].
  rewrite bool_decide_eq_false_2; [done|]. by intros [? ?].
Qed.

(** What [maybeMaterializeImage] resolves with. *)
Lemma maybeMaterializeImage_resolved w url st image st' :
  maybeMaterializeImage w url st = Resolved image st' ->
  (image = url /\ files st' = files st)
  \/ (isGif url = true
      /\ image = localImagePrefix +:+ MD5.hex url +:+ ".jpg"
      /\ is_Some (files st' !! (MD5.hex url +:+ ".jpg"))
      /\ (files st' = files st
          \/ exists frame,
               files st' = <[MD5.hex url +:+ ".jpg" := frame]> (files st))).
Proof.
  rewrite maybeMaterializeImage_cases. cbn zeta.
  destruct (isGif url); cbn [negb]; [|intros [= <- <-]; by left].
  destruct (bool_decide (is_Some (files st !! (MD5.hex url +:+ ".jpg"))))
    eqn:E.
  { intros [= <- <-]. right. apply bool_decide_eq_true in E. auto. }
  destruct (net w url) as [response|]; [|done].
  destruct (ok response); cbn [negb]; [|intros [= <- <-]; by left].
  destruct (sharpJpeg w (arrayBuffer response)) as [frame|];
    [|intros [= <- <-]; by left].
  intros [= <- <-]. right. cbn. rewrite lookup_insert_eq. eauto 6.
Qed.

(** ** Finding the image of a README *)

(** [resolveImageUrl] leaves the state alone; what it resolves with is the
    reference itself, [https:] in front of a protocol-relative one, or what
    the URL parser makes of it against the directory of the mod. *)
Lemma resolveImageUrl_cases w url relativePath st :
  (resolveImageUrl w url relativePath st = Thrown st)
  \/ (resolveImageUrl w url relativePath st = Resolved None st)
  \/ exists image,
       resolveImageUrl w url relativePath st = Resolved (Some image) st
       /\ isValidImage (stripTitle url) = true
       /\ ((image = stripTitle url /\ isAbsoluteHttp image = true)
           \/ (image = "https:" +:+ stripTitle url
               /\ Js.startsWith (stripTitle url) "//" = true)
           \/ (exists relative,
                  URL_href w relative
                    (RAW_BASE_URL +:+ "/" +:+ relativePath +:+ "/")
                  = Some image
                  /\ isAbsoluteHttp (stripTitle url) = false
                  /\ Js.startsWith (stripTitle url) "//" = false
                  /\ (stripTitle url = "./" +:+ relative
                      \/ (Js.startsWith (stripTitle url) "./" = false
                          /\ relative = stripTitle url)))).
Proof.
  unfold resolveImageUrl, newURL. async.
  destruct (isValidImage (stripTitle url)) eqn:Hvalid; cbn [negb]; [|auto].
  destruct (isAbsoluteHttp (stripTitle url)) eqn:Habs.
  { right. right. eauto 10. }
  destruct (Js.startsWith (stripTitle url) "//") eqn:Hrel.
  { right. right. eauto 10. }
  fold (stripDotSlash (stripTitle url)).
  destruct (URL_href w (stripDotSlash (stripTitle url))
              (RAW_BASE_URL +:+ "/" +:+ relativePath +:+ "/")) eqn:E; [|auto].
  right. right. eexists. split; [done|]. split; [done|]. right. right.
  exists (stripDotSlash (stripTitle url)). repeat split; auto.
  destruct (stripDotSlash_spec (stripTitle url)) as [H|[H1 H2]]; auto.
Qed.

Lemma resolveImageUrl_state w url relativePath st st' :
  stateOf (resolveImageUrl w url relativePath st) = st
  /\ resolveImageUrl w url relativePath st'
     = match resolveImageUrl w url relativePath st with
       | Resolved o _ => Resolved o st'
       | Thrown _ => Thrown st'
       end.
Proof.
  unfold resolveImageUrl, newURL. async.
  destruct (isValidImage (stripTitle url)); cbn [negb]; [|done].
  destruct (isAbsoluteHttp (stripTitle url)); [done|].
  destruct (Js.startsWith (stripTitle url) "//"); [done|].
  by destruct (URL_href w _ _).
Qed.

Lemma firstCandidate_cases w relativePath targets st :
  (firstCandidate w relativePath targets st = Thrown st)
  \/ (firstCandidate w relativePath targets st = Resolved None st)
  \/ exists image,
       firstCandidate w relativePath targets st = Resolved (Some image) st
       /\ ResolvedReference w relativePath image.
Proof.
  induction targets as [|target rest IH]; cbn [firstCandidate]; async; [auto|].
  destruct (resolveImageUrl_cases w target relativePath st)
    as [->|[->|(image & E & _)]]; [auto|exact IH|].
  rewrite E. cbn [Js.truthyOpt].
  destruct (Js.truthy image); [|exact IH].
  right. right. exists image. split; [done|]. exists target. intros st0.
  destruct (resolveImageUrl_state w target relativePath st st0) as [_ ->].
  by rewrite E.
Qed.

Lemma extractFirstImage_cases w markdown relativePath st :
  (extractFirstImage w markdown relativePath st = Thrown st)
  \/ (extractFirstImage w markdown relativePath st = Resolved None st)
  \/ exists image,
       extractFirstImage w markdown relativePath st = Resolved (Some image) st
       /\ ResolvedReference w relativePath image.
Proof.
  unfold extractFirstImage. async.
  destruct (firstCandidate_cases w relativePath
              (scanAll markdownImageAt 0 markdown) st)
    as [->|[->|(image & -> & H)]]; [auto| |eauto].
  apply firstCandidate_cases.
Qed.

(** [fetchPreviewImage] never rejects: it makes one request, for the
    README of the mod, and resolves. *)
Lemma fetchPreviewImage_cases w relativePath st :
  let st1 := logRequest (readmeUrlOf relativePath) st in
  (fetchPreviewImage w relativePath st = Resolved None st1)
  \/ exists image,
       fetchPreviewImage w relativePath st = Resolved (Some image) st1
       /\ ResolvedReference w relativePath image.
Proof.
  cbn zeta. unfold fetchPreviewImage, fetch. async.
  destruct (net w (readmeUrlOf relativePath)) as [response|]; [|auto].
  destruct (ok response); cbn [negb]; [|auto].
  destruct (extractFirstImage_cases w (text response) relativePath
              (logRequest (readmeUrlOf relativePath) st))
    as [->|[->|(image & -> & H)]]; eauto.
Qed.

(** What [maybeMaterializeImage] leaves untouched. *)
Lemma maybeMaterializeImage_frame w url st :
  let st' := stateOf (maybeMaterializeImage w url st) in
  cache st' = cache st
  /\ usedLocalImages st' = usedLocalImages st
  /\ modsJson st' = modsJson st
  /\ imageCacheFile st' = imageCacheFile st
  /\ (requests st' = requests st \/ requests st' = url :: requests st)
  /\ (forall f, is_Some (files st !! f) -> is_Some (files st' !! f)).
Proof.
  rewrite maybeMaterializeImage_cases. cbn zeta.
  destruct (isGif url); cbn [negb]; [|cbn; auto 10].
  destruct (bool_decide _); [cbn; auto 10|].
  destruct (net w url) as [response|]; [|cbn; auto 10].
  destruct (ok response); cbn [negb]; [|cbn; auto 10].
  destruct (sharpJpeg w (arrayBuffer response)) as [frame|]; [|cbn; auto 10].
  cbn. repeat (split; [auto|]). intros f Hf.
  destruct (decide (MD5.hex url +:+ ".jpg" = f)) as [->|Hne].
  - rewrite lookup_insert_eq. eauto.
  - by rewrite lookup_insert_ne.
Qed.

Lemma maybeMaterializeImage_thrown w url st st' :
  maybeMaterializeImage w url st = Thrown st' ->
  net w url = None /\ isGif url = true.
Proof.
  rewrite maybeMaterializeImage_cases. cbn zeta.
  destruct (isGif url); cbn [negb]; [|done].
  destruct (bool_decide _); [done|].
  destruct (net w url) as [response|]; [|done].
  destruct (ok response); cbn [negb]; [|done].
  by destruct (sharpJpeg w (arrayBuffer response)).
Qed.

Lemma truthy_local_path s : Js.truthy (localImagePrefix +:+ s) = true.
Proof. reflexivity. Qed.

Lemma isLocalImage_hashed url :
  isLocalImage (Some (localImagePrefix +:+ MD5.hex url +:+ ".jpg")) = true.
Proof.
  unfold isLocalImage. cbn [Js.truthyOpt default]. rewrite truthy_local_path.
  apply startsWith_iff. eauto.
Qed.

(** ** The functions of the callbacks, run alone *)

Lemma alone_bind {A B} (p : Proc A) (k : A -> Proc B) st :
  alone (p ≫= k) st
  = match alone p st with
    | Resolved a st1 => alone (k a) st1
    | Thrown st1 => Thrown st1
    end.
Proof.
  revert st. induction p as [a| |effect next IH|rest IH]; intros st; try done.
  - rewrite bind_act. cbn [alone]. apply IH.
  - rewrite bind_wait. cbn [alone]. apply IH.
Qed.

Lemma alone_ret {A} (a : A) st : alone (mret a) st = Resolved a st.
Proof. reflexivity. Qed.

Lemma alone_await {A} (p : Proc A) st : alone (await p) st = alone p st.
Proof.
  revert st. induction p as [a| |effect next IH|rest IH]; intros st;
    cbn [await alone]; auto.
Qed.

Lemma alone_call {A} (m : Async A) st : alone (call m) st = m st.
Proof. unfold call. cbn [alone]. by destruct (m st). Qed.

Lemma alone_tryCatch {A} (body handler : Proc A) st :
  alone (tryCatchProc body handler) st
  = match alone body st with
    | Resolved a st1 => Resolved a st1
    | Thrown st1 => alone handler st1
    end.
Proof.
  revert st. induction body as [a| |effect next IH|rest IH]; intros st;
    cbn [tryCatchProc alone]; auto.
Qed.

Lemma alone_Proc_bind {A B} (p : Proc A) (k : A -> Proc B) st :
  alone (Proc_bind A B k p) st
  = match alone p st with
    | Resolved a st1 => alone (k a) st1
    | Thrown st1 => Thrown st1
    end.
Proof. apply alone_bind. Qed.

Lemma alone_Proc_ret {A} (a : A) st : alone (Proc_ret A a) st = Resolved a st.
Proof. reflexivity. Qed.

Ltac alone :=
  repeat progress
    (rewrite ?alone_bind, ?alone_Proc_bind, ?alone_await, ?alone_ret,
       ?alone_Proc_ret, ?alone_call, ?alone_tryCatch; cbv beta iota).

(** Run alone, [fetchPreviewImage] and [maybeMaterializeImage] as the
    callbacks run them are the functions studied above. *)
Lemma alone_fetchPreviewImage w relativePath st :
  alone (Callback.fetchPreviewImage w relativePath) st
  = fetchPreviewImage w relativePath st.
Proof.
  unfold Callback.fetchPreviewImage, fetchPreviewImage, fetch. async. alone.
  destruct (net w (readmeUrlOf relativePath)) as [response|]; [|done].
  destruct (ok response); cbn [negb]; [|by alone]. alone.
  by destruct (extractFirstImage w (text response) relativePath _).
Qed.

Lemma alone_maybeMaterializeImage w url st :
  alone (Callback.maybeMaterializeImage w url) st
  = maybeMaterializeImage w url st.
Proof.
  unfold Callback.maybeMaterializeImage, maybeMaterializeImage.
  destruct (negb _); [done|].
  unfold Callback.ensureImageDir, Callback.fileExists, Callback.downloadBuffer.
  cbn [access]. unfold ensureImageDir, fileExists, downloadBuffer, fetch, sharp,
    writeFile. async. alone.
  destruct (bool_decide _); cbn [negb]; [by alone|]. alone.
  destruct (net w url) as [response|]; [|done].
  destruct (ok response); cbn [negb]; [|by alone]. alone.
  destruct (sharpJpeg w (arrayBuffer response)) as [frame|]; [|done].
  by alone.
Qed.

(** ** The functions of the callbacks, among the others *)

Lemma fetch_cases w url st :
  fetch w url st
  = match net w url with
    | Some response => Resolved response (logRequest url st)
    | None => Thrown (logRequest url st)
    end.
Proof. unfold fetch. async. by destruct (net w url). Qed.

Lemma access_cases w target st :
  exists present, access w target st = Resolved present st.
Proof. destruct target; cbn [access]; unfold fileExists; async; eauto. Qed.

Lemma Reaches_ret {A} I (a : A) st o :
  Reaches I (mret a) st o <-> o = Resolved a st.
Proof. apply Reaches_done_iff. Qed.

Lemma Reaches_update I f st o :
  Reaches I (update f) st o <-> o = Resolved tt (f st).
Proof. unfold update. rewrite Reaches_act_iff. apply Reaches_done_iff. Qed.

Lemma Reaches_readCache I key st o :
  Reaches I (readCache key) st o
  <-> o = match Cache.get (cache st) key with
          | Some found => Resolved found st
          | None => Thrown st
          end.
Proof.
  unfold readCache. rewrite Reaches_act_iff.
  destruct (Cache.get (cache st) key);
    [apply Reaches_done_iff|apply Reaches_failed_iff].
Qed.

Lemma Reaches_writeCache I key e st o :
  Reaches I (writeCache key e) st o
  <-> o = match Cache.set (cache st) key e with
          | Some c => Resolved tt (setCache c st)
          | None => Thrown st
          end.
Proof.
  unfold writeCache. rewrite Reaches_act_iff.
  destruct (Cache.set (cache st) key e);
    [apply Reaches_done_iff|apply Reaches_failed_iff].
Qed.

Lemma Reaches_await_call {A} I (m : Async A) st o :
  Reaches I (await (call m)) st o
  <-> exists st', I (stateOf (m st)) st' /\ o = withState (m st) st'.
Proof.
  rewrite Reaches_await. setoid_rewrite Reaches_call. split.
  - intros (o1 & st' & -> & H & ->). eauto.
  - intros (st' & H & ->). eauto.
Qed.

Lemma Reaches_await_ret {A} I (a : A) st o :
  Reaches I (await (mret a)) st o <-> exists st', I st st' /\ o = Resolved a st'.
Proof.
  rewrite Reaches_await. setoid_rewrite Reaches_ret. split.
  - intros (o1 & st' & -> & H & ->). eauto.
  - intros (st' & H & ->). exists (Resolved a st), st'. eauto.
Qed.

Lemma Calm_trans st1 st2 st3 : Calm st1 st2 -> Calm st2 st3 -> Calm st1 st3.
Proof. intros [? ?] [? ?]. split; congruence. Qed.

Lemma Undisturbed_refl st : Undisturbed st st.
Proof. by split. Qed.

Lemma Undisturbed_Calm st st' : Undisturbed st st' -> Calm st st'.
Proof. by intros [? _]. Qed.

Lemma get_set c key e c' :
  Cache.set c key e = Some c' ->
  Cache.get c' key = Some (Cache.Value (Cache.entry e)).
Proof.
  destruct c as [|own proto]; [done|]. cbn [Cache.set]. intros [= <-].
  destruct (String.eqb key "__proto__") eqn:Hkey; cbn [andb].
  - destruct (bool_decide (is_Some (own !! key))) eqn:Hown; cbn [negb].
    + cbn [Cache.get]. by rewrite lookup_insert_eq.
    + apply bool_decide_eq_false in Hown.
      cbn [Cache.get]. destruct (own !! key) eqn:E; [by destruct Hown|].
      unfold Cache.inherited. by rewrite Hkey.
  - cbn [Cache.get]. by rewrite lookup_insert_eq.
Qed.

Section Among.
Context (I : RunState -> RunState -> Prop).
Context (I_trans : forall st1 st2 st3, I st1 st2 -> I st2 st3 -> I st1 st3).
Context (I_closed : forall st1 st2 st3, I st1 st2 -> Calm st2 st3 -> I st1 st3).

(** [await fileExists(path)]: what [fs.access] finds when it is called. *)
Lemma fileExists_reaches w target st o :
  Reaches I (await (Callback.fileExists w target)) st o ->
  exists present st',
    access w target st = Resolved present st
    /\ I st st' /\ o = Resolved present st'.
Proof.
  intros (o1 & st' & H & HI & ->)%Reaches_await.
  unfold Callback.fileExists in H.
  apply Reaches_await_call in H as (st1 & HI1 & ->).
  destruct (access_cases w target st) as [present E]. rewrite E in *.
  cbn [stateOf withState] in *. eauto 10.
Qed.

(** [await fetchPreviewImage(relativePath)]: the README is requested at
    once, and the function resolves. *)
Lemma fetchPreviewImage_reaches w relativePath st o :
  Reaches I (await (Callback.fetchPreviewImage w relativePath)) st o ->
  exists image st',
    o = Resolved image st'
    /\ I (logRequest (readmeUrlOf relativePath) st) st'
    /\ (image = None
        \/ exists reference,
             image = Some reference
             /\ ResolvedReference w relativePath reference).
Proof.
  intros (o1 & st' & H & HI & ->)%Reaches_await.
  unfold Callback.fetchPreviewImage in H.
  assert (Hbody : forall o2,
    Reaches I
      (response ← await (call (fetch w (readmeUrlOf relativePath)));
       if negb (ok response) then mret None
       else markdown ← await (mret (text response));
            call (extractFirstImage w markdown relativePath)) st o2 ->
    I (logRequest (readmeUrlOf relativePath) st) (stateOf o2)
    /\ forall image st2, o2 = Resolved image st2 ->
         image = None
         \/ exists reference,
              image = Some reference
              /\ ResolvedReference w relativePath reference).
  { intros o2 H2.
    apply Reaches_bind in H2 as [(response & st1 & H1 & H2)|(st1 & H1 & ->)];
      apply Reaches_await_call in H1 as (st2 & HI1 & E);
      rewrite fetch_cases in *;
      destruct (net w (readmeUrlOf relativePath)) as [r|];
      cbn [stateOf withState] in *; try done.
    - injection E as <- <-.
      destruct (ok response); cbn [negb] in H2.
      + apply Reaches_bind in H2
          as [(markdown & st3 & H3 & H4)|(st3 & H3 & ->)];
          apply Reaches_await_ret in H3 as (st4 & HI4 & [= -> ->]).
        apply Reaches_call in H4. subst o2.
        destruct (extractFirstImage_cases w (text response) relativePath st4)
          as [->|[->|(image & -> & Href)]]; cbn [stateOf];
          (split; [by eapply I_trans|]); intros ? ? [= <- <-]; eauto.
      + apply Reaches_ret in H2 as ->. cbn [stateOf]. split; [done|].
        intros ? ? [= <- <-]. auto.
    - injection E as <-. done. }
  apply Reaches_tryCatch in H as [(image & st1 & H & ->)|(st1 & H & Hh)].
  - destruct (Hbody _ H) as [H1 H2]. cbn [stateOf withState] in *.
    exists image, st'. split; [done|]. split; [by eapply I_trans|]. eauto.
  - destruct (Hbody _ H) as [H1 _]. apply Reaches_ret in Hh as ->.
    cbn [stateOf withState] in *.
    exists None, st'. split; [done|]. split; [by eapply I_trans|]. auto.
Qed.

Lemma ensureImageDir_reaches st o :
  Reaches I (await Callback.ensureImageDir) st o ->
  exists st', I st st' /\ o = Resolved tt st'.
Proof.
  intros (o1 & st' & H & HI & ->)%Reaches_await.
  unfold Callback.ensureImageDir in H.
  apply Reaches_await_call in H as (st1 & HI1 & ->).
  cbn in *. eauto.
Qed.

(** [await downloadBuffer(url)]: the URL is requested at once; the
    function rejects when the network rejects the request. *)
Lemma downloadBuffer_reaches w url st o :
  Reaches I (await (Callback.downloadBuffer w url)) st o ->
  I (logRequest url st) (stateOf o)
  /\ ((exists buffer st', o = Resolved buffer st')
      \/ (net w url = None /\ exists st', o = Thrown st')).
Proof.
  intros (o1 & st' & H & HI & ->)%Reaches_await.
  rewrite stateOf_withState. unfold Callback.downloadBuffer in H.
  apply Reaches_bind in H as [(response & st1 & H1 & H2)|(st1 & H1 & ->)];
    apply Reaches_await_call in H1 as (st2 & HI1 & E);
    rewrite fetch_cases in *; destruct (net w url) as [r|];
    cbn [stateOf withState] in *; try done.
  - injection E as <- <-. destruct (ok response); cbn [negb] in H2.
    + apply Reaches_bind in H2 as [(buffer & st3 & H3 & H4)|(st3 & H3 & ->)];
        apply Reaches_await_ret in H3 as (st4 & HI4 & [= -> ->]).
      apply Reaches_ret in H4 as ->. cbn [stateOf withState] in *.
      split; [eauto|]. left. eauto.
    + apply Reaches_ret in H2 as ->. cbn [stateOf withState] in *.
      split; [eauto|]. left. eauto.
  - injection E as <-. split; [eauto|]. right. eauto.
Qed.

(** The [try] block of [maybeMaterializeImage]. *)
Lemma convert_reaches w buffer filename (local url : string) st o :
  Reaches I
    (tryCatchProc
       (frame ← await (call (sharp w buffer));
        _ ← await (call (writeFile filename frame));
        mret local)
       (mret url)) st o ->
  I st (stateOf o)
  /\ exists st', o = Resolved local st' \/ o = Resolved url st'.
Proof.
  assert (Hsharp : forall st0,
    sharp w buffer st0
    = match sharpJpeg w buffer with
      | Some frame => Resolved frame st0
      | None => Thrown st0
      end).
  { intros st0. unfold sharp. async. by destruct (sharpJpeg w buffer). }
  intros [(x & st1 & H & ->)|(st1 & H & Hh)]%Reaches_tryCatch.
  - apply Reaches_bind in H as [(frame & st2 & H1 & H2)|(st2 & H1 & [=])].
    apply Reaches_await_call in H1 as (st3 & HI1 & E).
    rewrite Hsharp in *. destruct (sharpJpeg w buffer) as [f|]; [|done].
    cbn [stateOf withState] in *. injection E as <- <-.
    apply Reaches_bind in H2 as [([] & st4 & H3 & H4)|(st4 & H3 & [=])].
    apply Reaches_await_call in H3 as (st5 & HI3 & E).
    unfold writeFile in *. async. cbn [stateOf withState] in *.
    injection E as <-. apply Reaches_ret in H4 as [= <- <-].
    split; [|eauto]. eapply I_trans; [|exact HI3].
    eapply I_closed; [exact HI1|]. by split.
  - apply Reaches_ret in Hh as ->. cbn [stateOf]. split; [|eauto].
    apply Reaches_bind in H as [(frame & st2 & H1 & H2)|(st2 & H1 & [= <-])];
      apply Reaches_await_call in H1 as (st3 & HI1 & E);
      rewrite Hsharp in *; destruct (sharpJpeg w buffer) as [f|];
      cbn [stateOf withState] in *; try done.
    + injection E as <- <-.
      apply Reaches_bind in H2 as [([] & st4 & H3 & H4)|(st4 & H3 & [= <-])].
      * by apply Reaches_ret in H4.
      * apply Reaches_await_call in H3 as (st5 & HI3 & E).
        unfold writeFile in *. async. done.
    + by injection E as <-.
Qed.

(** [await maybeMaterializeImage(url)]: at most one request, for the
    URL; the function resolves with the URL or, for a GIF, with the hashed
    local path, and rejects when the network rejects the request. *)
Lemma maybeMaterializeImage_reaches w url st o :
  Reaches I (await (Callback.maybeMaterializeImage w url)) st o ->
  (I st (stateOf o)
   \/ exists st1, I st st1 /\ I (logRequest url st1) (stateOf o))
  /\ ((exists st', o = Resolved url st')
      \/ (isGif url = true
          /\ exists st',
               o = Resolved (localImagePrefix +:+ MD5.hex url +:+ ".jpg") st')
      \/ (isGif url = true /\ net w url = None /\ exists st', o = Thrown st')).
Proof.
  intros (o1 & st' & H & HI & ->)%Reaches_await.
  rewrite stateOf_withState. unfold Callback.maybeMaterializeImage in H.
  fold (isGif url) in H. destruct (isGif url); cbn [negb] in H.
  2:{ apply Reaches_ret in H as ->. cbn [stateOf withState] in *.
      split; [by left|]. left. eauto. }
  apply Reaches_bind in H as [([] & st1 & H1 & H)|(st1 & H1 & ->)];
    apply ensureImageDir_reaches in H1 as (st2 & HI1 & [= <-]).
  apply Reaches_bind in H as [(present & st3 & H2 & H)|(st3 & H2 & ->)];
    apply fileExists_reaches in H2 as (p & st4 & _ & HI2 & [= <- <-]).
  destruct present; cbn [negb] in H.
  { apply Reaches_ret in H as ->. cbn [stateOf withState] in *.
    split; [left; eauto|]. right. left. eauto. }
  apply Reaches_bind in H as [(buffer & st5 & H3 & H)|(st5 & H3 & ->)];
    apply downloadBuffer_reaches in H3 as [HI3 H3]; cbn [stateOf] in HI3.
  - destruct buffer as [buffer|].
    + apply convert_reaches in H as [HI4 (st6 & H)].
      split; [right; exists st3; split; eauto|].
      destruct H as [->| ->]; cbn [withState]; [right; left|left]; eauto.
    + apply Reaches_ret in H as ->. cbn [stateOf withState] in *.
      split; [right; exists st3; split; eauto|]. left. eauto.
  - destruct H3 as [(? & ? & [=])|[Hnet _]]. cbn [stateOf withState] in *.
    split; [right; exists st3; split; eauto|]. right. right. eauto.
Qed.

(** The callback after a cache miss.  It comes back from its last wait
    in a state [s], the README requested and at most one other request
    made, for a GIF; it then stores the outcome and the change token of
    the draft under the source path and ends, unless the cache is [null]
    or the network has rejected the request for the GIF. *)
Lemma resolveFresh_reaches w sourcePath mod_ st o :
  Reaches I (resolveFresh w sourcePath mod_) st o ->
  exists s outcome,
    (I (logRequest (readmeUrlOf sourcePath) st) s
     \/ exists url s1,
          I (logRequest (readmeUrlOf sourcePath) st) s1
          /\ I (logRequest url s1) s)
    /\ FreshOutcome w sourcePath outcome
    /\ ((o = Thrown s /\ exists url, isGif url = true /\ net w url = None)
        \/ (Cache.set (cache s) sourcePath
              (CacheEntry.mk outcome (Draft.lastChanged mod_)) = None
            /\ o = Thrown s)
        \/ exists c st',
             Cache.set (cache s) sourcePath
               (CacheEntry.mk outcome (Draft.lastChanged mod_)) = Some c
             /\ o = Resolved (withImage outcome mod_) st'
             /\ cache st' = c
             /\ requests st' = requests s).
Proof.
  unfold resolveFresh. intros H.
  apply Reaches_bind in H as [(image & st1 & H1 & H)|(st1 & H1 & ->)];
    apply fetchPreviewImage_reaches in H1
      as (image' & st1' & [= <- <-] & HI1 & Himage).
  destruct (Js.truthyOpt image) eqn:Htruthy; cbn [negb] in H.
  2:{ exists st1, None. split; [by left|]. split; [done|].
      apply Reaches_bind in H as [([] & st2 & H2 & H)|(st2 & H2 & ->)];
        apply Reaches_writeCache in H2;
        destruct (Cache.set (cache st1) sourcePath _) as [c|]; try done.
      - injection H2 as ->. apply Reaches_ret in H as ->.
        right. right. exists c, (setCache c st1). done.
      - injection H2 as <-. auto. }
  destruct Himage as [->|(reference & -> & Href)]; [done|].
  cbn [default] in H.
  apply Reaches_bind in H as [([] & st2 & H2 & H)|(st2 & H2 & ->)];
    apply Reaches_update in H2 as [= ->].
  apply Reaches_bind in H as [(finalImage & st3 & H3 & H)|(st3 & H3 & ->)];
    apply maybeMaterializeImage_reaches in H3 as [Hpath Hresult];
    cbn [stateOf] in Hpath.
  2:{ destruct Hresult as [(? & [=])|[(_ & ? & [=])|(Hgif & Hnet & _)]].
      exists st3, None. split; [|split; [done|left; eauto]].
      destruct Hpath as [HI2|(sa & HI2 & HI3)].
      - left. eapply I_trans; [|exact HI2]. eapply I_closed; [exact HI1|].
        by split.
      - right. exists reference, sa. split; [|done].
        eapply I_trans; [|exact HI2]. eapply I_closed; [exact HI1|].
        by split. }
  exists st3, (Some finalImage). split.
  { destruct Hpath as [HI2|(sa & HI2 & HI3)].
    - left. eapply I_trans; [|exact HI2]. eapply I_closed; [exact HI1|].
      by split.
    - right. exists reference, sa. split; [|done].
      eapply I_trans; [|exact HI2]. eapply I_closed; [exact HI1|].
      by split. }
  split.
  { destruct Hresult as [(? & [= -> _])|[(Hgif & ? & [= -> _])|(_ & _ & ? & [=])]].
    - by left.
    - right. eauto. }
  apply Reaches_bind in H as [([] & st4 & H4 & H)|(st4 & H4 & ->)];
    apply Reaches_writeCache in H4;
    destruct (Cache.set (cache st3) sourcePath _) as [c|]; try done.
  2:{ injection H4 as <-. auto. }
  injection H4 as ->. right. right. exists c. unfold withImage.
  destruct (Js.truthy finalImage).
  - destruct (isLocalImage (Some finalImage)).
    + apply Reaches_bind in H as [([] & st5 & H5 & H)|(st5 & H5 & ->)];
        apply Reaches_update in H5 as [= ->].
      apply Reaches_ret in H as ->. eauto.
    + apply Reaches_ret in H as ->. eauto.
  - apply Reaches_ret in H as ->. eauto.
Qed.

End Among.
(** ** The reuse rule of the image cache *)

Lemma truthy_nonempty s : s <> "" -> Js.truthy s = true.
Proof. by destruct s. Qed.

(** The callback once it has read the cache. *)
Lemma resolveMod_reaches I w mod_ sourcePath found st o :
  Draft.sourcePath mod_ = Some sourcePath ->
  sourcePath <> "" ->
  Cache.get (cache st) sourcePath = Some found ->
  Reaches I (resolveMod w mod_) st o
  <-> Reaches I
        (if Cache.truthy found
            && Cache.sameToken (Cache.property "lastChanged" found)
                 (Draft.lastChanged mod_)
         then
           if Cache.truthy (Cache.property "image" found) then
             match Cache.property "image" found with
             | Cache.Value (PStr image) =>
                 if negb (isLocalImage (Some image)) then reuse image mod_
                 else
                   present ← await (Callback.fileExists w
                                      (getLocalImagePath image));
                   if (present : bool) then reuse image mod_
                   else resolveFresh w sourcePath mod_
             | _ => Failed
             end
           else mret mod_
         else resolveFresh w sourcePath mod_) st o.
Proof.
  intros Hsp Hne%truthy_nonempty Hget. unfold resolveMod.
  rewrite Hsp, Hne. cbn [negb]. rewrite Reaches_bind.
  setoid_rewrite Reaches_readCache. rewrite Hget. split.
  - intros [(a & st1 & [= <- <-] & H)|(st1 & [=] & _)]. done.
  - intros H. left. eauto.
Qed.

Lemma reuse_reaches I image mod_ st o :
  Reaches I (reuse image mod_) st o ->
  exists st',
    o = Resolved (Draft.setImage image mod_) st'
    /\ requests st' = requests st /\ cache st' = cache st.
Proof.
  unfold reuse.
  intros [([] & st1 & [= ->]%Reaches_update & ->%Reaches_ret)
         |(st1 & [=]%Reaches_update & _)]%Reaches_bind.
  eexists. split; [done|]. by destruct (isLocalImage (Some image)).
Qed.

Lemma Anything_trans st1 st2 st3 :
  Anything st1 st2 -> Anything st2 st3 -> Anything st1 st3.
Proof. done. Qed.

Lemma Anything_closed st1 st2 st3 :
  Anything st1 st2 -> Calm st2 st3 -> Anything st1 st3.
Proof. done. Qed.

(** After a miss, when nothing else makes a request or writes the cache
    meanwhile; [st0] is the state in which the callback was called. *)
Lemma resolveFresh_calm w sourcePath mod_ st0 st o :
  Calm st0 st ->
  cache st0 <> Cache.Null ->
  Reaches Calm (resolveFresh w sourcePath mod_) st o ->
  (requests (stateOf o) = readmeUrlOf sourcePath :: requests st0
   \/ exists url,
        requests (stateOf o) = url :: readmeUrlOf sourcePath :: requests st0)
  /\ (forall st', o = Thrown st' ->
        exists url, isGif url = true /\ net w url = None)
  /\ forall mod' st',
       o = Resolved mod' st' ->
       exists outcome,
         Cache.set (cache st0) sourcePath
           (CacheEntry.mk outcome (Draft.lastChanged mod_)) = Some (cache st')
         /\ mod' = withImage outcome mod_.
Proof.
  intros [Hr Hc] Hnull H.
  apply (resolveFresh_reaches Calm Calm_trans Calm_trans)
    in H as (s & outcome & Hpath & _ & H).
  assert (Hs : cache s = cache st0
               /\ (requests s = readmeUrlOf sourcePath :: requests st0
                   \/ exists url,
                        requests s
                        = url :: readmeUrlOf sourcePath :: requests st0)).
  { destruct Hpath as [[H1 H2]|(url & s1 & [H1 H2] & [H3 H4])]; cbn in *.
    - split; [congruence|]. left. congruence.
    - split; [congruence|]. right. exists url. congruence. }
  destruct Hs as [Hcs Hrs].
  destruct H as [[-> Hnet]|[[Hset ->]|(c & st' & Hset & -> & <- & Hreq)]];
    cbn [stateOf].
  - split; [done|]. split; [by intros ? _|done].
  - rewrite Hcs in Hset. by destruct (cache st0).
  - split; [by rewrite Hreq|]. split; [done|].
    intros ? ? [= <- <-]. exists outcome. by rewrite <- Hcs.
Qed.

(** After a miss, whatever else goes on meanwhile. *)
Lemma resolveFresh_anything w sourcePath mod_ st mod' st' :
  Reaches Anything (resolveFresh w sourcePath mod_) st (Resolved mod' st') ->
  exists outcome,
    FreshOutcome w sourcePath outcome
    /\ Cache.get (cache st') sourcePath
       = Some (Cache.Value
                 (Cache.entry (CacheEntry.mk outcome (Draft.lastChanged mod_))))
    /\ mod' = withImage outcome mod_.
Proof.
  intros H.
  apply (resolveFresh_reaches Anything Anything_trans Anything_closed)
    in H as (s & outcome & _ & Hshape & H).
  destruct H as [[[=] _]|[[_ [=]]|(c & st2 & Hset & [= -> ->] & <- & _)]].
  exists outcome. split; [done|]. split; [|done]. by eapply get_set.
Qed.



(** What the callback reads, and where [fs.access] looks, on examples:
    an own property; a method of [Object.prototype], which a draft
    without change token reuses, no image in it; an entry stored under
    [__proto__], which becomes the prototype and is no own property; path
    segments that leave the image directory. *)
Example cache_lookups :
  Cache.get (Cache.Object {[ "a/b" := PNum 1 ]} None) "a/b"
  = Some (Cache.Value (PNum 1))
  /\ Cache.get (Cache.Object ∅ None) "a/b" = Some Cache.Undefined
  /\ Cache.get (Cache.Object ∅ None) "constructor" = Some Cache.Builtin
  /\ Reusable Sample.online Cache.Builtin
       (recordOf "" "| Eve | [C](./constructor) | A method | V0 | |")
       Sample.freshDisk
  /\ Cache.set (Cache.Object ∅ None) "__proto__" Sample.staleEntry
     = Some (Cache.Object ∅ (Some Sample.staleEntry))
  /\ stringifyCache (Cache.Object ∅ (Some Sample.staleEntry))
     = CacheFile.Object ∅
  /\ getLocalImagePath "/mod-images/./a.jpg" = ImageEntry "a.jpg"
  /\ getLocalImagePath "/mod-images/../mods.json" = OtherPath "public/mods.json"
  /\ getLocalImagePath "/mod-images/a.jpg/" = OtherPath "public/mod-images/a.jpg/"
  /\ getLocalImagePath "/mod-images/../../../x" = OtherPath "../x".
Proof.
  repeat split; try reflexivity. by left.
Qed.

(** A stale entry that is reused without its file being there: the
    cached image is a local path, the change tokens differ, and the
    callback asks for the README. *)
Example reuse_and_miss :
  requests (stateOf (alone (resolveMod Sample.online Sample.anotherDraft)
                       (Sample.withEntry "alice/another" Sample.anotherEntry)))
  = []
  /\ requests (stateOf (alone (resolveMod Sample.online Sample.anotherDraft)
                          (Sample.withEntry "alice/another"
                             (CacheEntry.mk (Some Sample.pngUrl)
                                (Some "2024-01-31")))))
     = [readmeUrlOf "alice/another"]
  /\ requests (stateOf (alone (resolveMod Sample.online Sample.anotherDraft)
                          (Sample.withEntry "alice/another"
                             (CacheEntry.mk (Some "/mod-images/gone.jpg")
                                (Some "2024-02-02")))))
     = [readmeUrlOf "alice/another"].
Proof. split; [|split]; by vm_compute. Qed.


(** ** Failures while resolving an image *)

(** C2 at the input on which the code departs from it: the README of one
    mod of the table shows a GIF whose download the network rejects.  The
    rejection leaves [downloadBuffer], [maybeMaterializeImage], the
    callback, [Promise.all], [addPreviewImages] and [main]: the process
    exits with code 1 and neither the snapshot nor the cache file is
    written, for any of the mods.  With the GIF reachable the same run
    completes and writes them. *)
Theorem download_rejection_aborts_run :
  net Sample.gifUnreachable Sample.gifUrl = None
  /\ fst (run Sample.gifUnreachable Sample.freshDisk) = 1%Z
  /\ modsJson (snd (run Sample.gifUnreachable Sample.freshDisk)) = None
  /\ imageCacheFile (snd (run Sample.gifUnreachable Sample.freshDisk)) = None
  /\ fst (run Sample.online Sample.freshDisk) = 0%Z
  /\ is_Some (modsJson (snd (run Sample.online Sample.freshDisk)))
  /\ is_Some (imageCacheFile (snd (run Sample.online Sample.freshDisk))).
Proof.
  split; [reflexivity|]. split; [by vm_compute|]. split; [by vm_compute|].
  split; [by vm_compute|]. split; [by vm_compute|].
  split; vm_compute; eauto.
Qed.

(** ** The shape of a fresh image reference *)

Lemma toLowerCase_cons s x t :
  Js.toLowerCase s = String x t ->
  exists c s', s = String c s' /\ Js.lowerChar c = x /\ Js.toLowerCase s' = t.
Proof. destruct s as [|c s']; [done|]. intros [= <- <-]. eauto. Qed.

Lemma protocol_relative_upgraded s :
  Js.startsWith s "//" = true -> isAbsoluteHttp ("https:" +:+ s) = true.
Proof. intros (rest & ->)%startsWith_iff. reflexivity. Qed.




(** ** The fields of a persisted mod *)

Lemma recordsFrom_elem d rows : forall lastCreator,
  d ∈ recordsFrom lastCreator rows ->
  exists lastCreator' row, d = recordOf lastCreator' row.
Proof.
  induction rows as [|row rows IH]; intros lc; cbn [recordsFrom].
  - by intros ?%elem_of_nil.
  - intros [->|H]%elem_of_cons; eauto.
Qed.

Lemma parseMods_elem d markdown :
  d ∈ parseMods markdown -> exists lastCreator row, d = recordOf lastCreator row.
Proof.
  unfold parseMods. rewrite parseLoop_recordsFrom. apply recordsFrom_elem.
Qed.

Lemma recordOf_authorSlug lastCreator row :
  Draft.authorSlug (recordOf lastCreator row)
  = (sp ← Draft.sourcePath (recordOf lastCreator row);
     head (Js.splitOn isSlash sp))
  /\ Draft.image (recordOf lastCreator row) = None.
Proof.
  unfold recordOf.
  by destruct (extractLink (nth 1 (rowCells row) "")) as [[? ?] ?].
Qed.

(** The object written for a draft, property by property. *)
Lemma stringify_toMod (d : Draft.t) :
  stringifyObject (toMod d)
  = [ ("creator", JStr (Draft.creator d));
      ("title", JStr (Draft.title d));
      ("description", JStr (Draft.description d));
      ("link", JStr (Draft.link d));
      ("compatibility", jsonOfCompatibility (Draft.compatibility d)) ]
    ++ optionalField "lastChanged" (Draft.lastChanged d)
    ++ optionalField "authorSlug" (Draft.authorSlug d)
    ++ optionalField "image" (Draft.image d)
    ++ optionalField "repoPath"
         (if Js.truthyOpt (Draft.sourcePath d)
          then Some ("printer_mods/" +:+ default "" (Draft.sourcePath d))
          else None)
    ++ optionalField "readmeUrl"
         (if Js.truthyOpt (Draft.sourcePath d)
          then Some (MOD_BLOB_BASE_URL +:+ "/" +:+ default "" (Draft.sourcePath d)
                     +:+ "/" +:+ README_FILENAME)
          else None).
Proof.
  destruct d as [creator title description link compatibility lastChanged
                   sourcePath authorSlug image].
  unfold toMod, draftObject. cbn [Draft.creator Draft.title Draft.description
    Draft.link Draft.compatibility Draft.lastChanged Draft.sourcePath
    Draft.authorSlug Draft.image].
  destruct lastChanged, sourcePath as [[|c sp]|], authorSlug, image;
    reflexivity.
Qed.

Lemma parsed_authorSlug d markdown :
  d ∈ parseMods markdown ->
  Draft.authorSlug d
  = (sp ← Draft.sourcePath d; head (Js.splitOn isSlash sp))
  /\ (is_Some (Draft.authorSlug d) <-> is_Some (Draft.sourcePath d)).
Proof.
  intros (lc & row & ->)%parseMods_elem.
  destruct (recordOf_authorSlug lc row) as [-> _]. split; [done|].
  destruct (Draft.sourcePath (recordOf lc row)) as [sp|]; cbn.
  - pose proof (splitOn_nonempty isSlash sp).
    destruct (Js.splitOn isSlash sp); [done|]. cbn. split; eauto.
  - split; intros [? ?]; done.
Qed.

(** C9, amended: the object written for a draft has the properties
    creator, title, description, link and compatibility of the draft; then
    lastChanged, authorSlug and image, each when the draft has it; then
    repoPath and readmeUrl when the draft has a sourcePath that is not
    empty, "printer_mods/" and the blob base URL with "/README.md" around
    it; and no other property, sourcePath least of all.  A parsed draft
    has an authorSlug exactly when it has a sourcePath: the part of it
    before the first "/". *)
Theorem persisted_mod_fields (d : Draft.t) :
  stringifyObject (toMod d)
  = [ ("creator", JStr (Draft.creator d));
      ("title", JStr (Draft.title d));
      ("description", JStr (Draft.description d));
      ("link", JStr (Draft.link d));
      ("compatibility", jsonOfCompatibility (Draft.compatibility d)) ]
    ++ optionalField "lastChanged" (Draft.lastChanged d)
    ++ optionalField "authorSlug" (Draft.authorSlug d)
    ++ optionalField "image" (Draft.image d)
    ++ optionalField "repoPath"
         (if Js.truthyOpt (Draft.sourcePath d)
          then Some ("printer_mods/" +:+ default "" (Draft.sourcePath d))
          else None)
    ++ optionalField "readmeUrl"
         (if Js.truthyOpt (Draft.sourcePath d)
          then Some (MOD_BLOB_BASE_URL +:+ "/" +:+ default "" (Draft.sourcePath d)
                     +:+ "/" +:+ README_FILENAME)
          else None)
  /\ (forall markdown,
        d ∈ parseMods markdown ->
        Draft.authorSlug d
        = (sp ← Draft.sourcePath d; head (Js.splitOn isSlash sp))
        /\ (is_Some (Draft.authorSlug d) <-> is_Some (Draft.sourcePath d))).
Proof.
  split; [apply stringify_toMod|]. intros markdown. apply parsed_authorSlug.
Qed.

(** The draft of the first row of the sample table. *)
Lemma persisted_mod_fields_witness :
  Draft.authorSlug Sample.coolDraft = Some "alice"
  /\ (is_Some (Draft.authorSlug Sample.coolDraft)
      <-> is_Some (Draft.sourcePath Sample.coolDraft)).
Proof.
  assert (H : Sample.coolDraft ∈ parseMods Sample.table).
  { vm_compute. apply list_elem_of_here. }
  destruct (proj2 (persisted_mod_fields Sample.coolDraft) Sample.table H)
    as [H1 H2].
  split; [|exact H2]. rewrite H1. reflexivity.
Defined.

(** C9 as worded fails: the mod written for the first row of the table
    has the property authorSlug, which is not among the fields of the
    specification. *)
Lemma author_slug_is_persisted :
  Sample.coolDraft ∈ parseMods Sample.table
  /\ ("authorSlug", JStr "alice") ∈ stringifyObject (toMod Sample.coolDraft)
  /\ ("authorSlug" ∉ specifiedModFields)
  /\ ~ PersistedFieldsAsSpecified.
Proof.
  assert (H1 : Sample.coolDraft ∈ parseMods Sample.table).
  { vm_compute. apply list_elem_of_here. }
  assert (H2 : ("authorSlug", JStr "alice")
               ∈ stringifyObject (toMod Sample.coolDraft)).
  { vm_compute. do 6 apply list_elem_of_further. apply list_elem_of_here. }
  assert (H3 : "authorSlug" ∉ specifiedModFields).
  { unfold specifiedModFields. intros H.
    repeat (apply elem_of_cons in H as [H|H]; [discriminate H|]).
    by apply elem_of_nil in H. }
  split; [done|]. split; [done|]. split; [done|]. intros Hclaim.
  apply H3, (Hclaim Sample.table Sample.coolDraft); [done|].
  apply list_elem_of_In, in_map_iff. exists ("authorSlug", JStr "alice").
  split; [done|]. by apply list_elem_of_In.
Qed.

(** ** The callbacks of a batch *)

Lemma Kept_refl st : Kept st st.
Proof. by split. Qed.

Lemma Kept_trans st1 st2 st3 : Kept st1 st2 -> Kept st2 st3 -> Kept st1 st3.
Proof. intros [? ?] [? ?]. split; congruence. Qed.

Lemma Bystander_refl st : Bystander st st.
Proof. split; [done|apply Kept_refl]. Qed.

Lemma Bystander_Kept st st' : Bystander st st' -> Kept st st'.
Proof. by intros [_ ?]. Qed.

(** The functions the callback calls are bystanders. *)

Lemma fetch_bystander w url st : Bystander st (stateOf (fetch w url st)).
Proof. rewrite fetch_cases. by destruct (net w url). Qed.

Lemma access_bystander w target st : Bystander st (stateOf (access w target st)).
Proof.
  destruct (access_cases w target st) as [present ->]. apply Bystander_refl.
Qed.

Lemma extractFirstImage_bystander w markdown relativePath st :
  Bystander st (stateOf (extractFirstImage w markdown relativePath st)).
Proof.
  destruct (extractFirstImage_cases w markdown relativePath st)
    as [->|[->|(image & -> & _)]]; apply Bystander_refl.
Qed.

Lemma sharp_bystander w buffer st : Bystander st (stateOf (sharp w buffer st)).
Proof. unfold sharp. async. destruct (sharpJpeg w buffer); apply Bystander_refl. Qed.

Lemma fetchPreviewImage_always w relativePath :
  Always Bystander (fun _ => True) (Callback.fetchPreviewImage w relativePath).
Proof.
  unfold Callback.fetchPreviewImage.
  apply Always_tryCatch; [|by apply Always_ret].
  eapply (Always_bind _ (fun _ => True)).
  { apply Always_await, Always_call; [apply fetch_bystander|done]. }
  intros response _. destruct (negb (ok response)); [by apply Always_ret|].
  eapply (Always_bind _ (fun _ => True)).
  { apply Always_await. by apply Always_ret. }
  intros markdown _. apply Always_call; [|done].
  apply extractFirstImage_bystander.
Qed.

Lemma fileExists_always w target :
  Always Bystander (fun _ => True) (Callback.fileExists w target).
Proof.
  apply Always_await, Always_call; [apply access_bystander|done].
Qed.

Lemma maybeMaterializeImage_always w url :
  Always Bystander (fun _ => True) (Callback.maybeMaterializeImage w url).
Proof.
  unfold Callback.maybeMaterializeImage.
  destruct (negb _); [by apply Always_ret|].
  eapply (Always_bind _ (fun _ => True)).
  { apply Always_await, Always_await, Always_call; [|done].
    intros st. apply Bystander_refl. }
  intros _ _. eapply (Always_bind _ (fun _ => True)).
  { apply Always_await, fileExists_always. }
  intros present _. destruct (negb present); [|by apply Always_ret].
  eapply (Always_bind _ (fun _ => True)).
  { apply Always_await. unfold Callback.downloadBuffer.
    eapply (Always_bind _ (fun _ => True)).
    { apply Always_await, Always_call; [apply fetch_bystander|done]. }
    intros response _. destruct (negb (ok response)); [by apply Always_ret|].
    eapply (Always_bind _ (fun _ => True)).
    { apply Always_await. by apply Always_ret. }
    intros buffer _. by apply Always_ret. }
  intros [buffer|] _; [|by apply Always_ret].
  apply Always_tryCatch; [|by apply Always_ret].
  eapply (Always_bind _ (fun _ => True)).
  { apply Always_await, Always_call; [apply sharp_bystander|done]. }
  intros frame _. eapply (Always_bind _ (fun _ => True)).
  { apply Always_await, Always_call; [|done]. intros st. by split. }
  intros _ _. by apply Always_ret.
Qed.

Lemma readCache_always key :
  Always Bystander (fun _ => True) (readCache key).
Proof.
  constructor; [intros st; apply Bystander_refl|].
  intros st. destruct (Cache.get (cache st) key); by constructor.
Qed.

Lemma writeCache_always key e :
  Always Bystander (fun _ => True) (writeCache key e).
Proof.
  constructor.
  - intros st. destruct (Cache.set (cache st) key e); by split.
  - intros st. destruct (Cache.set (cache st) key e); by constructor.
Qed.

(** The callback among the bystanders. *)

Lemma Linked_bind {A} (p : Proc A) (k : A -> Proc Draft.t) :
  Always Bystander (fun _ => True) p ->
  (forall a, Linked (k a)) ->
  Linked (p ≫= k).
Proof.
  intros Hp Hk. induction Hp as [a Ha| |effect next He Hn IH|rest Hr IH].
  - rewrite bind_done. apply Hk.
  - constructor.
  - rewrite bind_act. apply Linked_act; [|done]. intros st. apply He.
  - rewrite bind_wait. by constructor.
Qed.

Lemma GoodProc_bind {A} m (p : Proc A) (k : A -> Proc Draft.t) :
  Always Bystander (fun _ => True) p ->
  (forall a, GoodProc m (k a)) ->
  GoodProc m (p ≫= k).
Proof.
  intros Hp Hk. split.
  - apply Linked_bind; [done|]. intros a. apply Hk.
  - eapply Always_bind.
    + eapply Always_impl; [apply Bystander_Kept| |exact Hp]. done.
    + intros a _. apply Hk.
Qed.

Lemma GoodProc_ret m d : SameButImage m d -> GoodProc m (mret d).
Proof. intros H. split; [constructor|by constructor]. Qed.

Lemma GoodProc_failed m : GoodProc m Failed.
Proof. split; constructor. Qed.

Lemma SameButImage_refl m : SameButImage m m.
Proof. by left. Qed.

Lemma SameButImage_set image m : SameButImage m (Draft.setImage image m).
Proof. right. by exists image. Qed.

Lemma reuse_good image m : GoodProc m (reuse image m).
Proof.
  unfold reuse, update. rewrite bind_act.
  destruct (isLocalImage (Some image)) eqn:Hlocal.
  - split.
    + apply (Linked_add _ _ image); [done|]. intros st. eauto.
    + constructor; [done|]. intros st. rewrite bind_done.
      constructor. apply SameButImage_set.
  - split.
    + apply Linked_act; [done|]. intros st. rewrite bind_done. constructor.
    + constructor; [done|]. intros st. rewrite bind_done.
      constructor. apply SameButImage_set.
Qed.

Lemma resolveFresh_good w sourcePath m : GoodProc m (resolveFresh w sourcePath m).
Proof.
  unfold resolveFresh. apply GoodProc_bind.
  { apply Always_await, fetchPreviewImage_always. }
  intros image. destruct (negb (Js.truthyOpt image)).
  { apply GoodProc_bind; [apply writeCache_always|].
    intros _. apply GoodProc_ret, SameButImage_refl. }
  apply GoodProc_bind.
  { apply Always_update. intros st. by split. }
  intros _. apply GoodProc_bind.
  { apply Always_await, maybeMaterializeImage_always. }
  intros finalImage. apply GoodProc_bind; [apply writeCache_always|].
  intros _. destruct (Js.truthy finalImage);
    [|apply GoodProc_ret, SameButImage_refl].
  destruct (isLocalImage (Some finalImage));
    [|apply GoodProc_ret, SameButImage_set].
  unfold update. rewrite bind_act. split.
  - apply (Linked_add _ _ finalImage); [done|]. intros st. eauto.
  - constructor; [done|]. intros st. rewrite bind_done. constructor.
    apply SameButImage_set.
Qed.

Lemma resolveMod_good w m : GoodProc m (resolveMod w m).
Proof.
  unfold resolveMod.
  destruct (Draft.sourcePath m) as [sourcePath|];
    [|apply GoodProc_ret, SameButImage_refl].
  destruct (negb (Js.truthy sourcePath));
    [apply GoodProc_ret, SameButImage_refl|].
  apply GoodProc_bind; [apply readCache_always|].
  intros found. destruct (_ && _); [|apply resolveFresh_good].
  destruct (Cache.truthy (Cache.property "image" found));
    [|apply GoodProc_ret, SameButImage_refl].
  destruct (Cache.property "image" found) as [|[| | |image| |]|];
    try apply GoodProc_failed.
  destruct (negb (isLocalImage (Some image))); [apply reuse_good|].
  apply GoodProc_bind.
  { apply Always_await, fileExists_always. }
  intros present. destruct present; [apply reuse_good|apply resolveFresh_good].
Qed.

(** A callback goes on. *)
Lemma Linked_advance p st st' task :
  Linked p ->
  advance p st = (st', task) ->
  match task with
  | Waiting rest => Linked rest /\ usedLocalImages st' = usedLocalImages st
  | Settled (Some d) =>
      usedLocalImages st' = usedLocalImages st
      \/ exists image,
           Draft.image d = Some image
           /\ usedLocalImages st' = {[image]} ∪ usedLocalImages st
  | Settled None => usedLocalImages st' = usedLocalImages st
  end.
Proof.
  intros Hp. revert st.
  induction Hp as [d| |effect next He Hn IH|effect next image He Hn|rest Hr IH];
    intros st; cbn [advance].
  - intros [= <- <-]. by left.
  - by intros [= <- <-].
  - intros H. apply IH in H. rewrite He in H. exact H.
  - destruct (Hn st) as (d & -> & Himage). cbn [advance].
    intros [= <- <-]. right. eauto.
  - by intros [= <- <-].
Qed.

Lemma GoodProc_advance m p st st' task :
  GoodProc m p ->
  advance p st = (st', task) ->
  Kept st st'
  /\ GoodTask m task
  /\ forall image,
       image ∈ usedLocalImages st' ->
       image ∈ usedLocalImages st
       \/ exists d, task = Settled (Some d) /\ Draft.image d = Some image.
Proof.
  intros [Hlinked Halways] H.
  destruct (Always_advance Kept Kept_refl Kept_trans _ _ _ _ _ _
              (fun _ _ H => H) Halways H) as [Hkept Htask].
  pose proof (Linked_advance _ _ _ _ Hlinked H) as Hused.
  split; [done|]. destruct task as [[d|]|rest]; cbn [GoodTask].
  - split; [done|]. intros image Himage.
    destruct Hused as [Hused|(image' & Hd & Hused)]; rewrite Hused in Himage;
      [by left|].
    apply elem_of_union in Himage as [->%elem_of_singleton|?]; eauto.
  - split; [done|]. intros image. rewrite Hused. auto.
  - destruct Hused as [Hrest Hused]. split; [by split|].
    intros image. rewrite Hused. auto.
Qed.
(** ** A batch *)

Lemma startAll_inv {A} (Inv : list (Task A) -> RunState -> Prop)
    (procs : list (Proc A)) :
  (forall finished st p st' task,
      Inv finished st -> procs !! List.length finished = Some p ->
      advance p st = (st', task) -> Inv (finished ++ [task]) st') ->
  forall todo called finished st tasks st',
    procs = called ++ todo ->
    List.length called = List.length finished ->
    Inv finished st ->
    startAll todo st = (tasks, st') ->
    Inv (finished ++ tasks) st'.
Proof.
  intros Hstep.
  induction todo as [|p todo IH];
    intros called finished st tasks st' Hprocs Hlen Hinv; cbn [startAll].
  - intros [= <- <-]. by rewrite app_nil_r.
  - destruct (advance p st) as [st1 task] eqn:Hadvance.
    destruct (startAll todo st1) as [tasks' st2] eqn:Hrest.
    intros [= <- <-].
    assert (Hp : procs !! List.length finished = Some p).
    { rewrite Hprocs, <- Hlen. apply list_lookup_middle. done. }
    pose proof (Hstep _ _ _ _ _ Hinv Hp Hadvance) as Hinv1.
    rewrite (cons_middle task), app_assoc.
    apply (IH (called ++ [p]) _ st1); [| |done|done].
    + by rewrite <- app_assoc.
    + rewrite !length_app. cbn. lia.
Qed.

Lemma startAll_length {A} (procs : list (Proc A)) st :
  List.length (startAll procs st).1 = List.length procs.
Proof.
  revert st. induction procs as [|p procs IH]; intros st; cbn [startAll];
    [done|].
  destruct (advance p st) as [st1 task].
  specialize (IH st1). destruct (startAll procs st1) as [tasks st2].
  cbn in *. by rewrite IH.
Qed.

Lemma drain_inv {A} (Inv : list (Task A) -> RunState -> Prop) choose :
  (forall tasks st i rest st' task,
      Inv tasks st -> tasks !! i = Some (Waiting rest) ->
      advance rest st = (st', task) -> Inv (<[i := task]> tasks) st') ->
  forall fuel n tasks st,
    Inv tasks st ->
    Inv (drain choose fuel n tasks st).1 (drain choose fuel n tasks st).2.
Proof.
  intros Hstep. induction fuel as [|fuel IH]; intros n tasks st Hinv;
    cbn [drain]; [done|].
  destruct (waitingFrom 0 tasks !! _) as [i|]; [|done].
  destruct (tasks !! i) as [[result|rest]|] eqn:Hi; try done.
  destruct (advance rest st) as [st' task] eqn:Hadvance.
  apply IH. by eapply Hstep.
Qed.

Lemma drain_length {A} choose fuel : forall n (tasks : list (Task A)) st,
  List.length (drain choose fuel n tasks st).1 = List.length tasks.
Proof.
  induction fuel as [|fuel IH]; intros n tasks st; cbn [drain]; [done|].
  destruct (waitingFrom 0 tasks !! _) as [i|]; [|done].
  destruct (tasks !! i) as [[result|rest]|] eqn:Hi; try done.
  destruct (advance rest st) as [st' task] eqn:Hadvance.
  by rewrite IH, length_insert.
Qed.

Lemma fulfilled_Some {A} (tasks : list (Task A)) values :
  fulfilled tasks = Some values ->
  tasks = (fun a => Settled (Some a)) <$> values.
Proof.
  revert values. induction tasks as [|[[a|]|rest] tasks IH]; intros values;
    cbn [fulfilled]; try done.
  - by intros [= <-].
  - destruct (fulfilled tasks) as [values'|]; [|done].
    intros [= <-]. cbn. by rewrite <- IH.
Qed.

Lemma PoolInv_start w batch st0 finished st m st' task :
  PoolInv batch st0 finished st ->
  batch !! List.length finished = Some m ->
  advance (resolveMod w m) st = (st', task) ->
  PoolInv batch st0 (finished ++ [task]) st'.
Proof.
  intros (Hkept & Hgood & Hused) Hm Hadvance.
  destruct (GoodProc_advance m _ _ _ _ (resolveMod_good w m) Hadvance)
    as (Hkept' & Htask & Hused').
  split; [by eapply Kept_trans|]. split.
  - rewrite length_app. cbn [List.length].
    replace (List.length finished + 1) with (S (List.length finished)) by lia.
    rewrite (take_S_r _ _ m Hm). apply Forall2_app; [done|].
    by constructor.
  - intros image [Himage|(d & -> & Hd)]%Hused'.
    + destruct (Hused image Himage) as [?|(d & Hd & Hi)]; [by left|].
      right. exists d. split; [|done]. apply elem_of_app. by left.
    + right. exists d. split; [|done]. apply elem_of_app. right.
      apply list_elem_of_here.
Qed.

Lemma PoolInv_step batch st0 tasks st i rest st' task :
  PoolInv batch st0 tasks st ->
  tasks !! i = Some (Waiting rest) ->
  advance rest st = (st', task) ->
  PoolInv batch st0 (<[i := task]> tasks) st'.
Proof.
  intros (Hkept & Hgood & Hused) Hi Hadvance.
  destruct (Forall2_lookup_r _ _ _ _ _ Hgood Hi) as (m & Hm & Hrest).
  destruct (GoodProc_advance m _ _ _ _ Hrest Hadvance)
    as (Hkept' & Htask & Hused').
  split; [by eapply Kept_trans|]. split.
  - rewrite length_insert.
    rewrite <- (list_insert_id _ _ _ Hm). by apply Forall2_insert.
  - assert (Hstays : forall image,
              ImageOfSettled tasks image ->
              ImageOfSettled (<[i := task]> tasks) image).
    { intros image (d & Hd & Himage). exists d. split; [|done].
      apply list_elem_of_lookup in Hd as [j Hj].
      apply list_elem_of_lookup. exists j.
      rewrite list_lookup_insert_ne; [done|]. intros ->. congruence. }
    intros image [Himage|(d & -> & Hd)]%Hused'.
    + destruct (Hused image Himage) as [?|?]; auto.
    + right. exists d. split; [|done].
      apply list_elem_of_lookup. exists i.
      apply list_lookup_insert_eq. by eapply lookup_lt_Some.
Qed.

(** What a batch does: the documents on disk are as they were; when
    the promise of the batch is fulfilled, its values are the drafts of
    the batch, some with an image, and a path that has entered the set of
    used local images is the image of one of them. *)
Lemma runBatch_cases w i batch st :
  Kept st (stateOf (runBatch w i batch st))
  /\ forall drafts st',
       runBatch w i batch st = Resolved drafts st' ->
       Forall2 SameButImage batch drafts
       /\ forall image,
            image ∈ usedLocalImages st' ->
            image ∈ usedLocalImages st
            \/ exists d, d ∈ drafts /\ Draft.image d = Some image.
Proof.
  unfold runBatch.
  destruct (startAll (List.map (resolveMod w) batch) st) as [tasks st1]
    eqn:Hstart.
  assert (Hinv1 : PoolInv batch st tasks st1).
  { assert (Hstep : forall finished st2 p st3 task,
              PoolInv batch st finished st2 ->
              List.map (resolveMod w) batch !! List.length finished = Some p ->
              advance p st2 = (st3, task) ->
              PoolInv batch st (finished ++ [task]) st3).
    { intros finished st2 p st3 task Hinv Hp Hadvance.
      change (List.map (resolveMod w) batch) with (resolveMod w <$> batch)
        in Hp.
      apply list_lookup_fmap_Some in Hp as (m & -> & Hm).
      by eapply PoolInv_start. }
    apply (startAll_inv (PoolInv batch st) (List.map (resolveMod w) batch)
             Hstep (List.map (resolveMod w) batch) [] [] st tasks st1);
      [done|done| |done].
    split; [apply Kept_refl|]. split; [constructor|]. auto. }
  pose proof (startAll_length (List.map (resolveMod w) batch) st) as Hlen1.
  rewrite Hstart, length_map in Hlen1. cbn [fst] in Hlen1.
  pose proof (drain_inv (PoolInv batch st) (schedule w i)
                (PoolInv_step batch st)
                (CALLBACK_AWAITS * List.length batch) 0 tasks st1 Hinv1)
    as Hinv2.
  pose proof (drain_length (schedule w i)
                (CALLBACK_AWAITS * List.length batch) 0 tasks st1) as Hlen2.
  destruct (drain _ _ _ tasks st1) as [tasks' st2]. cbn [fst snd] in *.
  destruct Hinv2 as (Hkept & Hgood & Hused).
  rewrite firstn_all2 in Hgood by lia.
  destruct (fulfilled tasks') as [drafts|] eqn:Hfulfilled; cbn [stateOf];
    (split; [done|]); [|done].
  intros ? ? [= <- <-]. apply fulfilled_Some in Hfulfilled as ->. split.
  - rewrite Forall2_fmap_r in Hgood.
    eapply Forall2_impl; [exact Hgood|]. by intros m d.
  - intros image [?|(d & Hd & Himage)]%Hused; [by left|]. right.
    exists d. split; [|done].
    apply list_elem_of_fmap in Hd as (d' & [= ->] & Hd). done.
Qed.
Lemma batchLoop_cases w fuel : forall i mods st,
  Kept st (stateOf (batchLoop w fuel i mods st))
  /\ forall out st',
       batchLoop w fuel i mods st = Resolved out st' ->
       List.length mods <= i + fuel ->
       Forall2 SameButImage (drop i mods) out
       /\ forall image,
            image ∈ usedLocalImages st' ->
            image ∈ usedLocalImages st
            \/ exists d, d ∈ out /\ Draft.image d = Some image.
Proof.
  induction fuel as [|fuel IH]; intros i mods st; cbn [batchLoop].
  { split; [apply Kept_refl|]. intros out st' [= <- <-] Hlen.
    rewrite drop_ge by lia. split; [constructor|auto]. }
  destruct (i <? List.length mods) eqn:Hi.
  2:{ split; [apply Kept_refl|]. intros out st' [= <- <-] _.
      apply Nat.ltb_ge in Hi. rewrite drop_ge by lia.
      split; [constructor|auto]. }
  async.
  destruct (runBatch_cases w i (take IMAGE_FETCH_CONCURRENCY (drop i mods)) st)
    as [Hkept1 Hbatch].
  destruct (runBatch w i _ st) as [finished st1|st1] eqn:E1;
    cbn [stateOf] in *; [|done].
  destruct (IH (i + IMAGE_FETCH_CONCURRENCY) mods st1) as [Hkept2 Hrest].
  destruct (batchLoop w fuel _ mods st1) as [rest st2|st2] eqn:E2;
    cbn [stateOf] in *; (split; [by eapply Kept_trans|]); [|done].
  intros out st' [= <- <-] Hlen.
  destruct (Hbatch _ _ eq_refl) as [Hsame1 Hused1].
  destruct (Hrest _ _ eq_refl) as [Hsame2 Hused2].
  { unfold IMAGE_FETCH_CONCURRENCY. lia. }
  split.
  - rewrite <- (take_drop IMAGE_FETCH_CONCURRENCY (drop i mods)).
    rewrite drop_drop. by apply Forall2_app.
  - intros image [[?|(d & Hd & Hi')]%Hused1|(d & Hd & Hi')]%Hused2;
      [by left|right..]; exists d; (split; [|done]); apply elem_of_app; auto.
Qed.

(** What [addPreviewImages] does: the documents on disk are as they
    were; when it resolves, it gives back the drafts it was given, some
    with an image, and the set of used local images has images of these
    drafts only. *)
Lemma addPreviewImages_cases w mods st :
  Kept st (stateOf (addPreviewImages w mods st))
  /\ forall out st',
       addPreviewImages w mods st = Resolved out st' ->
       Forall2 SameButImage mods out
       /\ forall image,
            image ∈ usedLocalImages st' ->
            exists d, d ∈ out /\ Draft.image d = Some image.
Proof.
  unfold addPreviewImages, ensureImageDir. async.
  destruct (batchLoop_cases w (List.length mods) 0 mods
              (setStats 0 0 0 (setUsed ∅ st))) as [Hkept Hloop].
  split; [exact Hkept|]. intros out st' H.
  destruct (Hloop _ _ H) as [Hsame Hused]; [lia|]. split; [done|].
  intros image [Himage|?]%Hused; [|done]. by apply elem_of_empty in Himage.
Qed.

Lemma image_is_persisted d p :
  Draft.image d = Some p ->
  ("image", JStr p) ∈ stringifyObject (toMod d).
Proof.
  intros H. rewrite stringify_toMod, H.
  rewrite !elem_of_app. right. right. right. left. apply list_elem_of_here.
Qed.

Lemma persisted_image d p :
  ("image", JStr p) ∈ stringifyObject (toMod d) -> Draft.image d = Some p.
Proof.
  rewrite stringify_toMod.
  destruct (Draft.lastChanged d), (Draft.authorSlug d), (Draft.image d),
    (Js.truthyOpt (Draft.sourcePath d)); cbn;
    intros H;
    repeat (apply elem_of_cons in H as [H|H]; [by simplify_eq|]);
    by apply elem_of_nil in H.
Qed.

(** ** A run *)

Lemma fetchReadme_cases w st :
  fetchReadme w st
  = match net w README_URL with
    | Some response =>
        if ok response
        then Resolved (text response) (logRequest README_URL st)
        else Thrown (logRequest README_URL st)
    | None => Thrown (logRequest README_URL st)
    end.
Proof.
  unfold fetchReadme. async. rewrite fetch_cases.
  destruct (net w README_URL) as [response|]; [|done].
  by destruct (ok response).
Qed.

(** The state in which [addPreviewImages] is called. *)
Lemma loadImageCache_cases st :
  exists c,
    loadImageCache st = Resolved tt (setCache c st)
    /\ (imageCacheFile st = Some CacheFile.Null <-> c = Cache.Null).
Proof.
  unfold loadImageCache. async. eexists. split; [done|].
  destruct (imageCacheFile st) as [[|own]|]; split; done.
Qed.

(** A run that completes: the table was fetched, [addPreviewImages]
    resolved, the two documents were written, and the image directory
    was cleaned. *)
Lemma main_resolved w st st' :
  main w st = Resolved tt st' ->
  exists response c drafts st2,
    net w README_URL = Some response /\ ok response = true
    /\ addPreviewImages w (sortByTitle w (parseMods (text response)))
         (setCache c (logRequest README_URL st))
       = Resolved drafts st2
    /\ snapshotWrite w = Written /\ cacheWrite w = Written
    /\ st' = (if readdirOk w
              then setFiles
                     (filter (fun entry =>
                                localImagePrefix +:+ fst entry
                                ∈ usedLocalImages st2
                                \/ unlinkOk w (fst entry) = false)
                        (files st2))
              else (fun st3 => st3))
               (setImageCacheFile (Some (stringifyCache (cache st2)))
                  (setModsJson
                     (Some (stringifyPayload (List.map toMod drafts)
                              (now w (requests st2))))
                     st2)).
Proof.
  unfold main. unfold mbind at 1. unfold Async_bind.
  rewrite fetchReadme_cases.
  destruct (net w README_URL) as [response|]; [|done].
  destruct (ok response) eqn:Hok; [|done].
  unfold mbind at 1. unfold Async_bind.
  destruct (loadImageCache_cases (logRequest README_URL st)) as (c & -> & _).
  unfold mbind at 1. unfold Async_bind.
  destruct (addPreviewImages w _ _) as [drafts st2|] eqn:E; [|done].
  unfold saveImageCache, writeDocument, cleanupUnusedLocalImages. async.
  destruct (snapshotWrite w) eqn:Hsnapshot; try done.
  destruct (cacheWrite w) eqn:Hcache; try done.
  cbn [cache setModsJson].
  destruct (readdirOk w) eqn:Hreaddir; intros [= <-];
    exists response, c, drafts, st2; repeat split; done.
Qed.

(** C8, amended: when a run completes, the snapshot lists mods such that
    - every path of the set of used local images is the image of a mod of
      the snapshot;
    - every entry left in the image directory has its path
      "/mod-images/<entry>" in that set and is the image of a mod of the
      snapshot, unless the directory could not be listed or the entry
      could not be removed;
    - when the directory could be listed, an entry that can be removed and
      is the image of no mod of the snapshot is not in the directory any
      more. *)
Theorem cleanup_invariant (w : World) (st st' : RunState) :
  main w st = Resolved tt st' ->
  exists mods stamp,
    modsJson st'
    = Some (JObj [("mods", JArr mods); ("lastUpdated", JStr stamp)])
    /\ (forall image,
          image ∈ usedLocalImages st' ->
          exists fields,
            JObj fields ∈ mods /\ ("image", JStr image) ∈ fields)
    /\ (forall file,
          is_Some (files st' !! file) ->
          (localImagePrefix +:+ file ∈ usedLocalImages st'
           /\ exists mod_, mod_ ∈ mods /\ ShowsFile file mod_)
          \/ readdirOk w = false
          \/ unlinkOk w file = false)
    /\ (readdirOk w = true ->
        forall file,
          unlinkOk w file = true ->
          (forall mod_, mod_ ∈ mods -> ~ ShowsFile file mod_) ->
          files st' !! file = None).
Proof.
  intros (response & c & drafts & st2 & _ & _ & Hadd & _ & _ & ->)%main_resolved.
  destruct (addPreviewImages_cases w
              (sortByTitle w (parseMods (text response)))
              (setCache c (logRequest README_URL st))) as [_ H].
  destruct (H _ _ Hadd) as [_ Hused]. clear H.
  exists (List.map (fun m => JObj (stringifyObject m)) (List.map toMod drafts)),
    (now w (requests st2)).
  assert (Hshown : forall image,
             image ∈ usedLocalImages st2 ->
             exists fields,
               JObj fields
               ∈ List.map (fun m => JObj (stringifyObject m))
                   (List.map toMod drafts)
               /\ ("image", JStr image) ∈ fields).
  { intros image (d & Hd & Himage)%Hused.
    exists (stringifyObject (toMod d)). split; [|by apply image_is_persisted].
    apply list_elem_of_In, in_map_iff. exists (toMod d). split; [done|].
    apply in_map_iff. exists d. split; [done|]. by apply list_elem_of_In. }
  assert (Hfile : forall file,
             localImagePrefix +:+ file ∈ usedLocalImages st2 ->
             exists mod_,
               mod_ ∈ List.map (fun m => JObj (stringifyObject m))
                        (List.map toMod drafts)
               /\ ShowsFile file mod_).
  { intros file (fields & Hin & Himage)%Hshown.
    exists (JObj fields). split; [done|]. by exists fields. }
  destruct (readdirOk w) eqn:Hreaddir; cbn.
  - split; [done|]. split; [done|]. split.
    + intros file [data Hdata].
      apply map_lookup_filter_Some in Hdata as [_ [Hin|Hno]]; cbn in *; auto.
    + intros _ file Hunlink Hnone.
      destruct (filter _ (files st2) !! file) as [data|] eqn:E; [|done].
      apply map_lookup_filter_Some in E as [_ [Hin|Hno]]; cbn in *;
        [|congruence].
      destruct (Hfile _ Hin) as (mod_ & Hmod & Hshows).
      destruct (Hnone mod_ Hmod Hshows).
  - split; [done|]. split; [done|]. split; [auto|done].
Qed.

(** The run on the sample table with every host answering: the still of
    the GIF is the one entry of the image directory, and a mod of the
    snapshot shows it. *)
Lemma cleanup_invariant_witness :
  is_Some (files (stateOf (main Sample.online Sample.freshDisk))
             !! "62d34a30ad33cdc01641208a4124fd9e.jpg")
  /\ "/mod-images/62d34a30ad33cdc01641208a4124fd9e.jpg"
     ∈ usedLocalImages (stateOf (main Sample.online Sample.freshDisk))
  /\ exists mod_,
       mod_ ∈ modsOf (modsJson (stateOf (main Sample.online Sample.freshDisk)))
       /\ ShowsFile "62d34a30ad33cdc01641208a4124fd9e.jpg" mod_.
Proof.
  assert (Hrun : main Sample.online Sample.freshDisk
                 = Resolved tt (stateOf (main Sample.online Sample.freshDisk)))
    by (vm_compute; reflexivity).
  assert (Hfile : is_Some (files (stateOf (main Sample.online Sample.freshDisk))
                             !! "62d34a30ad33cdc01641208a4124fd9e.jpg"))
    by (vm_compute; eauto).
  destruct (cleanup_invariant Sample.online Sample.freshDisk _ Hrun)
    as (mods & stamp & Hjson & _ & Hfiles & _).
  destruct (Hfiles _ Hfile) as [(Hused & mod_ & Hmod & Hshows)|[H|H]];
    [|discriminate H..].
  split; [exact Hfile|]. split; [exact Hused|].
  exists mod_. rewrite Hjson. split; [exact Hmod|exact Hshows].
Defined.

(** C8 as worded fails when an entry of the image directory cannot be
    removed.  The directory has a folder that no mod refers to; [unlink]
    refuses it, [cleanupUnusedLocalImages] catches the rejection, and the
    run completes with the folder still there. *)
Lemma orphan_survives_refused_unlink :
  fst (run Sample.folderInside Sample.orphanDisk) = 0%Z
  /\ unlinkOk Sample.folderInside "old" = false
  /\ is_Some (files (snd (run Sample.folderInside Sample.orphanDisk)) !! "old")
  /\ (forall mod_,
        mod_ ∈ modsOf (modsJson (snd (run Sample.folderInside
                                        Sample.orphanDisk))) ->
        ~ ShowsFile "old" mod_)
  /\ ~ RemainingFilesAreReferenced.
Proof.
  assert (Hrun : main Sample.folderInside Sample.orphanDisk
                 = Resolved tt (snd (run Sample.folderInside Sample.orphanDisk)))
    by (vm_compute; reflexivity).
  assert (Hfile : is_Some (files (snd (run Sample.folderInside
                                         Sample.orphanDisk)) !! "old"))
    by (vm_compute; eauto).
  assert (Hnone : forall mod_,
             mod_ ∈ modsOf (modsJson (snd (run Sample.folderInside
                                             Sample.orphanDisk))) ->
             ~ ShowsFile "old" mod_).
  { intros mod_ Hmod (fields & -> & Himage).
    remember (modsOf (modsJson (snd (run Sample.folderInside
                                       Sample.orphanDisk)))) as mods eqn:E.
    vm_compute in E. subst mods.
    repeat (apply elem_of_cons in Hmod as [[= ->]|Hmod];
            [repeat (apply elem_of_cons in Himage as [Himage|Himage];
                     [discriminate Himage|]);
             by apply elem_of_nil in Himage|]).
    by apply elem_of_nil in Hmod. }
  split; [by vm_compute|]. split; [reflexivity|]. split; [exact Hfile|].
  split; [exact Hnone|].
  intros Hclaim.
  destruct (Hclaim Sample.folderInside Sample.orphanDisk _ "old" Hrun Hfile)
    as (mod_ & Hmod & Hshows).
  exact (Hnone mod_ Hmod Hshows).
Qed.

(** ** The event loop comes to its end *)

Lemma Within_ret {A} n (a : A) : Within n (mret a).
Proof. constructor. Qed.

Lemma Within_update n f : Within n (update f).
Proof. constructor. intros st. constructor. Qed.

Lemma Within_readCache n key : Within n (readCache key).
Proof.
  constructor. intros st. destruct (Cache.get (cache st) key); constructor.
Qed.

Lemma Within_writeCache n key e : Within n (writeCache key e).
Proof.
  constructor. intros st. destruct (Cache.set (cache st) key e); constructor.
Qed.

Lemma fetchPreviewImage_within w relativePath :
  Within 2 (Callback.fetchPreviewImage w relativePath).
Proof.
  unfold Callback.fetchPreviewImage.
  apply (Within_tryCatch 2 0); [|apply Within_ret].
  apply (Within_bind 1 1); [apply Within_await, Within_call|].
  intros response. destruct (negb (ok response)); [apply Within_ret|].
  apply (Within_bind 1 0); [apply Within_await, Within_ret|].
  intros markdown. apply Within_call.
Qed.

Lemma fileExists_within w target : Within 1 (Callback.fileExists w target).
Proof. apply Within_await, Within_call. Qed.

Lemma maybeMaterializeImage_within w url :
  Within 9 (Callback.maybeMaterializeImage w url).
Proof.
  unfold Callback.maybeMaterializeImage.
  destruct (negb _); [apply Within_ret|].
  apply (Within_bind 2 7); [apply Within_await, Within_await, Within_call|].
  intros _. apply (Within_bind 2 5);
    [apply Within_await, fileExists_within|].
  intros present. destruct (negb present); [|apply Within_ret].
  apply (Within_bind 3 2).
  { apply Within_await. unfold Callback.downloadBuffer.
    apply (Within_bind 1 1); [apply Within_await, Within_call|].
    intros response. destruct (negb (ok response)); [apply Within_ret|].
    apply (Within_bind 1 0); [apply Within_await, Within_ret|].
    intros buffer. apply Within_ret. }
  intros [buffer|]; [|apply Within_ret].
  apply (Within_tryCatch 2 0); [|apply Within_ret].
  apply (Within_bind 1 1); [apply Within_await, Within_call|].
  intros frame. apply (Within_bind 1 0); [apply Within_await, Within_call|].
  intros _. apply Within_ret.
Qed.

Lemma reuse_within n image m : Within n (reuse image m).
Proof.
  unfold reuse. apply (Within_mono 0); [lia|].
  apply (Within_bind 0 0); [apply Within_update|]. intros _. apply Within_ret.
Qed.

Lemma resolveFresh_within w sourcePath m :
  Within 13 (resolveFresh w sourcePath m).
Proof.
  unfold resolveFresh.
  apply (Within_bind 3 10); [apply Within_await, fetchPreviewImage_within|].
  intros image. destruct (negb (Js.truthyOpt image)).
  { apply (Within_bind 0 10); [apply Within_writeCache|].
    intros _. apply Within_ret. }
  apply (Within_bind 0 10); [apply Within_update|].
  intros _. apply (Within_bind 10 0);
    [apply Within_await, maybeMaterializeImage_within|].
  intros finalImage. apply (Within_bind 0 0); [apply Within_writeCache|].
  intros _. destruct (Js.truthy finalImage); [|apply Within_ret].
  destruct (isLocalImage (Some finalImage)); [|apply Within_ret].
  apply (Within_bind 0 0); [apply Within_update|]. intros _. apply Within_ret.
Qed.

(** A callback waits [CALLBACK_AWAITS] times at most. *)
Lemma resolveMod_within w m : Within CALLBACK_AWAITS (resolveMod w m).
Proof.
  unfold resolveMod, CALLBACK_AWAITS.
  destruct (Draft.sourcePath m) as [sourcePath|]; [|apply Within_ret].
  destruct (negb (Js.truthy sourcePath)); [apply Within_ret|].
  apply (Within_bind 0 15); [apply Within_readCache|].
  intros found.
  destruct (_ && _);
    [|apply (Within_mono 13); [lia|apply resolveFresh_within]].
  destruct (Cache.truthy (Cache.property "image" found)); [|apply Within_ret].
  destruct (Cache.property "image" found) as [|[| | |image| |]|];
    try constructor.
  destruct (negb (isLocalImage (Some image))); [apply reuse_within|].
  apply (Within_bind 2 13); [apply Within_await, fileExists_within|].
  intros present. destruct present;
    [apply reuse_within|apply resolveFresh_within].
Qed.

Lemma startAll_costs {A} k (procs : list (Proc A)) : forall st,
  Forall (Within k) procs ->
  exists cost,
    Costs (startAll procs st).1 cost /\ cost <= k * List.length procs.
Proof.
  induction procs as [|p procs IH]; intros st Hwithin; cbn [startAll].
  { exists 0. split; [constructor|lia]. }
  apply Forall_cons in Hwithin as [Hp Hprocs].
  destruct (advance p st) as [st1 task] eqn:Hadvance.
  destruct (IH st1 Hprocs) as (cost & Hcost & Hle).
  destruct (startAll procs st1) as [tasks st2]. cbn [fst] in *.
  destruct task as [result|rest].
  - exists cost. split; [by constructor|]. cbn [List.length]. lia.
  - destruct (Within_advance _ _ _ _ _ Hp Hadvance) as (n & -> & Hrest).
    exists (S n + cost). split; [by constructor|]. cbn [List.length]. lia.
Qed.

Lemma waitingFrom_lookup {A} (tasks : list (Task A)) : forall from k i,
  waitingFrom from tasks !! k = Some i ->
  from <= i /\ exists rest, tasks !! (i - from) = Some (Waiting rest).
Proof.
  induction tasks as [|task tasks IH]; intros from k i; cbn [waitingFrom];
    [done|].
  destruct task as [result|rest]; cbn [isWaiting app].
  - intros (Hle & rest & H)%IH. split; [lia|]. exists rest.
    replace (i - from) with (S (i - S from)) by lia. done.
  - destruct k as [|k]; cbn.
    + intros [= <-]. split; [done|]. exists rest. by rewrite Nat.sub_diag.
    + intros (Hle & rest' & H)%IH. split; [lia|]. exists rest'.
      replace (i - from) with (S (i - S from)) by lia. done.
Qed.

Lemma Costs_none_waiting {A} (tasks : list (Task A)) from :
  Costs tasks 0 -> waitingFrom from tasks = [].
Proof.
  revert from. induction tasks as [|task tasks IH]; intros from; [done|].
  inversion 1; subst. cbn [waitingFrom isWaiting app]. auto.
Qed.

Lemma Costs_insert {A} (tasks : list (Task A)) cost i rest st st' task :
  Costs tasks cost ->
  tasks !! i = Some (Waiting rest) ->
  advance rest st = (st', task) ->
  exists cost', Costs (<[i := task]> tasks) cost' /\ cost' < cost.
Proof.
  intros Hcosts. revert i.
  induction Hcosts as [|result tasks cost Hc IH|q tasks n cost Hq Hc IH];
    intros i Hi Hadvance; [done|..].
  - destruct i as [|i]; [done|]. cbn in Hi.
    destruct (IH i Hi Hadvance) as (cost' & Hcost' & Hlt).
    exists cost'. split; [by constructor|done].
  - destruct i as [|i]; cbn in Hi.
    + injection Hi as ->. cbn [insert list_insert].
      destruct task as [result|rest'].
      * exists cost. split; [by constructor|lia].
      * destruct (Within_advance _ _ _ _ _ Hq Hadvance) as (m & -> & Hrest).
        exists (S m + cost). split; [by constructor|lia].
    + destruct (IH i Hi Hadvance) as (cost' & Hcost' & Hlt).
      exists (S n + cost'). split; [by constructor|lia].
Qed.

(** With fuel for what the callbacks that wait have left to do, the event
    loop ends with no callback waiting. *)
Lemma drain_settles {A} choose fuel : forall n (tasks : list (Task A)) st cost,
  Costs tasks cost -> cost <= fuel ->
  waitingFrom 0 (drain choose fuel n tasks st).1 = [].
Proof.
  induction fuel as [|fuel IH]; intros n tasks st cost Hcosts Hle;
    cbn [drain].
  { assert (cost = 0) as -> by lia. by apply Costs_none_waiting. }
  destruct (waitingFrom 0 tasks) as [|j waiting] eqn:Hwaiting; [done|].
  rewrite <- Hwaiting.
  assert (Hlt : choose n `mod` List.length (waitingFrom 0 tasks)
                < List.length (waitingFrom 0 tasks)).
  { apply Nat.mod_upper_bound. by rewrite Hwaiting. }
  apply lookup_lt_is_Some in Hlt as [i Hi]. rewrite Hi.
  destruct (waitingFrom_lookup _ _ _ _ Hi) as (_ & rest & Hrest).
  rewrite Nat.sub_0_r in Hrest. rewrite Hrest.
  destruct (advance rest st) as [st' task] eqn:Hadvance.
  destruct (Costs_insert _ _ _ _ _ _ _ Hcosts Hrest Hadvance)
    as (cost' & Hcost' & Hlt').
  apply (IH _ _ _ cost'); [done|lia].
Qed.

Lemma fulfilled_None {A} (tasks : list (Task A)) :
  waitingFrom 0 tasks = [] -> fulfilled tasks = None ->
  Settled None ∈ tasks.
Proof.
  generalize 0. induction tasks as [|[[a|]|rest] tasks IH]; intros from;
    cbn [waitingFrom isWaiting app fulfilled]; try done.
  - intros Hw. destruct (fulfilled tasks) eqn:E; [done|]. intros _.
    apply list_elem_of_further. by eapply IH.
  - intros _ _. apply list_elem_of_here.
Qed.

(** The event loop of a batch has the fuel it needs: it ends with no
    callback waiting. *)
Lemma runBatch_runs_to_the_end w i batch st :
  waitingFrom 0
    (drain (schedule w i) (CALLBACK_AWAITS * List.length batch) 0
       (startAll (List.map (resolveMod w) batch) st).1
       (startAll (List.map (resolveMod w) batch) st).2).1
  = [].
Proof.
  destruct (startAll_costs CALLBACK_AWAITS (List.map (resolveMod w) batch) st)
    as (cost & Hcosts & Hle).
  { apply Forall_forall. intros p Hp.
    apply list_elem_of_In, in_map_iff in Hp as (m & <- & _).
    apply resolveMod_within. }
  rewrite length_map in Hle. by eapply drain_settles.
Qed.

(** The promise of a batch is rejected only when a callback has thrown. *)
Lemma runBatch_thrown w i batch st st' :
  runBatch w i batch st = Thrown st' ->
  exists tasks : list (Task Draft.t),
    drain (schedule w i) (CALLBACK_AWAITS * List.length batch) 0
      (startAll (List.map (resolveMod w) batch) st).1
      (startAll (List.map (resolveMod w) batch) st).2
    = (tasks, st')
    /\ Settled None ∈ tasks.
Proof.
  unfold runBatch.
  pose proof (runBatch_runs_to_the_end w i batch st) as Hsettled.
  destruct (startAll (List.map (resolveMod w) batch) st) as [tasks st1].
  cbn [fst snd] in *.
  destruct (drain _ _ _ tasks st1) as [tasks' st2]. cbn [fst] in *.
  destruct (fulfilled tasks') as [drafts|] eqn:Hfulfilled; [done|].
  intros [= <-]. exists tasks'. split; [done|]. by apply fulfilled_None.
Qed.
(** ** The callbacks of a run are callbacks among the others *)

Lemma advance_reaches {A} (p : Proc A) st st' task :
  advance p st = (st', task) ->
  match task with
  | Waiting rest =>
      forall st2 o, Reaches Anything rest st2 o -> Reaches Anything p st o
  | Settled (Some a) => Reaches Anything p st (Resolved a st')
  | Settled None => Reaches Anything p st (Thrown st')
  end.
Proof.
  revert st. induction p as [a| |effect next IH|rest IH]; intros st;
    cbn [advance].
  - intros [= <- <-]. constructor.
  - intros [= <- <-]. constructor.
  - intros H%IH. destruct task as [[a|]|rest]; try by constructor.
    intros st2 o Ho. constructor. eauto.
  - intros [= <- <-]. intros st2 o Ho. by econstructor.
Qed.

Lemma Traced_advance p rest st st' task :
  Traced p (Waiting rest) -> advance rest st = (st', task) -> Traced p task.
Proof.
  intros Hp H%advance_reaches. destruct task as [[d|]|rest']; cbn in *.
  - destruct (Hp _ _ H) as [st0 H0]. eauto.
  - destruct (Hp _ _ H) as [st0 H0]. eauto.
  - intros st2 o Ho. eauto.
Qed.

Lemma Traced_start p st st' task : advance p st = (st', task) -> Traced p task.
Proof.
  intros H%advance_reaches. destruct task as [[d|]|rest]; cbn; eauto.
Qed.

(** The values of a batch are values of its callbacks, each run among
    the others. *)
Lemma runBatch_reaches w i batch st drafts st' :
  runBatch w i batch st = Resolved drafts st' ->
  Forall2 (fun m d =>
             exists st0 st1,
               Reaches Anything (resolveMod w m) st0 (Resolved d st1))
    batch drafts.
Proof.
  unfold runBatch.
  set (procs := List.map (resolveMod w) batch).
  set (Inv := fun (tasks : list (Task Draft.t)) (_ : RunState) =>
                Forall2 Traced (take (List.length tasks) procs) tasks).
  pose proof (startAll_length procs st) as Hlen1.
  destruct (startAll procs st) as [tasks st1] eqn:Hstart. cbn [fst] in Hlen1.
  assert (Hinv1 : Inv tasks st1).
  { apply (startAll_inv Inv procs) with (todo := procs) (called := [])
                                        (finished := []) (st := st);
      [|done|done|constructor|done].
    intros finished st2 p st3 task Hinv Hp Hadvance. unfold Inv in *.
    rewrite length_app. cbn [List.length].
    replace (List.length finished + 1) with (S (List.length finished)) by lia.
    rewrite (take_S_r _ _ p Hp). apply Forall2_app; [done|].
    constructor; [|constructor]. by eapply Traced_start. }
  pose proof (drain_length (schedule w i)
                (CALLBACK_AWAITS * List.length batch) 0 tasks st1) as Hlen2.
  assert (Hinv2 : Inv (drain (schedule w i)
                         (CALLBACK_AWAITS * List.length batch) 0 tasks st1).1
                    (drain (schedule w i)
                       (CALLBACK_AWAITS * List.length batch) 0 tasks st1).2).
  { apply drain_inv; [|done].
    intros tasks0 st0 j rest st2 task Hinv Hj Hadvance. unfold Inv in *.
    destruct (Forall2_lookup_r _ _ _ _ _ Hinv Hj) as (p & Hp & Hrest).
    rewrite length_insert. rewrite <- (list_insert_id _ _ _ Hp).
    apply Forall2_insert; [done|]. by eapply Traced_advance. }
  destruct (drain _ _ _ tasks st1) as [tasks' st2]. cbn [fst snd] in *.
  unfold Inv in Hinv2. rewrite firstn_all2 in Hinv2 by lia.
  destruct (fulfilled tasks') as [values|] eqn:Hfulfilled; [|done].
  intros [= <- <-]. apply fulfilled_Some in Hfulfilled as ->.
  rewrite Forall2_fmap_r in Hinv2. unfold procs in Hinv2.
  change (List.map (resolveMod w) batch) with (resolveMod w <$> batch)
    in Hinv2.
  rewrite Forall2_fmap_l in Hinv2.
  eapply Forall2_impl; [exact Hinv2|]. by intros m d.
Qed.
(** ** The order of the snapshot *)

Lemma insertByTitle_perm w d sorted :
  Permutation (insertByTitle w d sorted) (d :: sorted).
Proof.
  induction sorted as [|e sorted IH]; cbn [insertByTitle]; [done|].
  destruct (localeCompare w (Draft.title d) (Draft.title e) <=? 0)%Z; [done|].
  rewrite IH. apply perm_swap.
Qed.

(** Sorting neither loses nor invents a draft. *)
Lemma sortByTitle_perm w drafts : Permutation (sortByTitle w drafts) drafts.
Proof.
  induction drafts as [|d drafts IH]; cbn [sortByTitle fold_right]; [done|].
  fold (sortByTitle w drafts). rewrite insertByTitle_perm. by constructor.
Qed.

(** ** Scenarios of the specification *)

Example scenario_row :
  parseMods
    (Sample.headerLine +:+ Sample.LF
     +:+ "| Alice | [Cool Mod](./cool-mod) | A nice mod. | V2.4, Trident | 2024-01-01 |")
  = [ Draft.mk "Alice" "Cool Mod" "A nice mod." (MOD_BASE_URL +:+ "/cool-mod")
        (mkCompatibility Cross Cross Tick Tick Cross) (Some "2024-01-01")
        (Some "cool-mod") (Some "cool-mod") None ].
Proof. reflexivity. Qed.

Example scenario_blank_creator :
  List.map Draft.creator
    (parseMods
       (Sample.headerLine +:+ Sample.LF
        +:+ "| Alice | [Cool Mod](./cool-mod) | A nice mod. | V2.4, Trident | 2024-01-01 |"
        +:+ Sample.LF
        +:+ "|  | [Another](./another) | ... | V0 | 2024-02-02 |"))
  = ["Alice"; "Alice"].
Proof. reflexivity. Qed.

Example scenario_four_cells :
  parseMods (Sample.headerLine +:+ Sample.LF +:+ "| Alice | [Cool Mod](./cool-mod) | A nice mod. | V2.4 |")
  = [].
Proof. reflexivity. Qed.

Example scenario_external_link :
  extractLink "[Bracket](HTTPS://example.com/bracket)"
  = ("Bracket", "HTTPS://example.com/bracket", None)
  /\ extractLink "plain title" = ("plain title", MOD_BASE_URL, None)
  /\ extractLink "[x](./)" = ("x", MOD_BASE_URL +:+ "/", Some "").
Proof. repeat split. Qed.

Example scenario_images :
  scanAll markdownImageAt 0 "![a](one.png) text ![](two.gif 'title')"
  = ["one.png"; "two.gif 'title'"]
  /\ scanAll htmlImageAt 0 "<IMG alt='x' src='y.png' SRC='z.gif' >" = ["z.gif"]
  /\ stripTitle "two.gif 'title'" = "two.gif"
  /\ isValidImage "Shot.PNG?raw=true" = true
  /\ isValidImage "notes.txt" = false.
Proof. repeat split. Qed.

Example scenario_md5 :
  MD5.hex "" = "d41d8cd98f00b204e9800998ecf8427e"
  /\ MD5.hex "abc" = "900150983cd24fb0d6963f7d28e17f72"
  /\ MD5.hex "The quick brown fox jumps over the lazy dog"
     = "9e107d9d372bb6826bd81d3542a419d6".
Proof. repeat split; by vm_compute. Qed.

(** * Further properties of the script *)

(** ** Fetching the README of a mod *)

(** X1: [fetchPreviewImage] never rejects, whatever the network and the
    URL parser do: it makes one request, for the README of the mod,
    changes nothing else, and resolves; with no image when the request is
    rejected or the response is not ok. *)
Theorem fetchPreviewImage_never_rejects (w : World) (relativePath : string)
    (st : RunState) :
  exists image,
    fetchPreviewImage w relativePath st
    = Resolved image (logRequest (readmeUrlOf relativePath) st)
    /\ (net w (readmeUrlOf relativePath) = None -> image = None)
    /\ (forall response,
          net w (readmeUrlOf relativePath) = Some response ->
          ok response = false -> image = None).
Proof.
  unfold fetchPreviewImage, fetch. async.
  destruct (net w (readmeUrlOf relativePath)) as [response|];
    [|exists None; by repeat split].
  destruct (ok response) eqn:Hok; cbn [negb];
    [|exists None; by repeat split].
  destruct (extractFirstImage_cases w (text response) relativePath
              (logRequest (readmeUrlOf relativePath) st))
    as [->|[->|(image & -> & _)]];
    eexists; (split; [reflexivity|]); split; try done;
    intros ? [= <-]; congruence.
Qed.

Lemma fetchPreviewImage_never_rejects_witness :
  exists image,
    fetchPreviewImage Sample.online "alice/cool-mod" Sample.freshDisk
    = Resolved image
        (logRequest (readmeUrlOf "alice/cool-mod") Sample.freshDisk).
Proof.
  destruct (fetchPreviewImage_never_rejects Sample.online "alice/cool-mod"
              Sample.freshDisk) as (image & H & _).
  by exists image.
Defined.

(** ** Materialized images *)

(** X2: once [maybeMaterializeImage] has resolved with another reference
    than the URL it was given, calling it again resolves with the same
    reference and leaves the state as it is: no request, no transcoding,
    no write. *)
Theorem maybeMaterializeImage_again (w : World) (url image : string)
    (st st' : RunState) :
  maybeMaterializeImage w url st = Resolved image st' ->
  image <> url ->
  maybeMaterializeImage w url st' = Resolved image st'.
Proof.
  intros H Hne.
  apply maybeMaterializeImage_resolved in H
    as [[-> _]|(Hgif & -> & Hfile & _)]; [done|].
  rewrite maybeMaterializeImage_cases. cbn zeta. rewrite Hgif. cbn [negb].
  by rewrite bool_decide_eq_true_2.
Qed.

Lemma maybeMaterializeImage_again_witness :
  exists st',
    maybeMaterializeImage Sample.online Sample.gifUrl Sample.freshDisk
    = Resolved "/mod-images/62d34a30ad33cdc01641208a4124fd9e.jpg" st'
    /\ maybeMaterializeImage Sample.online Sample.gifUrl st'
       = Resolved "/mod-images/62d34a30ad33cdc01641208a4124fd9e.jpg" st'.
Proof.
  eexists. split; [by vm_compute|].
  apply (maybeMaterializeImage_again Sample.online Sample.gifUrl _
           Sample.freshDisk); [by vm_compute|discriminate].
Defined.

Lemma allChars_impl (P Q : ascii -> bool) s :
  (forall c, P c = true -> Q c = true) ->
  allChars P s = true -> allChars Q s = true.
Proof.
  intros HPQ. induction s as [|c s IH]; [done|]. cbn.
  intros [Hc Hs]%andb_true_iff. by rewrite (HPQ c Hc), IH.
Qed.

Lemma allChars_app P s t :
  allChars P (s +:+ t) = allChars P s && allChars P t.
Proof.
  induction s as [|c s IH]; [done|]. rewrite app_cons. cbn.
  by rewrite IH, andb_assoc.
Qed.

Lemma lowerHex_notSlash c : isLowerHex c = true -> notSlash c = true.
Proof. destruct c as [[] [] [] [] [] [] [] []]; by vm_compute. Qed.

(** X3: [maybeMaterializeImage] touches one file of the image directory at
    most: the one named by the MD5 digest of the URL with ".jpg", a name
    of 36 characters without "/", and only for a GIF.  Whatever the URL
    is, nothing is written outside the directory or over another file. *)
Theorem maybeMaterializeImage_writes_hashed_name (w : World) (url : string)
    (st : RunState) (file : string) :
  files (stateOf (maybeMaterializeImage w url st)) !! file
  <> files st !! file ->
  file = MD5.hex url +:+ ".jpg"
  /\ isGif url = true
  /\ String.length file = 36
  /\ allChars notSlash file = true.
Proof.
  intros Hdiff.
  assert (Hfile : file = MD5.hex url +:+ ".jpg" /\ isGif url = true).
  { revert Hdiff. rewrite maybeMaterializeImage_cases. cbn zeta.
    destruct (isGif url); cbn [negb]; [|done].
    destruct (bool_decide _); [done|].
    destruct (net w url) as [response|]; [|done].
    destruct (ok response); cbn [negb]; [|done].
    destruct (sharpJpeg w (arrayBuffer response)) as [frame|]; [|done].
    cbn. intros Hdiff.
    destruct (decide (MD5.hex url +:+ ".jpg" = file)) as [<-|Hne]; [done|].
    by rewrite lookup_insert_ne in Hdiff. }
  destruct Hfile as [-> Hgif]. split; [done|]. split; [done|].
  destruct (md5_hex_format url) as [Hlen Hhex].
  rewrite length_app_str, Hlen, allChars_app. split; [done|].
  rewrite (allChars_impl _ _ _ lowerHex_notSlash Hhex). done.
Qed.

Lemma maybeMaterializeImage_writes_hashed_name_witness :
  "62d34a30ad33cdc01641208a4124fd9e.jpg" = MD5.hex Sample.gifUrl +:+ ".jpg"
  /\ isGif Sample.gifUrl = true
  /\ String.length "62d34a30ad33cdc01641208a4124fd9e.jpg" = 36
  /\ allChars notSlash "62d34a30ad33cdc01641208a4124fd9e.jpg" = true.
Proof.
  apply (maybeMaterializeImage_writes_hashed_name Sample.online Sample.gifUrl
           Sample.freshDisk).
  by vm_compute.
Defined.

(** ** Runs that fail *)

(** X4: a run that fails although the file system writes what it is
    asked to write has failed before it wrote anything:
    [public/mods.json] and the cache file are as the run found them. *)
Theorem failed_run_keeps_snapshot (w : World) (st st' : RunState) :
  snapshotWrite w = Written ->
  cacheWrite w = Written ->
  main w st = Thrown st' ->
  modsJson st' = modsJson st /\ imageCacheFile st' = imageCacheFile st.
Proof.
  intros Hsnapshot Hcache.
  unfold main. unfold mbind at 1. unfold Async_bind.
  rewrite fetchReadme_cases.
  destruct (net w README_URL) as [response|]; [|by intros [= <-]].
  destruct (ok response); [|by intros [= <-]].
  unfold mbind at 1. unfold Async_bind.
  destruct (loadImageCache_cases (logRequest README_URL st)) as (c & -> & _).
  unfold mbind at 1. unfold Async_bind.
  destruct (addPreviewImages_cases w
              (sortByTitle w (parseMods (text response)))
              (setCache c (logRequest README_URL st))) as [[Hj Hi] _].
  destruct (addPreviewImages w _ _) as [drafts st2|st2] eqn:E;
    cbn [stateOf] in *; [|by intros [= <-]].
  unfold saveImageCache, writeDocument, cleanupUnusedLocalImages. async.
  rewrite Hsnapshot, Hcache. by destruct (readdirOk w).
Qed.

Lemma failed_run_keeps_snapshot_witness :
  modsJson (stateOf (main Sample.gifUnreachable Sample.freshDisk)) = None
  /\ imageCacheFile (stateOf (main Sample.gifUnreachable Sample.freshDisk))
     = None.
Proof.
  destruct (failed_run_keeps_snapshot Sample.gifUnreachable Sample.freshDisk
              (stateOf (main Sample.gifUnreachable Sample.freshDisk)))
    as [H1 H2]; [reflexivity|reflexivity|by vm_compute|]. by split.
Defined.

(** X5: when the table cannot be fetched, because the request is rejected
    or because the response is not ok, the run fails at once: that request
    is the only one made, no README of a mod is asked for, and nothing
    else changes. *)
Theorem table_failure_is_fatal (w : World) (st : RunState) :
  (net w README_URL = None
   \/ exists response, net w README_URL = Some response /\ ok response = false) ->
  main w st = Thrown (logRequest README_URL st)
  /\ fst (run w st) = 1%Z.
Proof.
  intros H.
  assert (E : main w st = Thrown (logRequest README_URL st)).
  { unfold main. unfold mbind at 1. unfold Async_bind.
    rewrite fetchReadme_cases.
    destruct H as [->|(response & -> & Hok)]; [done|]. by rewrite Hok. }
  split; [exact E|]. unfold run. by rewrite E.
Qed.

Lemma table_failure_is_fatal_witness :
  main Sample.offline Sample.freshDisk
  = Thrown (logRequest README_URL Sample.freshDisk)
  /\ fst (run Sample.offline Sample.freshDisk) = 1%Z.
Proof.
  apply (table_failure_is_fatal Sample.offline).
  left. reflexivity.
Defined.

(** ** Links *)

Lemma mod_base_absolute s : isAbsoluteHttp (MOD_BASE_URL +:+ s) = true.
Proof. reflexivity. Qed.

(** X6: whatever the title cell, the link [extractLink] gives is an
    absolute http(s) URL.  When it gives a sourcePath, the link is the mod
    base URL, "/" and that path, and the path is not itself an http(s)
    URL; when it gives none, the link is the catalog root or an http(s)
    target of the cell. *)
Theorem extractLink_link_absolute (cell : string) :
  let '(title, link, sourcePath) := extractLink cell in
  isAbsoluteHttp link = true
  /\ match sourcePath with
     | Some path =>
         link = MOD_BASE_URL +:+ "/" +:+ path /\ isAbsoluteHttp path = false
     | None =>
         link = MOD_BASE_URL
         \/ exists before text target after,
              FirstLink cell before text target after
              /\ (target = link \/ target = "./" +:+ link)
     end.
Proof.
  unfold extractLink. destruct (matchLink cell) as [[text target]|] eqn:E.
  - destruct (isAbsoluteHttp (stripDotSlash target)) eqn:Habs.
    + split; [done|]. right.
      apply matchLink_Some in E as (before & after & HF).
      exists before, text, target, after. split; [done|].
      destruct (stripDotSlash_spec target) as [H|[_ H]]; [by right|left].
      by rewrite H.
    + split; [apply (mod_base_absolute ("/" +:+ _))|]. done.
  - split; [reflexivity|by left].
Qed.

(** ** Tables without rows *)

(** X7: a document none of whose lines begins, once trimmed, with
    "| Creator" gives no record at all, whatever pipe-prefixed lines it
    holds; so does the empty document. *)
Theorem no_table_no_mods (markdown : string) :
  Forall (fun line => isHeaderLine line = false) (Js.splitLines markdown) ->
  parseMods markdown = [].
Proof. apply no_header_no_rows. Qed.

Lemma no_table_no_mods_witness :
  parseMods (Sample.coolRow +:+ Sample.LF +:+ Sample.anotherRow) = []
  /\ parseMods "" = [].
Proof.
  split; apply no_table_no_mods; repeat constructor.
Defined.

(** ** Compatibility cells put together *)

Lemma splitOn_app_sep sep a c b :
  sep c = true ->
  Js.splitOn sep (a +:+ String c b) = Js.splitOn sep a ++ Js.splitOn sep b.
Proof.
  intros Hc. induction a as [|x a IH].
  - rewrite app_empty_l. cbn [Js.splitOn]. by rewrite Hc.
  - rewrite app_cons. cbn [Js.splitOn]. rewrite IH.
    destruct (sep x); [done|].
    pose proof (splitOn_nonempty sep a).
    by destruct (Js.splitOn sep a).
Qed.

Lemma compatTokens_app a c b :
  isCommaOrSlash c = true ->
  compatTokens (a +:+ String c b) = compatTokens a ++ compatTokens b.
Proof.
  intros Hc. unfold compatTokens.
  by rewrite splitOn_app_sep, List.map_app, List.filter_app.
Qed.

Lemma hasSynonym_app a c b synonyms :
  isCommaOrSlash c = true ->
  hasSynonym (a +:+ String c b) synonyms
  = hasSynonym a synonyms || hasSynonym b synonyms.
Proof.
  intros Hc. unfold hasSynonym. by rewrite compatTokens_app, existsb_app.
Qed.

Lemma compatibility_ext c1 c2 :
  (forall key, getFlag key c1 = getFlag key c2) -> c1 = c2.
Proof.
  intros H. destruct c1, c2.
  pose proof (H K_v0). pose proof (H K_v0_1). pose proof (H K_v1_8).
  pose proof (H K_v2_4). pose proof (H K_trident). cbn in *. congruence.
Qed.

(** X8: the flags of a cell made of two cells with a comma or a slash
    between them are, family by family, "✓" when one of the two cells
    gives "✓", and "✗" otherwise.  So the order in which a cell lists the
    printers does not matter, and listing more printers never takes a
    "✓" away. *)
Theorem buildCompatibility_of_two_cells (a b : string) (c : ascii) :
  isCommaOrSlash c = true ->
  (forall key,
      getFlag key (buildCompatibility (a +:+ String c b))
      = eitherTick (getFlag key (buildCompatibility a))
          (getFlag key (buildCompatibility b)))
  /\ buildCompatibility (a +:+ String c b)
     = buildCompatibility (b +:+ String c a).
Proof.
  intros Hc.
  assert (H : forall x y key,
             getFlag key (buildCompatibility (x +:+ String c y))
             = eitherTick (getFlag key (buildCompatibility x))
                 (getFlag key (buildCompatibility y))).
  { intros x y key. rewrite !buildCompatibility_flag, hasSynonym_app by done.
    by destruct (hasSynonym x _), (hasSynonym y _). }
  split; [apply H|]. apply compatibility_ext. intros key. rewrite !H.
  by destruct (getFlag key (buildCompatibility a)),
       (getFlag key (buildCompatibility b)).
Qed.

Lemma buildCompatibility_of_two_cells_witness :
  buildCompatibility ("V2.4" +:+ String "/" "Trident")
  = buildCompatibility ("Trident" +:+ String "/" "V2.4").
Proof.
  apply (buildCompatibility_of_two_cells "V2.4" "Trident" "/").
  reflexivity.
Defined.

(** ** Descriptions *)

Lemma singleSpaced_collapse b s :
  singleSpaced b (collapseWhiteSpace b s) = true.
Proof.
  revert b. induction s as [|c s IH]; intros b; [done|].
  cbn [collapseWhiteSpace]. destruct (Js.isWhiteSpace c) eqn:Hc.
  - destruct b; [apply IH|]. cbn. by rewrite IH.
  - cbn [singleSpaced]. rewrite Hc. apply IH.
Qed.

Lemma singleSpaced_trimStart b s :
  singleSpaced b s = true -> singleSpaced true (Js.trimStart s) = true.
Proof.
  revert b. induction s as [|c s IH]; intros b; [done|].
  cbn [singleSpaced Js.trimStart]. destruct (Js.isWhiteSpace c) eqn:Hc.
  - intros [_ H]%andb_true_iff. by apply (IH true).
  - cbn [singleSpaced]. by rewrite Hc.
Qed.

Lemma singleSpaced_prefix b s t :
  singleSpaced b (s +:+ t) = true -> singleSpaced b s = true.
Proof.
  revert b. induction s as [|c s IH]; intros b; [done|].
  rewrite app_cons. cbn [singleSpaced]. destruct (Js.isWhiteSpace c).
  - intros [H1 H2]%andb_true_iff. by rewrite H1, (IH true).
  - apply IH.
Qed.

Lemma singleSpaced_trimEnd b s :
  singleSpaced b s = true -> singleSpaced b (Js.trimEnd s) = true.
Proof.
  destruct (trimEnd_spec s) as (r & Hs & _). intros H. rewrite Hs in H.
  by apply singleSpaced_prefix in H.
Qed.

Lemma trimStart_head c s :
  Js.isWhiteSpace c = false -> Js.trimStart (String c s) = String c s.
Proof. intros Hc. cbn [Js.trimStart]. by rewrite Hc. Qed.

Lemma trimEnd_fixed t c :
  Js.isWhiteSpace c = false -> Js.trimEnd (t +:+ String c "") = t +:+ String c "".
Proof.
  intros Hc. induction t as [|x t IH].
  - rewrite app_empty_l. cbn [Js.trimEnd]. by rewrite Hc.
  - rewrite app_cons. cbn [Js.trimEnd]. rewrite IH.
    by destruct t.
Qed.

Lemma trim_idempotent s : Js.trim (Js.trim s) = Js.trim s.
Proof.
  destruct (trim_spec s) as (_ & _ & _ & _ & _ & Hhead & Hlast).
  destruct Hhead as [->|(c & t & E & Hc)]; [done|].
  unfold Js.trim at 1. rewrite E, (trimStart_head c t Hc), <- E.
  destruct Hlast as [->|(t' & c' & -> & Hc')]; [done|].
  by apply trimEnd_fixed.
Qed.

Lemma collapse_fixed b s :
  singleSpaced b s = true -> collapseWhiteSpace b s = s.
Proof.
  revert b. induction s as [|c s IH]; intros b; [done|].
  cbn [singleSpaced collapseWhiteSpace]. destruct (Js.isWhiteSpace c).
  - intros [[->%Ascii.eqb_eq Hb]%andb_true_iff H]%andb_true_iff.
    destruct b; [done|]. by rewrite (IH true).
  - intros H. by rewrite (IH false).
Qed.

Lemma startsWith_n c s :
  Js.startsWith (String c s) "n" = Ascii.eqb c "n".
Proof. cbn [Js.startsWith]. by rewrite andb_true_r, Ascii.eqb_sym. Qed.

Lemma replaceEscapedNewlines_cons c c' s :
  replaceEscapedNewlines (String c (String c' s))
  = if Ascii.eqb c "092" && Ascii.eqb c' "n"
    then String " " (replaceEscapedNewlines s)
    else String c (replaceEscapedNewlines (String c' s)).
Proof. reflexivity. Qed.

Lemma replaceEscapedNewlines_head s :
  Js.startsWith (replaceEscapedNewlines s) "n" = true ->
  Js.startsWith s "n" = true.
Proof.
  destruct s as [|c [|c' s'']]; try done.
  rewrite replaceEscapedNewlines_cons.
  destruct (Ascii.eqb c "092" && Ascii.eqb c' "n") eqn:E.
  - done.
  - by rewrite !startsWith_n.
Qed.

Lemma noEscapedNewline_replace s :
  noEscapedNewline (replaceEscapedNewlines s) = true.
Proof.
  assert (H : noEscapedNewline (replaceEscapedNewlines s) = true
              /\ forall c,
                   noEscapedNewline (replaceEscapedNewlines (String c s))
                   = true); [|apply H].
  induction s as [|c' s'' [IH1 IH2]].
  - split; [done|]. intros c. cbn. by rewrite andb_false_r.
  - split; [apply IH2|]. intros c. rewrite replaceEscapedNewlines_cons.
    destruct (Ascii.eqb c "092" && Ascii.eqb c' "n") eqn:E.
    + cbn [noEscapedNewline]. by rewrite IH1.
    + cbn [noEscapedNewline]. rewrite IH2, andb_true_r.
      destruct (Ascii.eqb c "092") eqn:Ec; [|done]. cbn [andb] in *.
      destruct (Js.startsWith (replaceEscapedNewlines (String c' s'')) "n")
        eqn:Hn; [|done].
      apply replaceEscapedNewlines_head in Hn. rewrite startsWith_n in Hn.
      congruence.
Qed.

Lemma collapse_head s :
  Js.startsWith (collapseWhiteSpace false s) "n" = true ->
  Js.startsWith s "n" = true.
Proof.
  destruct s as [|c s]; [done|]. cbn [collapseWhiteSpace].
  destruct (Js.isWhiteSpace c) eqn:Hc; [|by rewrite !startsWith_n].
  by rewrite startsWith_n.
Qed.

Lemma noEscapedNewline_collapse b s :
  noEscapedNewline s = true ->
  noEscapedNewline (collapseWhiteSpace b s) = true.
Proof.
  revert b. induction s as [|c s IH]; intros b; [done|].
  cbn [noEscapedNewline collapseWhiteSpace].
  intros [Hc Hs]%andb_true_iff. destruct (Js.isWhiteSpace c) eqn:Hw.
  - destruct b; [by apply IH|]. cbn [noEscapedNewline].
    by rewrite (IH true Hs).
  - cbn [noEscapedNewline]. rewrite (IH false Hs), andb_true_r.
    destruct (Ascii.eqb c "092"); [|done]. cbn [andb] in *.
    destruct (Js.startsWith (collapseWhiteSpace false s) "n") eqn:Hn; [|done].
    apply collapse_head in Hn. by rewrite Hn in Hc.
Qed.

Lemma noEscapedNewline_trimStart s :
  noEscapedNewline s = true -> noEscapedNewline (Js.trimStart s) = true.
Proof.
  induction s as [|c s IH]; [done|]. cbn [Js.trimStart].
  destruct (Js.isWhiteSpace c); [|done].
  cbn [noEscapedNewline]. intros [_ H]%andb_true_iff. by apply IH.
Qed.

Lemma noEscapedNewline_prefix s t :
  noEscapedNewline (s +:+ t) = true -> noEscapedNewline s = true.
Proof.
  induction s as [|c s IH]; [done|]. rewrite app_cons.
  cbn [noEscapedNewline]. intros [Hc Hs]%andb_true_iff.
  rewrite (IH Hs), andb_true_r.
  destruct (Ascii.eqb c "092"); [|done]. cbn [andb] in *.
  destruct s as [|x s]; [done|]. by rewrite app_cons, !startsWith_n in *.
Qed.

Lemma noEscapedNewline_trim s :
  noEscapedNewline s = true -> noEscapedNewline (Js.trim s) = true.
Proof.
  intros H%noEscapedNewline_trimStart. unfold Js.trim.
  destruct (trimEnd_spec (Js.trimStart s)) as (r & Hs & _).
  rewrite Hs in H. by apply noEscapedNewline_prefix in H.
Qed.

Lemma replaceEscapedNewlines_fixed s :
  noEscapedNewline s = true -> replaceEscapedNewlines s = s.
Proof.
  induction s as [|c s IH]; [done|]. cbn [noEscapedNewline].
  intros [Hc Hs]%andb_true_iff.
  destruct s as [|c' s'']; [done|]. rewrite startsWith_n in Hc.
  apply negb_true_iff in Hc.
  by rewrite replaceEscapedNewlines_cons, Hc, (IH Hs).
Qed.

(** X9: a sanitized description has no white space but single spaces
    between two other characters: none at either end, no two in a row, no
    tab or line break; and no backslash followed by "n" is left in it.
    Sanitizing it again changes nothing. *)
Theorem sanitizeDescription_normal_form (text : string) :
  singleSpaced true (sanitizeDescription text) = true
  /\ Js.trim (sanitizeDescription text) = sanitizeDescription text
  /\ noEscapedNewline (sanitizeDescription text) = true
  /\ sanitizeDescription (sanitizeDescription text) = sanitizeDescription text.
Proof.
  assert (H1 : singleSpaced true (sanitizeDescription text) = true).
  { unfold sanitizeDescription, Js.trim.
    apply singleSpaced_trimEnd, (singleSpaced_trimStart false),
      singleSpaced_collapse. }
  assert (H2 : Js.trim (sanitizeDescription text) = sanitizeDescription text)
    by apply trim_idempotent.
  assert (H3 : noEscapedNewline (sanitizeDescription text) = true).
  { unfold sanitizeDescription.
    apply noEscapedNewline_trim, noEscapedNewline_collapse,
      noEscapedNewline_replace. }
  split; [done|]. split; [done|]. split; [done|].
  unfold sanitizeDescription at 1.
  rewrite (replaceEscapedNewlines_fixed _ H3).
  rewrite (collapse_fixed false); [exact H2|].
  revert H1. generalize (sanitizeDescription text). intros [|c s]; [done|].
  cbn [singleSpaced]. destruct (Js.isWhiteSpace c); [|done].
  by rewrite andb_false_r.
Qed.

(** ** Image extensions *)

Lemma takeUntil_spec stop s :
  exists rest,
    s = Js.takeUntil stop s +:+ rest
    /\ allChars (fun c => negb (stop c)) (Js.takeUntil stop s) = true
    /\ (rest = "" \/ exists c r, rest = String c r /\ stop c = true).
Proof.
  induction s as [|c s (rest & Hs & Hall & Hrest)].
  - exists "". auto.
  - cbn [Js.takeUntil]. destruct (stop c) eqn:Hc.
    + exists (String c s). split; [done|]. split; [done|]. eauto.
    + exists rest. rewrite app_cons, <- Hs. split; [done|]. split; [|done].
      cbn. by rewrite Hc.
Qed.

Lemma takeUntil_app_stop stop a c b :
  stop c = true ->
  Js.takeUntil stop (a +:+ String c b) = Js.takeUntil stop a.
Proof.
  intros Hc. induction a as [|x a IH].
  - rewrite app_empty_l. cbn. by rewrite Hc.
  - rewrite app_cons. cbn [Js.takeUntil]. by rewrite IH.
Qed.

Lemma lowerChar_queryOrHash c :
  isQueryOrHash (Js.lowerChar c) = isQueryOrHash c.
Proof. destruct c as [[] [] [] [] [] [] [] []]; by vm_compute. Qed.

Lemma takeUntil_toLowerCase s :
  Js.takeUntil isQueryOrHash (Js.toLowerCase s)
  = Js.toLowerCase (Js.takeUntil isQueryOrHash s).
Proof.
  induction s as [|c s IH]; [done|]. cbn [Js.toLowerCase Js.takeUntil].
  rewrite lowerChar_queryOrHash. destruct (isQueryOrHash c); [done|].
  cbn [Js.toLowerCase]. by rewrite IH.
Qed.

Lemma isValidImage_iff url :
  isValidImage url = true
  <-> exists ext front,
        ext ∈ IMAGE_EXTENSIONS
        /\ Js.toLowerCase (Js.takeUntil isQueryOrHash url) = front +:+ ext.
Proof.
  unfold isValidImage. rewrite takeUntil_toLowerCase, existsb_exists. split.
  - intros (ext & Hin & (front & H)%endsWith_iff). exists ext, front.
    by rewrite list_elem_of_In.
  - intros (ext & front & Hin & H). exists ext.
    rewrite <- list_elem_of_In. split; [done|]. apply endsWith_iff. eauto.
Qed.

Lemma isGif_iff url :
  isGif url = true
  <-> exists front,
        Js.toLowerCase (Js.takeUntil isQueryOrHash url) = front +:+ ".gif".
Proof.
  unfold isGif. rewrite takeUntil_toLowerCase. apply endsWith_iff.
Qed.

(** X10: the extension tests of the script look at the URL up to its
    first "?" or "#", whatever the case of its letters: [isValidImage]
    holds exactly when that part, in lower case, ends with one of the
    seven image extensions, and the GIF test of [maybeMaterializeImage]
    when it ends with ".gif".  So a query or a fragment put behind a URL
    changes neither test, and a URL that is converted as a GIF is always
    one that [isValidImage] accepts. *)
Theorem image_extension_tests (url : string) :
  (exists rest,
      url = Js.takeUntil isQueryOrHash url +:+ rest
      /\ allChars notQueryOrHash (Js.takeUntil isQueryOrHash url) = true
      /\ (rest = "" \/ exists c r, rest = String c r /\ isQueryOrHash c = true))
  /\ (isValidImage url = true
      <-> exists ext front,
            ext ∈ IMAGE_EXTENSIONS
            /\ Js.toLowerCase (Js.takeUntil isQueryOrHash url) = front +:+ ext)
  /\ (isGif url = true
      <-> exists front,
            Js.toLowerCase (Js.takeUntil isQueryOrHash url) = front +:+ ".gif")
  /\ (forall c rest,
        isQueryOrHash c = true ->
        isValidImage (url +:+ String c rest) = isValidImage url
        /\ isGif (url +:+ String c rest) = isGif url)
  /\ (isGif url = true -> isValidImage url = true).
Proof.
  split; [apply takeUntil_spec|]. split; [apply isValidImage_iff|].
  split; [apply isGif_iff|]. split.
  - intros c rest Hc. unfold isValidImage, isGif.
    rewrite !takeUntil_toLowerCase, takeUntil_app_stop by done. done.
  - intros (front & H)%isGif_iff. apply isValidImage_iff.
    exists ".gif", front. split; [|done].
    do 3 apply list_elem_of_further. apply list_elem_of_here.
Qed.

Lemma image_extension_tests_witness :
  isValidImage "Shot.PNG" = true
  /\ isValidImage ("Shot.PNG" +:+ String "?" "raw=true") = isValidImage "Shot.PNG".
Proof.
  pose proof (image_extension_tests "Shot.PNG") as (Hpath & Hvalid & Hgif & Hquery & Himp).
  split.
  - apply Hvalid. exists ".png", "shot". split; [|reflexivity].
    apply list_elem_of_here.
  - apply (Hquery "?"%char "raw=true"). reflexivity.
Defined.

(** ** The two image scanners *)

Lemma scanAll_sound matchAt s : forall skip x,
  x ∈ scanAll matchAt skip s ->
  exists before rest len,
    s = before +:+ rest /\ matchAt rest = Some (x, len).
Proof.
  induction s as [|c s IH]; intros skip x; cbn [scanAll].
  - by intros ?%elem_of_nil.
  - assert (Hlater : forall k, x ∈ scanAll matchAt k s ->
              exists before rest len,
                String c s = before +:+ rest /\ matchAt rest = Some (x, len)).
    { intros k (before & rest & len & -> & H)%IH.
      exists (String c before), rest, len. by rewrite app_cons. }
    destruct skip as [|k]; [|apply Hlater].
    destruct (matchAt (String c s)) as [[capture len]|] eqn:E; [|apply Hlater].
    intros [->|H]%elem_of_cons; [|by apply (Hlater (len - 1))].
    exists "", (String c s), len. by rewrite app_empty_l.
Qed.

Lemma scanAll_skip matchAt (P : ascii -> bool) before rest :
  (forall c s, P c = true -> matchAt (String c s) = None) ->
  allChars P before = true ->
  scanAll matchAt 0 (before +:+ rest) = scanAll matchAt 0 rest.
Proof.
  intros Hnone. induction before as [|c before IH]; [done|].
  cbn [allChars]. intros [Hc Hall]%andb_true_iff.
  rewrite app_cons. cbn [scanAll]. rewrite (Hnone c _ Hc). by apply IH.
Qed.

Lemma markdownImageAt_Some s target len :
  markdownImageAt s = Some (target, len)
  <-> exists alt after,
        s = "![" +:+ alt +:+ "](" +:+ target +:+ String ")" after
        /\ allChars (notChar "]") alt = true
        /\ allChars (notChar ")") target = true
        /\ target <> ""
        /\ len = 5 + String.length alt + String.length target.
Proof.
  unfold markdownImageAt. split.
  - destruct (Js.startsWith s "![") eqn:E; [|done].
    apply startsWith_iff in E as (rest & ->).
    change (Js.sliceFrom 2 ("![" +:+ rest)) with rest.
    destruct (spanUntil "]" rest) as [[alt [|c s3]]|] eqn:E1; [done| |done].
    destruct (Ascii.eqb_spec c "(") as [->|]; [|done].
    destruct (spanUntil ")" s3) as [[t after]|] eqn:E2; [|done].
    destruct (Js.truthy t) eqn:Ht; [|done]. intros [= <- <-].
    apply spanUntil_Some in E1 as [-> Halt].
    apply spanUntil_Some in E2 as [-> Ht2].
    exists alt, after. by apply truthy_iff in Ht.
  - intros (alt & after & -> & Halt & Ht & Hne & ->).
    rewrite (proj2 (startsWith_iff _ _)) by eauto.
    change (Js.sliceFrom 2 ("![" +:+ ?r)) with r.
    assert (spanUntil "]" (alt +:+ "](" +:+ target +:+ String ")" after)
            = Some (alt, String "(" (target +:+ String ")" after))) as ->
      by by apply spanUntil_Some.
    rewrite Ascii.eqb_refl.
    assert (spanUntil ")" (target +:+ String ")" after) = Some (target, after))
      as -> by by apply spanUntil_Some.
    by rewrite (proj2 (truthy_iff _) Hne).
Qed.

Lemma markdownImageAt_head c s :
  notChar "!" c = true -> markdownImageAt (String c s) = None.
Proof.
  unfold notChar, markdownImageAt. intros Hc.
  destruct (Js.startsWith (String c s) "![") eqn:E; [|done].
  apply startsWith_iff in E as (rest & [= -> _]). done.
Qed.

(** X11: the markdown image scan of [extractFirstImage].  Every target it
    yields stands in the README as the target of an image: the README reads
    [before ![alt](target) after] with no closing bracket in [alt], and
    [target] non-empty and without closing parenthesis.  And an image with
    no exclamation mark before it is the first one the scan yields. *)
Theorem markdown_image_scan (markdown : string) :
  (forall target,
      target ∈ scanAll markdownImageAt 0 markdown ->
      exists before alt after,
        markdown
        = before +:+ "![" +:+ alt +:+ "](" +:+ target +:+ String ")" after
        /\ allChars (notChar "]") alt = true
        /\ allChars (notChar ")") target = true
        /\ target <> "")
  /\ (forall before alt target after,
        markdown
        = before +:+ "![" +:+ alt +:+ "](" +:+ target +:+ String ")" after ->
        allChars (notChar "!") before = true ->
        allChars (notChar "]") alt = true ->
        allChars (notChar ")") target = true ->
        target <> "" ->
        head (scanAll markdownImageAt 0 markdown) = Some target).
Proof.
  split.
  - intros target (before & rest & len & -> & H)%scanAll_sound.
    apply markdownImageAt_Some in H as (alt & after & -> & Halt & Ht & Hne & _).
    by exists before, alt, after.
  - intros before alt target after -> Hbefore Halt Ht Hne.
    rewrite (scanAll_skip _ _ _ _ markdownImageAt_head Hbefore).
    assert (markdownImageAt ("![" +:+ alt +:+ "](" +:+ target +:+ String ")" after)
            = Some (target, 5 + String.length alt + String.length target)) as E.
    { apply markdownImageAt_Some. by exists alt, after. }
    change ("![" +:+ ?r) with (String "!" (String "[" r)) in *.
    cbn [scanAll]. by rewrite E.
Qed.

Lemma markdown_image_scan_witness :
  head (scanAll markdownImageAt 0 Sample.coolReadme)
  = Some "./demo.gif".
Proof.
  apply (proj2 (markdown_image_scan Sample.coolReadme)
           ("# Cool Mod" +:+ Sample.LF) "demo" "./demo.gif" Sample.LF);
    reflexivity || (intros H; discriminate H).
Defined.

Lemma spanUntilClass_Some stop s run rest :
  spanUntilClass stop s = Some (run, rest) ->
  exists q,
    s = run +:+ String q rest /\ stop q = true
    /\ allChars (fun c => negb (stop c)) run = true.
Proof.
  revert run. induction s as [|c s IH]; intros run; [done|].
  cbn [spanUntilClass]. destruct (stop c) eqn:Hc.
  - intros [= <- <-]. by exists c.
  - destruct (spanUntilClass stop s) as [[run' rest']|]; [|done].
    intros [= <- <-]. destruct (IH run' eq_refl) as (q & -> & Hq & Hall).
    exists q. rewrite app_cons. cbn [allChars]. by rewrite Hc, Hall.
Qed.

Lemma startsWith_lower p : forall s,
  Js.startsWith (Js.toLowerCase s) p = true ->
  exists a b,
    s = a +:+ b /\ Js.toLowerCase a = p /\ Js.sliceFrom (String.length p) s = b.
Proof.
  induction p as [|x p IH]; intros s.
  - intros _. exists "", s. by destruct s.
  - destruct s as [|c s]; [done|]. cbn [Js.toLowerCase Js.startsWith].
    intros [Hc (a & b & -> & Ha & Hb)%IH]%andb_true_iff.
    apply Ascii.eqb_eq in Hc. exists (String c a), b.
    rewrite app_cons. cbn [Js.toLowerCase]. by rewrite Ha, Hc.
Qed.

Lemma srcAttributeAt_Some s target len :
  srcAttributeAt s = Some (target, len) ->
  exists src q1 q2 tail after,
    s = src +:+ String q1 (target +:+ String q2 (tail +:+ String ">" after))
    /\ Js.toLowerCase src = "src="
    /\ isQuote q1 = true /\ isQuote q2 = true
    /\ allChars notQuote target = true /\ target <> ""
    /\ allChars (notChar ">") tail = true
    /\ len = 7 + String.length target + String.length tail.
Proof.
  unfold srcAttributeAt.
  destruct (Js.startsWith (Js.toLowerCase s) "src=") eqn:E; [|done].
  apply startsWith_lower in E as (src & rest & -> & Hsrc & Hrest).
  cbn [String.length] in Hrest. rewrite Hrest.
  destruct rest as [|q1 s1]; [done|].
  destruct (isQuote q1) eqn:Hq1; [|done].
  destruct (spanUntilClass isQuote s1) as [[t s2]|] eqn:E1; [|done].
  destruct (spanUntil ">" s2) as [[tail after]|] eqn:E2; [|done].
  destruct (Js.truthy t) eqn:Ht; [|done]. intros [= <- <-].
  apply spanUntilClass_Some in E1 as (q2 & -> & Hq2 & Hall).
  apply spanUntil_Some in E2 as [-> Htail].
  exists src, q1, q2, tail, after. by apply truthy_iff in Ht.
Qed.

Lemma afterImgTag_Some s : forall target len,
  afterImgTag s = Some (target, len) ->
  exists attrs rest n,
    s = attrs +:+ rest /\ allChars (notChar ">") attrs = true
    /\ srcAttributeAt rest = Some (target, n).
Proof.
  induction s as [|c s IH]; intros target len; [done|].
  cbn [afterImgTag].
  assert (Hhere : srcAttributeAt (String c s) = Some (target, len) ->
            exists attrs rest n,
              String c s = attrs +:+ rest
              /\ allChars (notChar ">") attrs = true
              /\ srcAttributeAt rest = Some (target, n)).
  { intros H. exists "", (String c s), len. by rewrite app_empty_l. }
  destruct (Ascii.eqb c ">") eqn:Hc; [done|].
  destruct (afterImgTag s) as [[capture n]|]; [|done].
  intros [= <- <-].
  destruct (IH capture n eq_refl) as (attrs & rest & k & -> & Hall & H).
  exists (String c attrs), rest, k. rewrite app_cons. cbn [allChars].
  unfold notChar at 1. by rewrite Hc, Hall.
Qed.

Lemma htmlImageAt_head c s :
  notChar "<" c = true -> htmlImageAt (String c s) = None.
Proof.
  unfold notChar, htmlImageAt. intros Hc.
  destruct (Js.startsWith (Js.toLowerCase (String c s)) "<img") eqn:E; [|done].
  apply startsWith_lower in E as (a & b & Hs & Ha & _).
  apply toLowerCase_cons in Ha as (x & a' & -> & Hx & _).
  rewrite app_cons in Hs. injection Hs as -> _.
  exfalso. revert Hc Hx. clear.
  destruct x as [[] [] [] [] [] [] [] []]; by vm_compute.
Qed.

(** X12: the HTML image scan of [extractFirstImage].  Every target it
    yields stands in the README inside an image tag: the README reads
    [before <img attrs src= q1 target q2 tail > after], the letters of
    [<img] and [src=] in any case, [q1] and [q2] quotes (double or single,
    not necessarily the same one), [target] non-empty and without quote,
    and no [>] in [attrs] and [tail]. *)
Theorem html_image_scan (markdown target : string) :
  target ∈ scanAll htmlImageAt 0 markdown ->
  exists before tag attrs src q1 q2 tail after,
    markdown
    = before +:+ tag +:+ attrs +:+ src
      +:+ String q1 (target +:+ String q2 (tail +:+ String ">" after))
    /\ Js.toLowerCase tag = "<img" /\ Js.toLowerCase src = "src="
    /\ isQuote q1 = true /\ isQuote q2 = true
    /\ allChars (notChar ">") attrs = true
    /\ allChars notQuote target = true /\ target <> ""
    /\ allChars (notChar ">") tail = true.
Proof.
  intros (before & rest & len & -> & H)%scanAll_sound.
  unfold htmlImageAt in H.
  destruct (Js.startsWith (Js.toLowerCase rest) "<img") eqn:E; [|done].
  apply startsWith_lower in E as (tag & rest' & -> & Htag & Hrest).
  cbn [String.length] in Hrest. rewrite Hrest in H.
  destruct (afterImgTag rest') as [[capture n]|] eqn:E1; [|done].
  injection H as -> _.
  apply afterImgTag_Some in E1 as (attrs & rest'' & k & -> & Hattrs & E2).
  apply srcAttributeAt_Some in E2
    as (src & q1 & q2 & tail & after & -> & Hsrc & Hq1 & Hq2 & Ht & Hne & Htail & _).
  by exists before, tag, attrs, src, q1, q2, tail, after.
Qed.

Lemma html_image_scan_witness :
  exists before tag attrs src q1 q2 tail after,
    Sample.anotherReadme
    = before +:+ tag +:+ attrs +:+ src
      +:+ String q1 ("shot.png" +:+ String q2 (tail +:+ String ">" after))
    /\ Js.toLowerCase tag = "<img" /\ Js.toLowerCase src = "src="
    /\ isQuote q1 = true /\ isQuote q2 = true
    /\ allChars (notChar ">") attrs = true
    /\ allChars notQuote "shot.png" = true /\ "shot.png" <> ""
    /\ allChars (notChar ">") tail = true.
Proof.
  apply (html_image_scan Sample.anotherReadme "shot.png").
  vm_compute. apply list_elem_of_here.
Defined.

(** X13: a README without exclamation mark and without [<] has no preview
    image: [extractFirstImage] resolves to [null] and asks nothing of the
    URL parser. *)
Theorem plain_readme_has_no_image (w : World) (markdown relativePath : string)
    (st : RunState) :
  allChars plainChar markdown = true ->
  scanAll markdownImageAt 0 markdown = []
  /\ scanAll htmlImageAt 0 markdown = []
  /\ extractFirstImage w markdown relativePath st = Resolved None st.
Proof.
  intros Hplain.
  assert (scanAll markdownImageAt 0 markdown = []) as Hmd.
  { rewrite <- (app_empty_r markdown).
    rewrite (scanAll_skip _ (notChar "!") markdown "" markdownImageAt_head); [done|].
    revert Hplain. apply allChars_impl. unfold plainChar.
    by intros c [H _]%andb_true_iff. }
  assert (scanAll htmlImageAt 0 markdown = []) as Hhtml.
  { rewrite <- (app_empty_r markdown).
    rewrite (scanAll_skip _ (notChar "<") markdown "" htmlImageAt_head); [done|].
    revert Hplain. apply allChars_impl. unfold plainChar.
    by intros c [_ H]%andb_true_iff. }
  split; [done|]. split; [done|].
  unfold extractFirstImage. by rewrite Hmd, Hhtml.
Qed.

Lemma plain_readme_has_no_image_witness :
  extractFirstImage Sample.online "# Plate, no picture yet" "carol/plate"
    Sample.freshDisk
  = Resolved None Sample.freshDisk.
Proof.
  apply (plain_readme_has_no_image Sample.online "# Plate, no picture yet"
           "carol/plate" Sample.freshDisk).
  reflexivity.
Defined.

(** ** The order of the snapshot *)

Lemma insertByTitle_titles w d sorted :
  List.map Draft.title (insertByTitle w d sorted)
  ≡ₚ Draft.title d :: List.map Draft.title sorted.
Proof. by rewrite insertByTitle_perm. Qed.

(** With a consistent comparator any two titles are comparable and the
    order is transitive. *)
Lemma consistent_total w a b :
  ConsistentComparator w -> titleOrder w a b \/ titleOrder w b a.
Proof.
  intros (Hrefl & Hsym & _ & _ & Hgt). unfold titleOrder.
  destruct (Z.compare_spec (localeCompare w a b) 0) as [E|E|E];
    [left; lia|left; lia|].
  destruct (Z.compare_spec (localeCompare w b a) 0) as [E'|E'|E'];
    [right; lia|right; lia|].
  pose proof (Hgt a b a ltac:(lia) ltac:(lia)). pose proof (Hrefl a). lia.
Qed.

Lemma consistent_flip w a b :
  ConsistentComparator w ->
  (localeCompare w a b > 0 -> localeCompare w b a < 0)%Z.
Proof.
  intros (Hrefl & Hsym & _ & _ & Hgt) E.
  destruct (Z.compare_spec (localeCompare w b a) 0) as [E'|E'|E']; [|done|].
  - apply Hsym in E'. lia.
  - pose proof (Hgt a b a ltac:(lia) ltac:(lia)). pose proof (Hrefl a). lia.
Qed.

Lemma consistent_trans w a b c :
  ConsistentComparator w ->
  titleOrder w a b -> titleOrder w b c -> titleOrder w a c.
Proof.
  intros Hw. pose proof Hw as (Hrefl & Hsym & Heq & Hlt & Hgt).
  unfold titleOrder. intros Hab Hbc.
  destruct (Z.compare_spec (localeCompare w a c) 0) as [E|E|E]; [lia|lia|].
  exfalso.
  pose proof (consistent_flip w a c Hw ltac:(lia)) as Hca.
  destruct (Z.compare_spec (localeCompare w a b) 0) as [E1|E1|E1]; [| |lia];
    destruct (Z.compare_spec (localeCompare w b c) 0) as [E2|E2|E2];
    try lia.
  - pose proof (Heq a b c E1 E2). lia.
  - (* a = b, b < c, c < a *)
    pose proof (Hlt b c a E2 Hca) as Hba. apply Hsym in E1. lia.
  - (* a < b, b = c, c < a *)
    pose proof (Hlt c a b Hca E1) as Hcb. apply Hsym in E2. lia.
  - pose proof (Hlt a b c E1 E2). lia.
Qed.

Lemma insertByTitle_sorted w d sorted :
  ConsistentComparator w ->
  StronglySorted (titleOrder w) (List.map Draft.title sorted) ->
  StronglySorted (titleOrder w) (List.map Draft.title (insertByTitle w d sorted)).
Proof.
  intros Hw. induction sorted as [|e sorted IH]; cbn [insertByTitle].
  - intros _. cbn. constructor; constructor.
  - intros Hsorted. pose proof Hsorted as Hsorted'.
    cbn [List.map] in Hsorted'. apply StronglySorted_inv in Hsorted' as [Htail He].
    destruct (localeCompare w (Draft.title d) (Draft.title e) <=? 0)%Z eqn:E.
    + apply Z.leb_le in E. cbn [List.map]. constructor; [done|].
      constructor; [done|]. revert He. apply List.Forall_impl.
      intros x. by apply consistent_trans.
    + apply Z.leb_gt in E. cbn [List.map]. constructor; [by apply IH|].
      rewrite insertByTitle_titles. constructor; [|done].
      destruct (consistent_total w (Draft.title d) (Draft.title e) Hw)
        as [H|H]; [|done].
      unfold titleOrder in H. lia.
Qed.

Lemma sortByTitle_sorted w drafts :
  ConsistentComparator w ->
  StronglySorted (titleOrder w) (List.map Draft.title (sortByTitle w drafts)).
Proof.
  intros Hw. induction drafts as [|d drafts IH]; cbn [sortByTitle fold_right].
  - constructor.
  - by apply insertByTitle_sorted.
Qed.

Lemma SameButImage_titles rows drafts :
  Forall2 SameButImage rows drafts ->
  List.map Draft.title drafts = List.map Draft.title rows.
Proof.
  induction 1 as [|m m' rows drafts [->|(image & ->)] _ IH]; cbn; [done|..];
    by rewrite IH.
Qed.

(** The order of the code units, the comparator of the samples, is
    consistent. *)
Lemma byteOrder_consistent (w : World) :
  localeCompare w = Sample.byteOrder -> ConsistentComparator w.
Proof.
  intros Hw. unfold ConsistentComparator. rewrite Hw. unfold Sample.byteOrder.
  assert (Hrefl : forall a, String.compare a a = Eq).
  { intros a. by apply OrderedTypeEx.String_as_OT.cmp_eq. }
  assert (Hgt : forall a b, String.compare a b = Gt <-> String.compare b a = Lt).
  { intros a b. rewrite OrderedTypeEx.String_as_OT.cmp_antisym.
    unfold OrderedTypeEx.String_as_OT.cmp.
    destruct (String.compare b a); cbn; split; congruence. }
  split; [intros a; by rewrite Hrefl|].
  split.
  { intros a b. destruct (String.compare a b) eqn:E; try lia. intros _.
    apply OrderedTypeEx.String_as_OT.cmp_eq in E as ->. by rewrite Hrefl. }
  split.
  { intros a b c. destruct (String.compare a b) eqn:E1; try lia.
    apply OrderedTypeEx.String_as_OT.cmp_eq in E1 as ->. done. }
  split.
  { intros a b c. destruct (String.compare a b) eqn:E1; try lia.
    destruct (String.compare b c) eqn:E2; try lia. intros _ _.
    apply OrderedTypeEx.String_as_OT.cmp_lt in E1, E2.
    pose proof (OrderedTypeEx.String_as_OT.lt_trans a b c E1 E2) as E3.
    apply OrderedTypeEx.String_as_OT.cmp_lt in E3.
    unfold OrderedTypeEx.String_as_OT.cmp in E3. by rewrite E3. }
  intros a b c. destruct (String.compare a b) eqn:E1; try lia.
  destruct (String.compare b c) eqn:E2; try lia. intros _ _.
  apply Hgt in E1, E2.
  apply OrderedTypeEx.String_as_OT.cmp_lt in E1, E2.
  pose proof (OrderedTypeEx.String_as_OT.lt_trans c b a E2 E1) as E3.
  apply OrderedTypeEx.String_as_OT.cmp_lt in E3.
  unfold OrderedTypeEx.String_as_OT.cmp in E3. apply Hgt in E3.
  by rewrite E3.
Qed.

Lemma titleOf_toMod d :
  titleOf (JObj (stringifyObject (toMod d))) = Some (Draft.title d).
Proof. unfold titleOf, fieldOf. by rewrite stringify_toMod. Qed.

Lemma titlesOf_payload drafts stamp :
  titlesOf (Some (stringifyPayload (List.map toMod drafts) stamp))
  = List.map Draft.title drafts.
Proof.
  unfold titlesOf, stringifyPayload. cbn [modsOf].
  induction drafts as [|d drafts IH]; [done|].
  cbn [List.map omap list_omap]. by rewrite titleOf_toMod, IH.
Qed.

(** X14: the snapshot of a run that completes lists the rows of the table
    it fetched, each once: it has as many mods as the table has rows,
    every mod has a title, and the titles are those of the rows.  When
    the comparator of the platform is a consistent comparison function,
    the mods stand in the order of their titles: every mod may stand
    before every later one. *)
Theorem snapshot_lists_rows_by_title (w : World) (st st' : RunState) :
  main w st = Resolved tt st' ->
  exists response,
    net w README_URL = Some response /\ ok response = true
    /\ List.length (modsOf (modsJson st'))
       = List.length (parseMods (text response))
    /\ List.length (titlesOf (modsJson st'))
       = List.length (modsOf (modsJson st'))
    /\ titlesOf (modsJson st')
       ≡ₚ List.map Draft.title (parseMods (text response))
    /\ (ConsistentComparator w ->
        StronglySorted (titleOrder w) (titlesOf (modsJson st'))).
Proof.
  intros (response & c & drafts & st2 & Hnet & Hok & Hadd & _ & _ & ->)
           %main_resolved.
  destruct (addPreviewImages_cases w
              (sortByTitle w (parseMods (text response)))
              (setCache c (logRequest README_URL st))) as [_ H].
  destruct (H _ _ Hadd) as [Hsame _]. clear H.
  exists response. split; [done|]. split; [done|].
  assert (Hjson : modsJson
                    ((if readdirOk w
                      then setFiles
                             (filter (fun entry =>
                                        localImagePrefix +:+ fst entry
                                        ∈ usedLocalImages st2
                                        \/ unlinkOk w (fst entry) = false)
                                (files st2))
                      else (fun st3 => st3))
                       (setImageCacheFile (Some (stringifyCache (cache st2)))
                          (setModsJson
                             (Some (stringifyPayload (List.map toMod drafts)
                                      (now w (requests st2))))
                             st2)))
                  = Some (stringifyPayload (List.map toMod drafts)
                            (now w (requests st2)))).
  { by destruct (readdirOk w). }
  rewrite Hjson, titlesOf_payload.
  pose proof (SameButImage_titles _ _ Hsame) as Htitles.
  assert (Hmods : List.length
                    (modsOf (Some (stringifyPayload (List.map toMod drafts)
                                     (now w (requests st2)))))
                  = List.length drafts).
  { unfold stringifyPayload. cbn [modsOf]. by rewrite !length_map. }
  rewrite Hmods, length_map. split; [|split; [done|split]].
  - rewrite <- (Forall2_length _ _ _ Hsame). by rewrite sortByTitle_perm.
  - rewrite Htitles. by rewrite sortByTitle_perm.
  - intros Hw. rewrite Htitles. by apply sortByTitle_sorted.
Qed.

Lemma snapshot_lists_rows_by_title_witness :
  titlesOf (modsJson (snd (run Sample.online Sample.freshDisk)))
  = ["Another"; "Bracket"; "Cool Mod"]
  /\ StronglySorted (titleOrder Sample.online)
       (titlesOf (modsJson (snd (run Sample.online Sample.freshDisk)))).
Proof.
  destruct (snapshot_lists_rows_by_title Sample.online Sample.freshDisk
              (snd (run Sample.online Sample.freshDisk)))
    as (response & _ & _ & _ & _ & _ & Hsorted).
  - by vm_compute.
  - split; [by vm_compute|]. by apply Hsorted, byteOrder_consistent.
Defined.

(** ** The first version of the script and the current one *)

Lemma extractLink_title cell :
  fst (V1.extractLink cell) = fst (fst (extractLink cell)).
Proof.
  unfold V1.extractLink, extractLink.
  by destruct (matchLink cell) as [[title rawLink]|].
Qed.

Lemma parseLoop_versions lines : forall inTable lastCreator,
  Forall2 SameRow (V1.parseLoop inTable lastCreator lines)
    (parseLoop inTable lastCreator lines).
Proof.
  induction lines as [|line rest IH]; intros inTable lastCreator;
    cbn [V1.parseLoop parseLoop]; [constructor|].
  destruct (negb inTable && Js.startsWith (Js.trim line) "| Creator");
    [apply IH|].
  destruct (negb inTable); [apply IH|].
  destruct (Js.startsWith (Js.trim line) "| ---"); [apply IH|].
  destruct (negb (Js.startsWith (Js.trim line) "|")).
  { destruct inTable; [constructor|apply IH]. }
  cbn zeta. destruct (List.length (rowCells line) <? 5); [apply IH|].
  destruct (rowCells line)
    as [|initialCreator [|titleCell [|description [|compatibilityCell
         [|lastChanged cells]]]]]; try apply IH.
  destruct (V1.extractLink titleCell) as [title1 link1] eqn:E1.
  destruct (extractLink titleCell) as [[title link] sourcePath] eqn:E.
  constructor; [|apply IH].
  exists titleCell. rewrite E1, E.
  split; [reflexivity|]. split; reflexivity.
Qed.

(** X16: the first version of the script, [scripts/parseReadme.ts], and
    the current parser read the same rows from any table, with the same
    creator, title, description, compatibility and change token.  The
    links differ only for a title cell whose link target begins with "./"
    (the current version drops it) or where beginning with "http" and
    being an http(s) URL are not the same thing (the first version keeps
    such a target as it is). *)
Theorem parser_versions_agree (markdown : string) :
  Forall2 SameRow (V1.parseMods markdown) (parseMods markdown)
  /\ Forall2 (fun old new =>
                V1.creator old = Draft.creator new
                /\ V1.title old = Draft.title new
                /\ V1.description old = Draft.description new
                /\ V1.compatibility old = Draft.compatibility new
                /\ V1.lastChanged old = Draft.lastChanged new)
       (V1.parseMods markdown) (parseMods markdown)
  /\ (forall cell,
        fst (V1.extractLink cell) = fst (fst (extractLink cell))
        /\ (matchLink cell = None ->
            snd (V1.extractLink cell) = snd (fst (extractLink cell)))
        /\ (forall text target,
              matchLink cell = Some (text, target) ->
              Js.startsWith target "./" = false ->
              Js.startsWith target "http" = isAbsoluteHttp target ->
              snd (V1.extractLink cell) = snd (fst (extractLink cell)))).
Proof.
  pose proof (parseLoop_versions (Js.splitLines markdown) false "") as H.
  fold (V1.parseMods markdown) in H. fold (parseMods markdown) in H.
  split; [exact H|]. split.
  - apply (Forall2_impl _ _ _ _ H). intros old new (cell & -> & Ht & _).
    cbn. by rewrite Ht, extractLink_title.
  - intros cell. split; [apply extractLink_title|].
    unfold V1.extractLink, extractLink. split.
    + by intros ->.
    + intros text target -> Hdot Hhttp. cbv zeta. cbn [fst snd].
      destruct (stripDotSlash_spec target) as [Heq|[_ ->]].
      * assert (Js.startsWith target "./" = true)
          by (apply startsWith_iff; eauto).
        congruence.
      * rewrite Hhttp. by destruct (isAbsoluteHttp target).
Qed.

Lemma parser_versions_agree_witness :
  snd (V1.extractLink "[Bracket](https://example.com/bracket)")
  = snd (fst (extractLink "[Bracket](https://example.com/bracket)")).
Proof.
  apply (proj2 (proj2 (proj2 (proj2 (parser_versions_agree ""))
                         "[Bracket](https://example.com/bracket)"))
           "Bracket" "https://example.com/bracket"); reflexivity.
Defined.

(** ** The catalogue page *)

Lemma splitOn_plain sep s :
  allChars (fun c => negb (sep c)) s = true -> Js.splitOn sep s = [s].
Proof.
  induction s as [|c s IH]; [done|]. cbn [allChars Js.splitOn].
  intros [Hc Hs]%andb_true_iff. apply negb_true_iff in Hc.
  by rewrite Hc, IH.
Qed.

Lemma keyName_plain k :
  allChars (fun c => negb (Page.isComma c)) (Page.keyName k) = true
  /\ Js.trim (Page.keyName k) = Page.keyName k
  /\ Page.keyOfName (Page.keyName k) = Some k.
Proof. by destruct k. Qed.

Lemma splitOn_joinWith keys :
  keys <> [] ->
  Js.splitOn Page.isComma (Page.joinWith "," (List.map Page.keyName keys))
  = List.map Page.keyName keys.
Proof.
  induction keys as [|k keys IH]; [done|]. intros _.
  destruct keys as [|k' keys].
  - cbn [List.map Page.joinWith]. apply splitOn_plain, keyName_plain.
  - cbn [List.map Page.joinWith] in *.
    change ("," +:+ ?r) with (String "," r).
    rewrite splitOn_app_sep by done.
    rewrite splitOn_plain by apply keyName_plain. by rewrite IH.
Qed.

(** X17: the selection of printers survives the address of the page.  The
    value that the page writes for the parameter [printers], read back
    the way the page reads it when it loads, is the selection, in its
    order; the page writes no parameter for an empty selection and reads
    an absent parameter as the empty selection. *)
Theorem printers_param_round_trip (selectedPrinters : list PrinterKey) :
  Page.parsePrinters (Page.printersParamOf selectedPrinters) = selectedPrinters
  /\ (Page.printersParamOf selectedPrinters = None <-> selectedPrinters = []).
Proof.
  split; [|by destruct selectedPrinters].
  destruct selectedPrinters as [|k keys]; [done|].
  unfold Page.printersParamOf, Page.parsePrinters.
  assert (Js.truthy (Page.joinWith "," (List.map Page.keyName (k :: keys)))
          = true) as ->.
  { cbn [List.map Page.joinWith]. destruct keys; by destruct k. }
  rewrite splitOn_joinWith by done.
  generalize (k :: keys). intros l.
  assert (Hcons : forall x t,
    omap Page.keyOfName (x :: t)
    = match Page.keyOfName x with
      | Some y => y :: omap Page.keyOfName t
      | None => omap Page.keyOfName t
      end) by reflexivity.
  induction l as [|x l IH]; [done|]. cbn [List.map].
  destruct (keyName_plain x) as (_ & -> & Hx).
  by rewrite Hcons, Hx, IH.
Qed.

Lemma stringIncludes_iff hay needle :
  Page.stringIncludes hay needle = true
  <-> exists before after, hay = before +:+ needle +:+ after.
Proof.
  induction hay as [|c hay IH]; cbn [Page.stringIncludes].
  - rewrite orb_false_r, startsWith_iff. split.
    + intros (rest & H). by exists "", rest.
    + intros ([|] & after & H); [|by rewrite app_cons in H].
      rewrite app_empty_l in H. eauto.
  - rewrite orb_true_iff, startsWith_iff, IH. split.
    + intros [(rest & H)|(before & after & ->)].
      * by exists "", rest.
      * by exists (String c before), after.
    + intros ([|c' before] & after & H).
      * left. rewrite app_empty_l in H. eauto.
      * right. rewrite app_cons in H. injection H as -> ->. eauto.
Qed.

Lemma insertBy_perm {A} (cmp : A -> A -> Z) x sorted :
  Page.insertBy cmp x sorted ≡ₚ x :: sorted.
Proof.
  induction sorted as [|y sorted IH]; cbn [Page.insertBy]; [done|].
  destruct (cmp x y <=? 0)%Z; [done|]. rewrite IH. apply perm_swap.
Qed.

Lemma sortWith_perm {A} (cmp : A -> A -> Z) l : Page.sortWith cmp l ≡ₚ l.
Proof.
  induction l as [|x l IH]; cbn [Page.sortWith fold_right]; [done|].
  fold (Page.sortWith cmp l). rewrite insertBy_perm. by constructor.
Qed.

Lemma matchesPrinters_iff selected m :
  Page.matchesPrinters selected m = true
  <-> forall printer,
        printer ∈ selected -> getFlag printer (Draft.compatibility m) = Tick.
Proof.
  unfold Page.matchesPrinters. rewrite forallb_forall. split.
  - intros H printer Hin%list_elem_of_In. specialize (H printer Hin).
    by destruct (getFlag printer (Draft.compatibility m)).
  - intros H printer Hin%list_elem_of_In. by rewrite (H printer Hin).
Qed.

Lemma filter_all {A} (P : A -> bool) l :
  (forall x, P x = true) -> List.filter P l = l.
Proof.
  intros H. induction l as [|x l IH]; [done|]. cbn. by rewrite H, IH.
Qed.

Lemma filter_submseteq {A} (P : A -> bool) l : List.filter P l ⊆+ l.
Proof.
  induction l as [|x l IH]; [done|]. cbn [List.filter].
  destruct (P x); [by apply submseteq_skip|by apply submseteq_cons].
Qed.

Lemma printers_param_round_trip_witness :
  Page.parsePrinters (Page.printersParamOf [K_v0; K_trident])
  = [K_v0; K_trident].
Proof. exact (proj1 (printers_param_round_trip [K_v0; K_trident])). Defined.

(** X18: the mods that the page lists.  A mod is listed exactly when it is
    in the snapshot, every selected printer has a tick in its
    compatibility, and the search text, trimmed and in lower case, is
    empty or occurs in its title, description and creator, put together
    with spaces and in lower case.  Whatever the sort option, the page
    lists no mod twice the snapshot has once; with a blank search and no
    printer selected it lists the whole snapshot. *)
Theorem filteredMods_spec (cmp : Draft.t -> Draft.t -> Z)
    (mods : list Draft.t) (search : string)
    (selectedPrinters : list PrinterKey) :
  (forall m,
      m ∈ Page.filteredMods cmp mods search selectedPrinters
      <-> m ∈ mods
          /\ (Js.toLowerCase (Js.trim search) = ""
              \/ exists before after,
                   Js.toLowerCase
                     (Draft.title m +:+ " " +:+ Draft.description m
                      +:+ " " +:+ Draft.creator m)
                   = before +:+ Js.toLowerCase (Js.trim search) +:+ after)
          /\ (forall printer,
                printer ∈ selectedPrinters ->
                getFlag printer (Draft.compatibility m) = Tick))
  /\ List.length (Page.filteredMods cmp mods search selectedPrinters)
     <= List.length mods
  /\ Page.filteredMods cmp mods search selectedPrinters ⊆+ mods
  /\ (allChars Js.isWhiteSpace search = true ->
      Page.filteredMods cmp mods search [] ≡ₚ mods).
Proof.
  unfold Page.filteredMods. cbv zeta.
  set (q := Js.toLowerCase (Js.trim search)).
  split; [|split; [|split]].
  - intros m. rewrite sortWith_perm.
    rewrite !list_elem_of_In, !filter_In, matchesPrinters_iff. unfold Page.matchesSearch.
    cbn [Page.joinWith]. destruct q as [|c q'] eqn:Hq; cbn [Js.truthy negb].
    + split; [intros [[H _] Hp]; auto|]. intros (H & _ & Hp). auto.
    + rewrite stringIncludes_iff. split.
      * intros [[H Hs] Hp]. auto.
      * intros (H & [Hs|Hs] & Hp); [done|auto].
  - rewrite sortWith_perm. apply submseteq_length.
    etrans; apply filter_submseteq.
  - rewrite sortWith_perm. etrans; apply filter_submseteq.
  - intros Hblank. rewrite sortWith_perm.
    assert (q = "") as ->.
    { unfold q. by rewrite (proj2 (trim_empty search) Hblank). }
    by rewrite !filter_all.
Qed.

Lemma filteredMods_spec_witness :
  Sample.coolDraft
  ∈ Page.filteredMods (Page.sorters Sample.online (fun _ => None) Page.ByTitle)
      [Sample.anotherDraft; Sample.coolDraft] " Cool " [K_v2_4].
Proof.
  apply (proj1 (filteredMods_spec
                  (Page.sorters Sample.online (fun _ => None) Page.ByTitle)
                  [Sample.anotherDraft; Sample.coolDraft] " Cool " [K_v2_4])
           Sample.coolDraft).
  split; [apply list_elem_of_further, list_elem_of_here|]. split.
  - right. by exists "", " mod a nice mod. alice".
  - intros printer ->%list_elem_of_singleton. reflexivity.
Defined.

Lemma togglePrinter_elem printer prev item :
  item ∈ Page.togglePrinter printer prev
  <-> (item <> printer /\ item ∈ prev) \/ (item = printer /\ printer ∉ prev).
Proof.
  unfold Page.togglePrinter.
  destruct (existsb _ prev) eqn:E.
  - apply existsb_exists in E as (x & Hx%list_elem_of_In & ->%bool_decide_eq_true).
    rewrite list_elem_of_In, filter_In, <- list_elem_of_In, negb_true_iff,
      bool_decide_eq_false.
    split; [intros [? ?]; auto|]. intros [[? ?]|[_ ?]]; done.
  - assert (printer ∉ prev) as Hout.
    { intros Hin%list_elem_of_In.
      assert (existsb (fun item => bool_decide (item = printer)) prev = true);
        [|congruence].
      apply existsb_exists. exists printer. split; [done|].
      by apply bool_decide_eq_true. }
    rewrite elem_of_app, list_elem_of_singleton. split.
    + intros [H| ->]; [left|by right]. split; [|done]. by intros ->.
    + intros [[_ H]|[-> _]]; auto.
Qed.

Lemma filter_all_in {A} (P : A -> bool) l :
  (forall x, x ∈ l -> P x = true) -> List.filter P l = l.
Proof.
  induction l as [|x l IH]; [done|]. intros H. cbn [List.filter].
  rewrite (H x) by apply list_elem_of_here. f_equal. apply IH.
  intros y Hy. by apply H, list_elem_of_further.
Qed.

Lemma togglePrinter_NoDup printer prev :
  NoDup prev -> NoDup (Page.togglePrinter printer prev).
Proof.
  intros Hprev. unfold Page.togglePrinter.
  destruct (existsb _ prev) eqn:E.
  { by apply NoDup_ListNoDup, List.NoDup_filter, NoDup_ListNoDup. }
  apply NoDup_app. split; [done|]. split; [|apply NoDup_singleton].
  intros x Hx ->%list_elem_of_singleton.
  assert (existsb (fun item => bool_decide (item = printer)) prev = true);
    [|congruence].
  apply existsb_exists. exists printer.
  split; [by apply list_elem_of_In|by apply bool_decide_eq_true].
Qed.

(** X19: ticking a printer in the filter panel.  The printer enters the
    selection when it is not in it and leaves it when it is; the other
    printers stay.  A selection without repetition stays so, and ticking
    the same printer twice gives the selection back: the same printers,
    and the same list when the printer was not selected. *)
Theorem togglePrinter_spec (printer : PrinterKey) (prev : list PrinterKey) :
  (forall item,
      item ∈ Page.togglePrinter printer prev
      <-> (item <> printer /\ item ∈ prev)
          \/ (item = printer /\ printer ∉ prev))
  /\ (NoDup prev -> NoDup (Page.togglePrinter printer prev))
  /\ (NoDup prev ->
      Page.togglePrinter printer (Page.togglePrinter printer prev) ≡ₚ prev)
  /\ (printer ∉ prev ->
      Page.togglePrinter printer (Page.togglePrinter printer prev) = prev).
Proof.
  split; [apply togglePrinter_elem|]. split; [apply togglePrinter_NoDup|].
  split.
  - intros Hprev. apply NoDup_Permutation; [|done|].
    + by do 2 apply togglePrinter_NoDup.
    + intros item. rewrite !togglePrinter_elem.
      destruct (decide (item = printer)) as [->|Hne];
        destruct (decide (printer ∈ prev)); tauto.
  - intros Hout. unfold Page.togglePrinter at 2.
    assert (existsb (fun item => bool_decide (item = printer)) prev = false)
      as ->.
    { apply not_true_is_false.
      intros (x & Hx%list_elem_of_In & ->%bool_decide_eq_true)%existsb_exists.
      done. }
    unfold Page.togglePrinter.
    assert (existsb (fun item => bool_decide (item = printer)) (prev ++ [printer])
            = true) as ->.
    { rewrite existsb_app. cbn. rewrite bool_decide_eq_true_2 by done.
      by rewrite orb_true_r. }
    rewrite List.filter_app. cbn. rewrite bool_decide_eq_true_2 by done.
    cbn. rewrite app_nil_r. apply filter_all_in.
    intros y Hy. apply negb_true_iff, bool_decide_eq_false. by intros ->.
Qed.

Lemma togglePrinter_spec_witness :
  Page.togglePrinter K_v2_4 (Page.togglePrinter K_v2_4 [K_v0; K_v2_4])
  ≡ₚ [K_v0; K_v2_4].
Proof.
  apply (proj1 (proj2 (proj2 (togglePrinter_spec K_v2_4 [K_v0; K_v2_4])))).
  apply (bool_decide_unpack _). by vm_compute.
Defined.

(** X20: the mods shown.  The page shows the first mods of the list;
    every [loadMore] shows the mods shown before and, behind them, the
    next ones of the list, twenty-four or those that are left; it shows
    more mods whenever there are more, and when there are no more the
    mods shown are the whole list. *)
Theorem loadMore_shows_next_page (filtered : list Draft.t) (count : nat) :
  Page.visibleMods filtered (Page.loadMore filtered count)
  = Page.visibleMods filtered count
    ++ firstn Page.PAGE_SIZE (skipn count filtered)
  /\ (Page.hasMore filtered count = true ->
      List.length (Page.visibleMods filtered count)
      < List.length (Page.visibleMods filtered (Page.loadMore filtered count)))
  /\ (Page.hasMore filtered count = false ->
      Page.visibleMods filtered count = filtered
      /\ Page.loadMore filtered count = List.length filtered).
Proof.
  unfold Page.visibleMods, Page.loadMore, Page.hasMore.
  assert (Hpage : 0 < Page.PAGE_SIZE) by (unfold Page.PAGE_SIZE; lia).
  revert Hpage. generalize Page.PAGE_SIZE. intros page Hpage.
  assert (Htake : forall n,
    firstn (Nat.min n (List.length filtered)) filtered = firstn n filtered).
  { intros n. destruct (le_lt_dec n (List.length filtered)) as [Hle|Hlt].
    - by rewrite Nat.min_l.
    - rewrite Nat.min_r by lia. rewrite firstn_all.
      symmetry. apply firstn_all2. lia. }
  split; [|split].
  - rewrite Htake. symmetry. apply take_take_drop.
  - intros Hmore%Nat.ltb_lt. rewrite !length_firstn. lia.
  - intros Hdone%Nat.ltb_ge. split; [apply firstn_all2; lia|lia].
Qed.

Lemma loadMore_shows_next_page_witness :
  List.length (Page.visibleMods (repeat Sample.coolDraft 30) Page.PAGE_SIZE)
  < List.length
      (Page.visibleMods (repeat Sample.coolDraft 30)
         (Page.loadMore (repeat Sample.coolDraft 30) Page.PAGE_SIZE)).
Proof.
  apply (proj1 (proj2 (loadMore_shows_next_page (repeat Sample.coolDraft 30)
                         Page.PAGE_SIZE))).
  reflexivity.
Defined.
(** ** What a run asks of the network *)

Lemma sources_cons m mods :
  sources (m :: mods)
  = match sourceOf m with
    | Some sp => sp :: sources mods
    | None => sources mods
    end.
Proof. reflexivity. Qed.

Lemma sources_app l k : sources (l ++ k) = sources l ++ sources k.
Proof. apply omap_app. Qed.

Lemma Asked_refl sps st st' : requests st' = requests st -> Asked sps st st'.
Proof. intros H. exists []. split; [done|]. split; [cbn; lia|constructor]. Qed.

Lemma AllowedRequest_mono sps sps' url :
  (forall sp, sp ∈ sps -> sp ∈ sps') ->
  AllowedRequest sps url -> AllowedRequest sps' url.
Proof. intros H [(sp & Hin & ->)|Hgif]; [left; eauto|by right]. Qed.

Lemma Asked_app sps1 sps2 st1 st2 st3 :
  Asked sps1 st1 st2 -> Asked sps2 st2 st3 -> Asked (sps1 ++ sps2) st1 st3.
Proof.
  intros (l1 & H1 & L1 & A1) (l2 & H2 & L2 & A2). exists (l2 ++ l1).
  split; [by rewrite H2, H1, app_assoc|]. split.
  - rewrite !length_app. lia.
  - apply Forall_app. split.
    + revert A2. apply List.Forall_impl. intros url.
      apply AllowedRequest_mono. intros sp Hsp. apply elem_of_app. auto.
    + revert A1. apply List.Forall_impl. intros url.
      apply AllowedRequest_mono. intros sp Hsp. apply elem_of_app. auto.
Qed.

Lemma Asked_perm sps sps' st st' :
  sps ≡ₚ sps' -> Asked sps st st' -> Asked sps' st st'.
Proof.
  intros Hp (later & H & L & A). exists later. split; [done|].
  split; [by rewrite <- Hp|].
  revert A. apply List.Forall_impl. intros url. apply AllowedRequest_mono.
  intros sp. by rewrite Hp.
Qed.

(** The requests of a function. *)

Lemma Requests_mono {A} (allowed allowed' : string -> Prop) n m (p : Proc A) :
  (forall url, allowed url -> allowed' url) -> n <= m ->
  Requests allowed n p -> Requests allowed' m p.
Proof.
  intros Hallowed Hle H. revert m Hle.
  induction H as [n a|n|n effect next He Hn IH|n effect next url Hu He Hn IH
                 |n rest Hr IH]; intros m Hle.
  - constructor.
  - constructor.
  - apply Requests_quiet; auto.
  - destruct m as [|m]; [lia|].
    apply (Requests_ask _ _ _ _ url); auto. intros st. apply IH. lia.
  - constructor. auto.
Qed.

Lemma Requests_bind {A B} allowed n m (p : Proc A) (k : A -> Proc B) :
  Requests allowed n p -> (forall a, Requests allowed m (k a)) ->
  Requests allowed (n + m) (p ≫= k).
Proof.
  intros Hp Hk.
  induction Hp as [n a|n|n effect next He Hn IH|n effect next url Hu He Hn IH
                  |n rest Hr IH].
  - rewrite bind_done. apply (Requests_mono allowed _ m); [done|lia|done].
  - constructor.
  - rewrite bind_act. apply Requests_quiet; auto.
  - rewrite bind_act. cbn [Nat.add]. apply (Requests_ask _ _ _ _ url); auto.
  - rewrite bind_wait. constructor. auto.
Qed.

Lemma Requests_await {A} allowed n (p : Proc A) :
  Requests allowed n p -> Requests allowed n (await p).
Proof.
  induction 1 as [n a|n|n effect next He Hn IH|n effect next url Hu He Hn IH
                 |n rest Hr IH]; cbn [await].
  - repeat constructor.
  - repeat constructor.
  - apply Requests_quiet; auto.
  - apply (Requests_ask _ _ _ _ url); auto.
  - constructor. auto.
Qed.

Lemma Requests_tryCatch {A} allowed n m (body handler : Proc A) :
  Requests allowed n body -> Requests allowed m handler ->
  Requests allowed (n + m) (tryCatchProc body handler).
Proof.
  intros Hb Hh.
  induction Hb as [n a|n|n effect next He Hn IH|n effect next url Hu He Hn IH
                  |n rest Hr IH]; cbn [tryCatchProc].
  - constructor.
  - apply (Requests_mono allowed _ m); [done|lia|done].
  - apply Requests_quiet; auto.
  - cbn [Nat.add]. apply (Requests_ask _ _ _ _ url); auto.
  - constructor. auto.
Qed.

Lemma Requests_call {A} allowed n (m : Async A) :
  (forall st, requests (stateOf (m st)) = requests st) ->
  Requests allowed n (call m).
Proof.
  intros H. apply Requests_quiet; [done|]. intros st.
  destruct (m st); constructor.
Qed.

Lemma Requests_fetch (allowed : string -> Prop) n w url :
  allowed url -> Requests allowed (S n) (call (fetch w url)).
Proof.
  intros H. apply (Requests_ask _ _ _ _ url); [done| |].
  - intros st. rewrite fetch_cases. by destruct (net w url).
  - intros st. destruct (fetch w url st); constructor.
Qed.

Lemma Requests_ret {A} allowed n (a : A) : Requests allowed n (mret a).
Proof. constructor. Qed.

Lemma Requests_update allowed n f :
  (forall st, requests (f st) = requests st) -> Requests allowed n (update f).
Proof. intros H. apply Requests_quiet; [done|]. intros st. constructor. Qed.

Lemma Requests_readCache allowed n key : Requests allowed n (readCache key).
Proof.
  apply Requests_quiet; [done|]. intros st.
  destruct (Cache.get (cache st) key); constructor.
Qed.

Lemma Requests_writeCache allowed n key e :
  Requests allowed n (writeCache key e).
Proof.
  apply Requests_quiet.
  - intros st. by destruct (Cache.set (cache st) key e).
  - intros st. destruct (Cache.set (cache st) key e); constructor.
Qed.

Lemma fileExists_requests allowed n w target :
  Requests allowed n (Callback.fileExists w target).
Proof.
  apply Requests_await, Requests_call. intros st.
  by destruct (access_cases w target st) as [present ->].
Qed.

Lemma fetchPreviewImage_requests (allowed : string -> Prop) w relativePath :
  allowed (readmeUrlOf relativePath) ->
  Requests allowed 1 (Callback.fetchPreviewImage w relativePath).
Proof.
  intros H. unfold Callback.fetchPreviewImage.
  apply (Requests_tryCatch _ 1 0); [|apply Requests_ret].
  apply (Requests_bind _ 1 0); [by apply Requests_await, Requests_fetch|].
  intros response. destruct (negb (ok response)); [apply Requests_ret|].
  apply (Requests_bind _ 0 0); [apply Requests_await, Requests_ret|].
  intros markdown. apply Requests_call. intros st.
  by destruct (extractFirstImage_cases w markdown relativePath st)
    as [->|[->|(image & -> & _)]].
Qed.

Lemma maybeMaterializeImage_requests (allowed : string -> Prop) w url :
  (isGif url = true -> allowed url) ->
  Requests allowed 1 (Callback.maybeMaterializeImage w url).
Proof.
  intros H. unfold Callback.maybeMaterializeImage. fold (isGif url).
  destruct (isGif url); cbn [negb]; [|apply Requests_ret].
  apply (Requests_bind _ 0 1).
  { apply Requests_await, Requests_await, Requests_call. done. }
  intros _. apply (Requests_bind _ 0 1);
    [apply Requests_await, fileExists_requests|].
  intros present. destruct (negb present); [|apply Requests_ret].
  apply (Requests_bind _ 1 0).
  { apply Requests_await. unfold Callback.downloadBuffer.
    apply (Requests_bind _ 1 0); [apply Requests_await, Requests_fetch; auto|].
    intros response. destruct (negb (ok response)); [apply Requests_ret|].
    apply (Requests_bind _ 0 0); [apply Requests_await, Requests_ret|].
    intros buffer. apply Requests_ret. }
  intros [buffer|]; [|apply Requests_ret].
  apply (Requests_tryCatch _ 0 0); [|apply Requests_ret].
  apply (Requests_bind _ 0 0).
  { apply Requests_await, Requests_call. intros st. unfold sharp. async.
    by destruct (sharpJpeg w buffer). }
  intros frame. apply (Requests_bind _ 0 0).
  { apply Requests_await, Requests_call. done. }
  intros _. apply Requests_ret.
Qed.

Lemma reuse_requests allowed n image m : Requests allowed n (reuse image m).
Proof.
  unfold reuse. apply (Requests_mono allowed _ 0); [done|lia|].
  apply (Requests_bind _ 0 0); [|intros _; apply Requests_ret].
  apply Requests_update. intros st. by destruct (isLocalImage (Some image)).
Qed.

Lemma resolveFresh_requests w sourcePath m :
  Requests (AllowedRequest [sourcePath]) 2 (resolveFresh w sourcePath m).
Proof.
  unfold resolveFresh. apply (Requests_bind _ 1 1).
  { apply Requests_await, fetchPreviewImage_requests. left.
    exists sourcePath. split; [apply list_elem_of_here|done]. }
  intros image. destruct (negb (Js.truthyOpt image)).
  { apply (Requests_bind _ 0 1); [apply Requests_writeCache|].
    intros _. apply Requests_ret. }
  apply (Requests_bind _ 0 1); [by apply Requests_update|].
  intros _. apply (Requests_bind _ 1 0).
  { apply Requests_await, maybeMaterializeImage_requests. by right. }
  intros finalImage. apply (Requests_bind _ 0 0); [apply Requests_writeCache|].
  intros _. destruct (Js.truthy finalImage); [|apply Requests_ret].
  destruct (isLocalImage (Some finalImage)); [|apply Requests_ret].
  apply (Requests_bind _ 0 0); [by apply Requests_update|].
  intros _. apply Requests_ret.
Qed.

(** A callback asks for the README of its mod and for one GIF at most,
    and for nothing when its draft has no source path. *)
Lemma resolveMod_requests w m :
  Requests (AllowedRequest (sources [m])) (2 * List.length (sources [m]))
    (resolveMod w m).
Proof.
  rewrite sources_cons. unfold resolveMod, sourceOf.
  destruct (Draft.sourcePath m) as [sourcePath|]; [|apply Requests_ret].
  destruct (Js.truthy sourcePath); cbn [negb]; [|apply Requests_ret].
  change (sources []) with (@nil string). cbn [List.length Nat.mul Nat.add].
  apply (Requests_bind _ 0 2); [apply Requests_readCache|].
  intros found. destruct (_ && _); [|apply resolveFresh_requests].
  destruct (Cache.truthy (Cache.property "image" found));
    [|apply Requests_ret].
  destruct (Cache.property "image" found) as [|[| | |image| |]|];
    try constructor.
  destruct (negb (isLocalImage (Some image))); [apply reuse_requests|].
  apply (Requests_bind _ 0 2); [apply Requests_await, fileExists_requests|].
  intros present. destruct present;
    [apply reuse_requests|apply resolveFresh_requests].
Qed.

Lemma Requests_advance {A} allowed n (p : Proc A) st st' task :
  Requests allowed n p ->
  advance p st = (st', task) ->
  exists later left,
    requests st' = later ++ requests st
    /\ Forall allowed later
    /\ List.length later + left <= n
    /\ match task with
       | Waiting rest => Requests allowed left rest
       | Settled _ => True
       end.
Proof.
  intros Hp. revert st.
  induction Hp as [n a|n|n effect next He Hn IH|n effect next url Hu He Hn IH
                  |n rest Hr IH]; intros st; cbn [advance].
  - intros [= <- <-]. exists [], 0.
    split; [done|]. split; [constructor|]. split; [cbn; lia|done].
  - intros [= <- <-]. exists [], 0.
    split; [done|]. split; [constructor|]. split; [cbn; lia|done].
  - intros (later & left & H1 & H2 & H3 & H4)%IH. exists later, left.
    rewrite He in H1. done.
  - intros (later & left & H1 & H2 & H3 & H4)%IH.
    exists (later ++ [url]), left. rewrite He in H1.
    split; [by rewrite <- app_assoc|]. split.
    { apply Forall_app. split; [done|]. by constructor. }
    split; [|done]. rewrite length_app. cbn. lia.
  - intros [= <- <-]. exists [], n.
    split; [done|]. split; [constructor|]. split; [cbn; lia|done].
Qed.

Lemma Owes_snoc {A} allowed (tasks : list (Task A)) owed task n :
  Owes allowed tasks owed ->
  match task with
  | Waiting rest => Requests allowed n rest
  | Settled _ => True
  end ->
  exists owed', Owes allowed (tasks ++ [task]) owed' /\ owed' <= owed + n.
Proof.
  intros Howes Htask.
  induction Howes as [|result tasks owed Ho IH|rest tasks k owed Hr Ho IH].
  - destruct task as [result|rest]; cbn [app].
    + exists 0. split; [repeat constructor|lia].
    + exists (n + 0). split; [by repeat constructor|lia].
  - destruct IH as (owed' & H & Hle). exists owed'.
    split; [by constructor|done].
  - destruct IH as (owed' & H & Hle). exists (k + owed').
    split; [by constructor|lia].
Qed.

Lemma Owes_insert {A} allowed (tasks : list (Task A)) owed i rest st st' task :
  Owes allowed tasks owed ->
  tasks !! i = Some (Waiting rest) ->
  advance rest st = (st', task) ->
  exists later owed',
    requests st' = later ++ requests st
    /\ Forall allowed later
    /\ Owes allowed (<[i := task]> tasks) owed'
    /\ List.length later + owed' <= owed.
Proof.
  intros Howes. revert i.
  induction Howes as [|result tasks owed Ho IH|q tasks k owed Hq Ho IH];
    intros i Hi Hadvance; [done|..].
  - destruct i as [|i]; [done|]. cbn in Hi.
    destruct (IH i Hi Hadvance) as (later & owed' & H1 & H2 & H3 & H4).
    exists later, owed'.
    split; [done|]. split; [done|]. split; [by constructor|done].
  - destruct i as [|i]; cbn in Hi.
    + injection Hi as ->. cbn [insert list_insert].
      destruct (Requests_advance _ _ _ _ _ _ Hq Hadvance)
        as (later & left & H1 & H2 & H3 & H4).
      destruct task as [result|rest'].
      * exists later, owed.
        split; [done|]. split; [done|]. split; [by constructor|lia].
      * exists later, (left + owed).
        split; [done|]. split; [done|]. split; [by constructor|lia].
    + destruct (IH i Hi Hadvance) as (later & owed' & H1 & H2 & H3 & H4).
      exists later, (k + owed').
      split; [done|]. split; [done|]. split; [by constructor|lia].
Qed.

Lemma AskInv_start w batch st0 finished st m st' task :
  AskInv batch st0 finished st ->
  batch !! List.length finished = Some m ->
  advance (resolveMod w m) st = (st', task) ->
  AskInv batch st0 (finished ++ [task]) st'.
Proof.
  intros (later & owed & Hreq & Hallowed & Howes & Hle) Hm Hadvance.
  assert (Hin : forall sp, sp ∈ sources [m] -> sp ∈ sources batch).
  { intros sp Hsp. rewrite <- (take_drop_middle batch _ m Hm).
    rewrite sources_app. apply elem_of_app. right.
    change (m :: drop (S (List.length finished)) batch)
      with ([m] ++ drop (S (List.length finished)) batch).
    rewrite sources_app. apply elem_of_app. by left. }
  pose proof (Requests_mono _ (AllowedRequest (sources batch)) _ _ _
                (fun url => AllowedRequest_mono _ _ url Hin) (le_n _)
                (resolveMod_requests w m)) as Hm'.
  destruct (Requests_advance _ _ _ _ _ _ Hm' Hadvance)
    as (more & left & H1 & H2 & H3 & H4).
  destruct (Owes_snoc _ _ _ task left Howes H4) as (owed' & Howes' & Hle').
  exists (more ++ later), owed'.
  split; [by rewrite H1, Hreq, app_assoc|].
  split; [by apply Forall_app|]. split; [done|].
  rewrite !length_app. cbn [List.length].
  replace (List.length finished + 1) with (S (List.length finished)) by lia.
  rewrite (drop_S _ _ _ Hm) in Hle.
  change (m :: drop (S (List.length finished)) batch)
    with ([m] ++ drop (S (List.length finished)) batch) in Hle.
  rewrite sources_app, length_app in Hle. lia.
Qed.

Lemma AskInv_step batch st0 tasks st i rest st' task :
  AskInv batch st0 tasks st ->
  tasks !! i = Some (Waiting rest) ->
  advance rest st = (st', task) ->
  AskInv batch st0 (<[i := task]> tasks) st'.
Proof.
  intros (later & owed & Hreq & Hallowed & Howes & Hle) Hi Hadvance.
  destruct (Owes_insert _ _ _ _ _ _ _ _ Howes Hi Hadvance)
    as (more & owed' & H1 & H2 & H3 & H4).
  exists (more ++ later), owed'.
  split; [by rewrite H1, Hreq, app_assoc|].
  split; [by apply Forall_app|]. split; [done|].
  rewrite length_insert, length_app. lia.
Qed.

Lemma runBatch_requests w i batch st :
  Asked (sources batch) st (stateOf (runBatch w i batch st)).
Proof.
  unfold runBatch.
  destruct (startAll (List.map (resolveMod w) batch) st) as [tasks st1]
    eqn:Hstart.
  assert (Hinv1 : AskInv batch st tasks st1).
  { assert (Hstep : forall finished st2 p st3 task,
              AskInv batch st finished st2 ->
              List.map (resolveMod w) batch !! List.length finished = Some p ->
              advance p st2 = (st3, task) ->
              AskInv batch st (finished ++ [task]) st3).
    { intros finished st2 p st3 task Hinv Hp Hadvance.
      change (List.map (resolveMod w) batch) with (resolveMod w <$> batch)
        in Hp.
      apply list_lookup_fmap_Some in Hp as (m & -> & Hm).
      by eapply AskInv_start. }
    apply (startAll_inv (AskInv batch st) (List.map (resolveMod w) batch)
             Hstep (List.map (resolveMod w) batch) [] [] st tasks st1);
      [done|done| |done].
    exists [], 0. split; [done|]. split; [constructor|].
    split; [constructor|]. cbn [List.length]. rewrite drop_0. lia. }
  pose proof (drain_inv (AskInv batch st) (schedule w i)
                (AskInv_step batch st)
                (CALLBACK_AWAITS * List.length batch) 0 tasks st1 Hinv1)
    as (later & owed & Hreq & Hallowed & _ & Hle).
  destruct (drain _ _ _ tasks st1) as [tasks' st2]. cbn [fst snd] in *.
  assert (Hasked : Asked (sources batch) st st2).
  { exists later. split; [done|]. split; [lia|done]. }
  by destruct (fulfilled tasks').
Qed.

Lemma batchLoop_requests w fuel : forall i mods st,
  Asked (sources (drop i mods)) st (stateOf (batchLoop w fuel i mods st)).
Proof.
  induction fuel as [|fuel IH]; intros i mods st; cbn [batchLoop].
  { by apply Asked_refl. }
  destruct (i <? List.length mods); [|by apply Asked_refl].
  async.
  assert (E : sources (drop i mods)
              = sources (take IMAGE_FETCH_CONCURRENCY (drop i mods))
                ++ sources (drop (i + IMAGE_FETCH_CONCURRENCY) mods)).
  { rewrite <- sources_app, <- drop_drop. by rewrite take_drop. }
  rewrite E. clear E.
  pose proof (runBatch_requests w i
                (take IMAGE_FETCH_CONCURRENCY (drop i mods)) st) as Hbatch.
  destruct (runBatch w i _ st) as [finished st1|st1]; cbn [stateOf] in *.
  - apply (Asked_app _ _ _ st1); [done|].
    specialize (IH (i + IMAGE_FETCH_CONCURRENCY) mods st1).
    by destruct (batchLoop w fuel _ mods st1).
  - apply (Asked_app _ _ _ st1); [done|]. by apply Asked_refl.
Qed.

(** X21: what a run asks of the network, whether it completes or fails
    and in whatever order its callbacks go on.  Its first request is for
    the table; the others, at most two for each row of the table that has
    a source path, are for the README of such a row or for a GIF.  When
    the table cannot be fetched the run asks for nothing else. *)
Theorem run_requests (w : World) (st : RunState) :
  exists later,
    requests (snd (run w st)) = later ++ README_URL :: requests st
    /\ List.length later <= 2 * List.length (sources (fetchedRows w))
    /\ Forall (AllowedRequest (sources (fetchedRows w))) later.
Proof.
  assert (Hrun : snd (run w st) = stateOf (main w st)).
  { unfold run. by destruct (main w st). }
  rewrite Hrun. clear Hrun.
  enough (Asked (sources (fetchedRows w)) (logRequest README_URL st)
            (stateOf (main w st))) as (later & H & L & A) by by exists later.
  unfold main, fetchedRows. unfold mbind at 1. unfold Async_bind.
  rewrite fetchReadme_cases.
  destruct (net w README_URL) as [response|]; [|by apply Asked_refl].
  destruct (ok response); [|by apply Asked_refl].
  unfold mbind at 1. unfold Async_bind.
  destruct (loadImageCache_cases (logRequest README_URL st)) as (c & -> & _).
  unfold mbind at 1. unfold Async_bind.
  apply (Asked_perm (sources (sortByTitle w (parseMods (text response))))).
  { unfold sources. by rewrite sortByTitle_perm. }
  assert (Hadd : Asked (sources (sortByTitle w (parseMods (text response))))
                   (logRequest README_URL st)
                   (stateOf (addPreviewImages w
                               (sortByTitle w (parseMods (text response)))
                               (setCache c (logRequest README_URL st))))).
  { unfold addPreviewImages, ensureImageDir. async.
    pose proof (batchLoop_requests w
                  (List.length (sortByTitle w (parseMods (text response)))) 0
                  (sortByTitle w (parseMods (text response)))
                  (setStats 0 0 0
                     (setUsed ∅ (setCache c (logRequest README_URL st)))))
      as Hloop.
    rewrite drop_0 in Hloop. exact Hloop. }
  destruct (addPreviewImages w _ _) as [drafts st2|st2]; cbn [stateOf] in *;
    [|done].
  destruct Hadd as (later & Hreq & Hlen & Hallowed).
  assert (Hend : forall st3, requests st3 = requests st2 ->
                 Asked (sources (sortByTitle w (parseMods (text response))))
                   (logRequest README_URL st) st3).
  { intros st3 E. exists later. by rewrite E. }
  unfold saveImageCache, writeDocument, cleanupUnusedLocalImages. async.
  destruct (snapshotWrite w); cbn [stateOf]; try by apply Hend.
  destruct (cacheWrite w); cbn [stateOf]; try by apply Hend.
  destruct (readdirOk w); by apply Hend.
Qed.

(** ** Line endings and titles of images *)

Lemma splitLines_plain c s :
  Ascii.eqb c "010" = false -> Ascii.eqb c "013" = false ->
  Js.splitLines (String c s) = Js.consHead c (Js.splitLines s).
Proof.
  intros Hlf Hcr. cbn [Js.splitLines]. rewrite Hlf, Hcr. by destruct s.
Qed.

Lemma splitLines_crlf markdown :
  allChars (notChar "013") markdown = true ->
  Js.splitLines (crlf markdown) = Js.splitLines markdown.
Proof.
  induction markdown as [|c s IH]; [done|]. cbn [allChars crlf].
  intros [Hc Hs]%andb_true_iff. apply negb_true_iff in Hc.
  destruct (Ascii.eqb c "010") eqn:Hlf.
  - apply Ascii.eqb_eq in Hlf as ->. cbn [Js.splitLines]. cbn.
    by rewrite IH.
  - rewrite !splitLines_plain by done. by rewrite IH.
Qed.

(** X22: line endings.  A table written with carriage return and line
    feed at the end of its lines is read as the same table written with
    line feeds: the same lines, the same mods. *)
Theorem windows_line_endings (markdown : string) :
  allChars (notChar "013") markdown = true ->
  Js.splitLines (crlf markdown) = Js.splitLines markdown
  /\ parseMods (crlf markdown) = parseMods markdown.
Proof.
  intros H%splitLines_crlf. split; [done|]. unfold parseMods. by rewrite H.
Qed.

Lemma windows_line_endings_witness :
  Js.splitLines (crlf Sample.table) = Js.splitLines Sample.table
  /\ parseMods (crlf Sample.table) = parseMods Sample.table.
Proof. apply (windows_line_endings Sample.table). reflexivity. Defined.

Lemma takeUntil_plain stop s :
  allChars (fun c => negb (stop c)) s = true -> Js.takeUntil stop s = s.
Proof.
  induction s as [|c s IH]; [done|]. cbn [allChars Js.takeUntil].
  intros [Hc Hs]%andb_true_iff. apply negb_true_iff in Hc.
  by rewrite Hc, IH.
Qed.

Lemma trim_plain s : allChars notWhiteSpace s = true -> Js.trim s = s.
Proof.
  intros H. unfold Js.trim.
  assert (Js.trimStart s = s) as ->.
  { destruct s as [|c s]; [done|]. cbn in H.
    apply andb_true_iff in H as [Hc%negb_true_iff _].
    by apply trimStart_head. }
  induction s as [|c s IH]; [done|]. cbn [allChars] in H.
  apply andb_true_iff in H as [Hc%negb_true_iff Hs].
  cbn [Js.trimEnd]. rewrite (IH Hs), Hc. by destruct s.
Qed.

(** X23: the title of an image.  [stripTitle] gives the reference of a
    markdown image without what follows it: the reference stands in the
    target behind white space only, holds no white space, and is followed
    by nothing or by white space.  Stripping again changes nothing. *)
Theorem stripTitle_spec (url : string) :
  allChars notWhiteSpace (stripTitle url) = true
  /\ (exists before after,
         url = before +:+ stripTitle url +:+ after
         /\ allChars Js.isWhiteSpace before = true
         /\ (after = ""
             \/ exists c rest,
                  after = String c rest /\ Js.isWhiteSpace c = true))
  /\ stripTitle (stripTitle url) = stripTitle url.
Proof.
  unfold stripTitle.
  destruct (takeUntil_spec Js.isWhiteSpace (Js.trim url))
    as (rest & Hrest & Hplain & Hnext).
  destruct (trim_spec url) as (l & r & Hurl & Hl & Hr & _).
  split; [exact Hplain|]. split.
  - exists l, (rest +:+ r). split; [|split; [done|]].
    + rewrite <- (app_assoc_str (Js.takeUntil Js.isWhiteSpace (Js.trim url))
                    rest r), <- Hrest.
      exact Hurl.
    + destruct Hnext as [->|(c & rest' & -> & Hc)].
      * rewrite app_empty_l. destruct r as [|c r]; [by left|right].
        cbn in Hr. apply andb_true_iff in Hr as [Hc _]. eauto.
      * right. rewrite app_cons. eauto.
  - rewrite (trim_plain _ Hplain). by apply takeUntil_plain.
Qed.
